(** * scri.mode_calculations: moments of the angular-momentum operators

    A shallow embedding of [mode_calculations.py]: the moment accumulators
    [_LdtVector], [_LVector], [_LLComparisonMatrix], [_LLMatrix] with their
    public wrappers, the continuity walk [_LLDominantEigenvector] with
    [LLDominantEigenvector], [angular_velocity] and [corotating_frame].

    Conventions of the embedding.
    - [float64] values are real numbers ([R]) and [complex128] values are
      pairs of reals ([C]): arithmetic is exact, rounding is not modelled.
    - [int64] values are integers ([Z]); mode tables that fit in memory keep
      every [M + 2] and [M ** 2] far inside the 64-bit range.
    - numpy arrays are lists; an array of shape [(n, 3)] is a list of [vec3],
      one of shape [(n, 3, 3)] a list of [mat3]; the last axes are indexed by
      the literal constants 0, 1, 2 of the source ([c0], [c1], [c2]).
    - a function that mutates an array argument in place returns the new
      array.
    - the functions compiled by [njit] check no array bound.  The
      accumulators read a neighbouring mode only under a guard, and their
      reads are total ([read2]); the continuity walk takes its index from
      the caller, and its accesses are partial ([outcome]).
    - functions of other packages ([ladder], [np.linalg.eigh],
      [np.linalg.solve], the integrator and the rotor square root of
      [quaternion]) are parameters or are written from their contract in
      the spec, as their comments say. *)

From Stdlib Require Import Reals Lra Lia ZArith List Bool.
Import ListNotations.
Open Scope R_scope.

(** ** Scalars *)

Record C : Type := mkC { re : R; im : R }.

Definition C0 : C := mkC 0 0.
Definition RtoC (x : R) : C := mkC x 0.
Definition Cadd (a b : C) : C := mkC (re a + re b) (im a + im b).
Definition Csub (a b : C) : C := mkC (re a - re b) (im a - im b).
Definition Cmul (a b : C) : C :=
  mkC (re a * re b - im a * im b) (re a * im b + im a * re b).
Definition conjugate (a : C) : C := mkC (re a) (- im a).

Declare Scope C_scope.
Delimit Scope C_scope with C.
Bind Scope C_scope with C.
Infix "+" := Cadd : C_scope.
Infix "-" := Csub : C_scope.
Infix "*" := Cmul : C_scope.

(** ** Fixed-size axes *)

Inductive idx3 : Type := c0 | c1 | c2.

Record vec3 (A : Type) : Type := mkV { vx : A; vy : A; vz : A }.
Arguments mkV {A}.
Arguments vx {A}.
Arguments vy {A}.
Arguments vz {A}.

Definition vget {A} (v : vec3 A) (c : idx3) : A :=
  match c with c0 => vx v | c1 => vy v | c2 => vz v end.

Definition vupd {A} (c : idx3) (f : A -> A) (v : vec3 A) : vec3 A :=
  match c with
  | c0 => mkV (f (vx v)) (vy v) (vz v)
  | c1 => mkV (vx v) (f (vy v)) (vz v)
  | c2 => mkV (vx v) (vy v) (f (vz v))
  end.

Definition vconst {A} (a : A) : vec3 A := mkV a a a.

Definition mat3 (A : Type) : Type := vec3 (vec3 A).

Definition mget {A} (m : mat3 A) (a b : idx3) : A := vget (vget m a) b.
Definition mupd {A} (a b : idx3) (f : A -> A) (m : mat3 A) : mat3 A :=
  vupd a (vupd b f) m.

(** ** Arrays *)

(** [l[i] := f l[i]] for an index inside the array. *)
Fixpoint upd_nth {A} (i : nat) (f : A -> A) (l : list A) : list A :=
  match l, i with
  | [], _ => []
  | x :: l', O => f x :: l'
  | x :: l', S i' => x :: upd_nth i' f l'
  end.

(** [np.zeros((n, 3))], [np.zeros((n, 3, 3))]. *)
Definition zeros2 {A} (zero : A) (n : nat) : list (vec3 A) :=
  repeat (vconst zero) n.
Definition zeros3 {A} (zero : A) (n : nat) : list (mat3 A) :=
  repeat (vconst (vconst zero)) n.

(** [arr[i, c] += x] and [arr[i, a, b] += x]. *)
Definition iadd2 (arr : list (vec3 R)) (i : nat) (c : idx3) (x : R) :=
  upd_nth i (vupd c (fun y => y + x)) arr.
Definition iadd3 (arr : list (mat3 R)) (i : nat) (a b : idx3) (x : R) :=
  upd_nth i (mupd a b (fun y => y + x)) arr.
Definition Ciadd2 (arr : list (vec3 C)) (i : nat) (c : idx3) (x : C) :=
  upd_nth i (vupd c (fun y => Cadd y x)) arr.
Definition Ciadd3 (arr : list (mat3 C)) (i : nat) (a b : idx3) (x : C) :=
  upd_nth i (mupd a b (fun y => Cadd y x)) arr.

(** A signed index into an axis of length [n], as compiled code resolves it:
    a negative index counts from the end, and nothing is checked, so an index
    outside [-n, n) has no position. *)
Definition position (n : nat) (i : Z) : option nat :=
  if ((0 <=? i) && (i <? Z.of_nat n))%Z then Some (Z.to_nat i)
  else if ((- Z.of_nat n <=? i) && (i <? 0))%Z then Some (Z.to_nat (i + Z.of_nat n))
  else None.

(** Reading a mode coefficient [row[k]].  The accumulators read a neighbour
    only under the guard that keeps it inside its [ell] block (see
    [guarded_reads_inside]); outside the row the read yields [C0] here. *)
Definition row_read (row : list C) (k : Z) : C :=
  match position (length row) k with
  | Some p => nth p row C0
  | None => C0
  end.

(** [data[i_time, k]]. *)
Definition read2 (data : list (list C)) (i_time : nat) (k : Z) : C :=
  row_read (nth i_time data []) k.

(** ** The ladder coefficient *)

(** Modelled from the spec: [ladder_operator_coefficient] of the package
    [spherical_functions], which the module imports as [ladder]; the spec
    defines it as [sqrt(max(0, ell(ell+1) - m(m+1)))]. *)
Definition ladder (ell m : Z) : R :=
  sqrt (Rmax 0 (IZR (ell * (ell + 1) - m * (m + 1)))).

(** ** The mode time series *)

(** Modelled from the spec: the Mode Time Series object (class
    [WaveformModes], whose file is not among the sources): the times [t], the
    coefficients [data] and their time derivative [data_dot], one row per
    time, and the mode table [LM] of [(ell, m)] pairs. *)
Record WaveformModes : Type := mkW {
  t : list R;
  data : list (list C);
  data_dot : list (list C);
  LM : list (Z * Z)
}.

Definition n_times (W : WaveformModes) : nat := length (t W).

(** [lm[i_mode, 0]] and [lm[i_mode, 1]]. *)
Definition lm_L (lm : list (Z * Z)) (i_mode : nat) : Z := fst (nth i_mode lm (0, 0)%Z).
Definition lm_M (lm : list (Z * Z)) (i_mode : nat) : Z := snd (nth i_mode lm (0, 0)%Z).

(** ** The terms in the (+,-,z) basis

    Each definition is one of the conditional expressions that the loop bodies
    bind to the variable of the same name; [data1] is the array whose
    coefficient is conjugated, [data2] the other one. *)

Section Terms.
Variables data1 data2 : list (list C).
Variables i_time i_mode : nat.
Variables L M : Z.

Let k : Z := Z.of_nat i_mode.
Let bra (shift : Z) : C := conjugate (read2 data1 i_time (k + shift)).
Let ket : C := read2 data2 i_time k.

Definition Lp : C :=
  if (M + 1 <=? L)%Z then (bra 1 * ket * RtoC (ladder L M))%C else C0.
Definition Lm : C :=
  if (M - 1 >=? - L)%Z then (bra (-1) * ket * RtoC (ladder L (- M)))%C else C0.
Definition Lz : C := (bra 0 * ket * RtoC (IZR M))%C.

Definition LpLp : C :=
  if (M + 2 <=? L)%Z
  then (bra 2 * ket * RtoC (ladder L (M + 1) * ladder L M))%C else C0.
Definition LpLm : C :=
  if (M - 1 >=? - L)%Z
  then (bra 0 * ket * RtoC (ladder L (M - 1) * ladder L (- M)))%C else C0.
Definition LmLp : C :=
  if (M + 1 <=? L)%Z
  then (bra 0 * ket * RtoC (ladder L (- (M + 1)) * ladder L M))%C else C0.
Definition LmLm : C :=
  if (M - 2 >=? - L)%Z
  then (bra (-2) * ket * RtoC (ladder L (- (M - 1)) * ladder L (- M)))%C else C0.
Definition LpLz : C :=
  if (M + 1 <=? L)%Z
  then (bra 1 * ket * RtoC (ladder L M * IZR M))%C else C0.
Definition LzLp : C :=
  if (M + 1 <=? L)%Z
  then (bra 1 * ket * RtoC (IZR (M + 1) * ladder L M))%C else C0.
Definition LmLz : C :=
  if (M - 1 >=? - L)%Z
  then (bra (-1) * ket * RtoC (ladder L (- M) * IZR M))%C else C0.
Definition LzLm : C :=
  if (M - 1 >=? - L)%Z
  then (bra (-1) * ket * RtoC (IZR (M - 1) * ladder L (- M)))%C else C0.
Definition LzLz : C := (bra 0 * ket * RtoC (IZR (M ^ 2)))%C.
End Terms.

(** The complex literals of the conversion to the (x,y,z) basis. *)
Definition half : C := RtoC 0.5.
Definition quarter : C := RtoC 0.25.
Definition mhalf : C := RtoC (- 0.5).
Definition mquarter : C := RtoC (- 0.25).
Definition mhalf_j : C := mkC 0 (- 0.5).
Definition mquarter_j : C := mkC 0 (- 0.25).

(** ** The accumulators *)

(** [for i in xrange(n)]. *)
Definition xrange (n : nat) : list nat := seq 0 n.

Definition _LdtVector (data datadot : list (list C)) (lm : list (Z * Z))
    (Ldt : list (vec3 R)) : list (vec3 R) :=
  fold_left (fun Ldt i_mode =>
    let L := lm_L lm i_mode in
    let M := lm_M lm i_mode in
    fold_left (fun Ldt i_time =>
      let Lp := Lp data datadot i_time i_mode L M in
      let Lm := Lm data datadot i_time i_mode L M in
      let Lz := Lz data datadot i_time i_mode M in
      let Ldt := iadd2 Ldt i_time c0 (0.5 * (im Lp + im Lm)) in
      let Ldt := iadd2 Ldt i_time c1 (- 0.5 * (re Lp - re Lm)) in
      iadd2 Ldt i_time c2 (im Lz))
      (xrange (length data)) Ldt)
    (xrange (length lm)) Ldt.

Definition LdtVector (W : WaveformModes) : list (vec3 R) :=
  let Ldt := zeros2 0 (n_times W) in
  _LdtVector (data W) (data_dot W) (LM W) Ldt.

Definition _LVector (data1 data2 : list (list C)) (lm : list (Z * Z))
    (Lvec : list (vec3 C)) : list (vec3 C) :=
  fold_left (fun Lvec i_mode =>
    let L := lm_L lm i_mode in
    let M := lm_M lm i_mode in
    fold_left (fun Lvec i_time =>
      let Lp := Lp data1 data2 i_time i_mode L M in
      let Lm := Lm data1 data2 i_time i_mode L M in
      let Lz := Lz data1 data2 i_time i_mode M in
      let Lvec := Ciadd2 Lvec i_time c0 (half * (Lp + Lm))%C in
      let Lvec := Ciadd2 Lvec i_time c1 (mhalf_j * (Lp - Lm))%C in
      Ciadd2 Lvec i_time c2 Lz)
      (xrange (length data1)) Lvec)
    (xrange (length lm)) Lvec.

Definition LVector (W1 W2 : WaveformModes) : list (vec3 C) :=
  let L := zeros2 C0 (n_times W1) in
  _LVector (data W1) (data W2) (LM W1) L.

Definition _LLComparisonMatrix (data1 data2 : list (list C)) (lm : list (Z * Z))
    (LL : list (mat3 C)) : list (mat3 C) :=
  fold_left (fun LL i_mode =>
    let L := lm_L lm i_mode in
    let M := lm_M lm i_mode in
    fold_left (fun LL i_time =>
      let LpLp := LpLp data1 data2 i_time i_mode L M in
      let LpLm := LpLm data1 data2 i_time i_mode L M in
      let LmLp := LmLp data1 data2 i_time i_mode L M in
      let LmLm := LmLm data1 data2 i_time i_mode L M in
      let LpLz := LpLz data1 data2 i_time i_mode L M in
      let LzLp := LzLp data1 data2 i_time i_mode L M in
      let LmLz := LmLz data1 data2 i_time i_mode L M in
      let LzLm := LzLm data1 data2 i_time i_mode L M in
      let LzLz := LzLz data1 data2 i_time i_mode M in
      let LL := Ciadd3 LL i_time c0 c0 (quarter * (LpLp + LmLm + LmLp + LpLm))%C in
      let LL := Ciadd3 LL i_time c0 c1 (mquarter_j * (LpLp - LmLm + LmLp - LpLm))%C in
      let LL := Ciadd3 LL i_time c0 c2 (half * (LpLz + LmLz))%C in
      let LL := Ciadd3 LL i_time c1 c0 (mquarter_j * (LpLp - LmLp + LpLm - LmLm))%C in
      let LL := Ciadd3 LL i_time c1 c1 (mquarter * (LpLp - LmLp - LpLm + LmLm))%C in
      let LL := Ciadd3 LL i_time c1 c1 (mhalf_j * (LpLz - LmLz))%C in
      let LL := Ciadd3 LL i_time c2 c0 (half * (LzLp + LzLm))%C in
      let LL := Ciadd3 LL i_time c2 c1 (mhalf_j * (LzLp - LzLm))%C in
      Ciadd3 LL i_time c2 c2 LzLz)
      (xrange (length data1)) LL)
    (xrange (length lm)) LL.

Definition LLComparisonMatrix (W1 W2 : WaveformModes) : list (mat3 C) :=
  let LL := zeros3 C0 (n_times W1) in
  _LLComparisonMatrix (data W1) (data W2) (LM W1) LL.

Definition _LLMatrix (data : list (list C)) (lm : list (Z * Z))
    (LL : list (mat3 R)) : list (mat3 R) :=
  fold_left (fun LL i_mode =>
    let L := lm_L lm i_mode in
    let M := lm_M lm i_mode in
    fold_left (fun LL i_time =>
      let LpLp := LpLp data data i_time i_mode L M in
      let LpLm := LpLm data data i_time i_mode L M in
      let LmLp := LmLp data data i_time i_mode L M in
      let LmLm := LmLm data data i_time i_mode L M in
      let LpLz := LpLz data data i_time i_mode L M in
      let LzLp := LzLp data data i_time i_mode L M in
      let LmLz := LmLz data data i_time i_mode L M in
      let LzLm := LzLm data data i_time i_mode L M in
      let LzLz := LzLz data data i_time i_mode M in
      let LxLx := (quarter * (LpLp + LmLm + LmLp + LpLm))%C in
      let LxLy := (mquarter_j * (LpLp - LmLm + LmLp - LpLm))%C in
      let LxLz := (half * (LpLz + LmLz))%C in
      let LyLx := (mquarter_j * (LpLp - LmLp + LpLm - LmLm))%C in
      let LyLy := (mquarter * (LpLp - LmLp - LpLm + LmLm))%C in
      let LyLz := (mhalf_j * (LpLz - LmLz))%C in
      let LzLx := (half * (LzLp + LzLm))%C in
      let LzLy := (mhalf_j * (LzLp - LzLm))%C in
      let LL := iadd3 LL i_time c0 c0 (re LxLx) in
      let LL := iadd3 LL i_time c0 c1 (re (LxLy + LyLx)%C / 2) in
      let LL := iadd3 LL i_time c0 c2 (re (LxLz + LzLx)%C / 2) in
      let LL := iadd3 LL i_time c1 c0 (re (LyLx + LxLy)%C / 2) in
      let LL := iadd3 LL i_time c1 c1 (re LyLy) in
      let LL := iadd3 LL i_time c1 c2 (re (LyLz + LzLy)%C / 2) in
      let LL := iadd3 LL i_time c2 c0 (re (LzLx + LxLz)%C / 2) in
      let LL := iadd3 LL i_time c2 c1 (re (LzLy + LyLz)%C / 2) in
      iadd3 LL i_time c2 c2 (re LzLz))
      (xrange (length data)) LL)
    (xrange (length lm)) LL.

Definition LLMatrix (W : WaveformModes) : list (mat3 R) :=
  let LL := zeros3 0 (n_times W) in
  _LLMatrix (data W) (LM W) LL.

(** * Derived definitions used by the statements *)

Definition mzero : mat3 R := vconst (vconst 0).
Definition Cmzero : mat3 C := vconst (vconst C0).
Definition vzero : vec3 R := vconst 0.
Definition Cvzero : vec3 C := vconst C0.

Definition symmetric (A : mat3 R) : Prop :=
  forall a b : idx3, mget A a b = mget A b a.

(** ** What one mode adds to one time sample *)

Definition Ldt_step (data datadot : list (list C)) (lm : list (Z * Z))
    (i_mode i_time : nat) (v : vec3 R) : vec3 R :=
  let L := lm_L lm i_mode in
  let M := lm_M lm i_mode in
  let Lp := Lp data datadot i_time i_mode L M in
  let Lm := Lm data datadot i_time i_mode L M in
  let Lz := Lz data datadot i_time i_mode M in
  mkV (vx v + 0.5 * (im Lp + im Lm))
      (vy v + - 0.5 * (re Lp - re Lm))
      (vz v + im Lz).

Definition Lvec_step (data1 data2 : list (list C)) (lm : list (Z * Z))
    (i_mode i_time : nat) (v : vec3 C) : vec3 C :=
  let L := lm_L lm i_mode in
  let M := lm_M lm i_mode in
  let Lp := Lp data1 data2 i_time i_mode L M in
  let Lm := Lm data1 data2 i_time i_mode L M in
  let Lz := Lz data1 data2 i_time i_mode M in
  mkV (vx v + half * (Lp + Lm))%C
      (vy v + mhalf_j * (Lp - Lm))%C
      (vz v + Lz)%C.

Definition LLcmp_step (data1 data2 : list (list C)) (lm : list (Z * Z))
    (i_mode i_time : nat) (A : mat3 C) : mat3 C :=
  let L := lm_L lm i_mode in
  let M := lm_M lm i_mode in
  let LpLp := LpLp data1 data2 i_time i_mode L M in
  let LpLm := LpLm data1 data2 i_time i_mode L M in
  let LmLp := LmLp data1 data2 i_time i_mode L M in
  let LmLm := LmLm data1 data2 i_time i_mode L M in
  let LpLz := LpLz data1 data2 i_time i_mode L M in
  let LzLp := LzLp data1 data2 i_time i_mode L M in
  let LmLz := LmLz data1 data2 i_time i_mode L M in
  let LzLm := LzLm data1 data2 i_time i_mode L M in
  let LzLz := LzLz data1 data2 i_time i_mode M in
  mkV
    (mkV (mget A c0 c0 + quarter * (LpLp + LmLm + LmLp + LpLm))%C
         (mget A c0 c1 + mquarter_j * (LpLp - LmLm + LmLp - LpLm))%C
         (mget A c0 c2 + half * (LpLz + LmLz))%C)
    (mkV (mget A c1 c0 + mquarter_j * (LpLp - LmLp + LpLm - LmLm))%C
         (mget A c1 c1 + mquarter * (LpLp - LmLp - LpLm + LmLm)
                       + mhalf_j * (LpLz - LmLz))%C
         (mget A c1 c2))
    (mkV (mget A c2 c0 + half * (LzLp + LzLm))%C
         (mget A c2 c1 + mhalf_j * (LzLp - LzLm))%C
         (mget A c2 c2 + LzLz)%C).

Definition LL_step (data : list (list C)) (lm : list (Z * Z))
    (i_mode i_time : nat) (A : mat3 R) : mat3 R :=
  let L := lm_L lm i_mode in
  let M := lm_M lm i_mode in
  let LpLp := LpLp data data i_time i_mode L M in
  let LpLm := LpLm data data i_time i_mode L M in
  let LmLp := LmLp data data i_time i_mode L M in
  let LmLm := LmLm data data i_time i_mode L M in
  let LpLz := LpLz data data i_time i_mode L M in
  let LzLp := LzLp data data i_time i_mode L M in
  let LmLz := LmLz data data i_time i_mode L M in
  let LzLm := LzLm data data i_time i_mode L M in
  let LzLz := LzLz data data i_time i_mode M in
  let LxLx := (quarter * (LpLp + LmLm + LmLp + LpLm))%C in
  let LxLy := (mquarter_j * (LpLp - LmLm + LmLp - LpLm))%C in
  let LxLz := (half * (LpLz + LmLz))%C in
  let LyLx := (mquarter_j * (LpLp - LmLp + LpLm - LmLm))%C in
  let LyLy := (mquarter * (LpLp - LmLp - LpLm + LmLm))%C in
  let LyLz := (mhalf_j * (LpLz - LmLz))%C in
  let LzLx := (half * (LzLp + LzLm))%C in
  let LzLy := (mhalf_j * (LzLp - LzLm))%C in
  mkV
    (mkV (mget A c0 c0 + re LxLx)
         (mget A c0 c1 + re (LxLy + LyLx)%C / 2)
         (mget A c0 c2 + re (LxLz + LzLx)%C / 2))
    (mkV (mget A c1 c0 + re (LyLx + LxLy)%C / 2)
         (mget A c1 c1 + re LyLy)
         (mget A c1 c2 + re (LyLz + LzLy)%C / 2))
    (mkV (mget A c2 c0 + re (LzLx + LxLz)%C / 2)
         (mget A c2 c1 + re (LzLy + LyLz)%C / 2)
         (mget A c2 c2 + re LzLz)).


(** Row [i] of the results, as a fold over the mode table. *)
(** Row [i] of the results, as a fold over the mode table. *)
Definition LL_row (data : list (list C)) (lm : list (Z * Z)) (i : nat) : mat3 R :=
  fold_left (fun row k => LL_step data lm k i row) (seq 0 (length lm)) mzero.
Definition LLcmp_row (data1 data2 : list (list C)) (lm : list (Z * Z)) (i : nat) : mat3 C :=
  fold_left (fun row k => LLcmp_step data1 data2 lm k i row) (seq 0 (length lm)) Cmzero.
Definition Ldt_row (data datadot : list (list C)) (lm : list (Z * Z)) (i : nat) : vec3 R :=
  fold_left (fun row k => Ldt_step data datadot lm k i row) (seq 0 (length lm)) vzero.
Definition Lvec_row (data1 data2 : list (list C)) (lm : list (Z * Z)) (i : nat) : vec3 C :=
  fold_left (fun row k => Lvec_step data1 data2 lm k i row) (seq 0 (length lm)) Cvzero.


(** [sum(f(k) for k in range(n))], accumulated from the left as the loops do. *)
Definition Rsum (f : nat -> R) (n : nat) : R :=
  fold_left (fun s k => s + f k) (seq 0 n) 0.


(** The mode table holds, for each [ell] it lists, every [m] of [[-ell, ell]]
    in increasing order: each entry lies in its range, its successor holds
    [(ell, m + 1)] unless [m = ell], and its predecessor [(ell, m - 1)] unless
    [m = -ell]. *)
Definition complete_blocks (lm : list (Z * Z)) : Prop :=
  forall (k : nat) (L M : Z),
    (k < length lm)%nat -> nth k lm (0, 0)%Z = (L, M) ->
    (- L <= M <= L)%Z
    /\ ((M + 1 <= L)%Z ->
        (S k < length lm)%nat /\ nth (S k) lm (0, 0)%Z = (L, M + 1)%Z)
    /\ ((M - 1 >= - L)%Z ->
        (1 <= k)%nat /\ nth (k - 1) lm (0, 0)%Z = (L, M - 1)%Z).

(** * The dominant eigenvector and the angular velocity *)

(** ** Outcomes of a call *)

Inductive exn : Type := ZeroDivisionError | LinAlgError | IndexError.

(** A call returns a value, raises an exception, or (in compiled code, which
    checks no bounds) touches an array outside its storage, after which
    nothing is known about the run. *)
Inductive outcome (A : Type) : Type :=
| Ok (a : A)
| Raise (e : exn)
| Undef.
Arguments Ok {A}.
Arguments Raise {A}.
Arguments Undef {A}.

Definition bind {A B} (m : outcome A) (f : A -> outcome B) : outcome B :=
  match m with
  | Ok a => f a
  | Raise e => Raise e
  | Undef => Undef
  end.

Notation "x <- m ;; k" := (bind m (fun x => k))
  (at level 61, m at next level, right associativity).
Notation "' p <- m ;; k" := (bind m (fun x => let p := x in k))
  (at level 61, p pattern, m at next level, right associativity).

(** [for i in ...: body], the state threaded through the iterations. *)
Fixpoint for_each {S I} (l : list I) (body : S -> I -> outcome S) (s : S) : outcome S :=
  match l with
  | [] => Ok s
  | i :: l' => s' <- body s i ;; for_each l' body s'
  end.

(** [xrange(start, stop)] and [xrange(start, stop, -1)]. *)
Definition xrange_from (start stop : Z) : list Z :=
  map (fun j => (start + Z.of_nat j)%Z) (seq 0 (Z.to_nat (stop - start))).
Definition xrange_rev (start stop : Z) : list Z :=
  map (fun j => (start - Z.of_nat j)%Z) (seq 0 (Z.to_nat (start - stop))).

(** ** Element access in compiled code *)

(** [dpa[i, c]]. *)
Definition get2 (dpa : list (vec3 R)) (i : Z) (c : idx3) : outcome R :=
  match position (length dpa) i with
  | Some p => match nth_error dpa p with
              | Some v => Ok (vget v c)
              | None => Undef
              end
  | None => Undef
  end.

(** [dpa[i, c] *= x]. *)
Definition imul2 (dpa : list (vec3 R)) (i : Z) (c : idx3) (x : R)
    : outcome (list (vec3 R)) :=
  match position (length dpa) i with
  | Some p => Ok (upd_nth p (vupd c (fun y => y * x)) dpa)
  | None => Undef
  end.

(** [dpa[i, c] /= x]; a float division by zero raises in compiled code. *)
Definition idiv2 (dpa : list (vec3 R)) (i : Z) (c : idx3) (x : R)
    : outcome (list (vec3 R)) :=
  match position (length dpa) i with
  | Some p => if Req_dec_T x 0 then Raise ZeroDivisionError
              else Ok (upd_nth p (vupd c (fun y => y / x)) dpa)
  | None => Undef
  end.

Definition Rltb (x y : R) : bool := if Rlt_dec x y then true else false.
Definition Rgtb (x y : R) : bool := if Rgt_dec x y then true else false.
Definition Rneqb (x y : R) : bool := if Req_dec_T x y then false else true.

(** ** [_LLDominantEigenvector] *)

(** [dpa[i, 0] *= -1; dpa[i, 1] *= -1; dpa[i, 2] *= -1]. *)
Definition negate_row (dpa : list (vec3 R)) (i : Z) : outcome (list (vec3 R)) :=
  dpa <- imul2 dpa i c0 (-1) ;;
  dpa <- imul2 dpa i c1 (-1) ;;
  imul2 dpa i c2 (-1).

(** [dpa[i, 0] /= LastNorm; dpa[i, 1] /= LastNorm; dpa[i, 2] /= LastNorm]. *)
Definition divide_row (dpa : list (vec3 R)) (i : Z) (LastNorm : R)
    : outcome (list (vec3 R)) :=
  dpa <- idiv2 dpa i c0 LastNorm ;;
  dpa <- idiv2 dpa i c1 LastNorm ;;
  idiv2 dpa i c2 LastNorm.

(** [dpa[i, 0] ** 2 + dpa[i, 1] ** 2 + dpa[i, 2] ** 2]. *)
Definition squares_at (dpa : list (vec3 R)) (i : Z) : outcome R :=
  x <- get2 dpa i c0 ;;
  y <- get2 dpa i c1 ;;
  z <- get2 dpa i c2 ;;
  Ok (x ^ 2 + y ^ 2 + z ^ 2).

(** The body of the two loops; they differ in [d] only. *)
Definition walk_body (d : Z) (st : list (vec3 R) * R) (i : Z)
    : outcome (list (vec3 R) * R) :=
  let '(dpa, LastNorm) := st in
  Norm <- squares_at dpa i ;;
  x <- get2 dpa i c0 ;; x' <- get2 dpa (i - d) c0 ;;
  y <- get2 dpa i c1 ;; y' <- get2 dpa (i - d) c1 ;;
  z <- get2 dpa i c2 ;; z' <- get2 dpa (i - d) c2 ;;
  let dNorm := (x - x') ^ 2 + (y - y') ^ 2 + (z - z') ^ 2 in
  dpa <- (if Rgtb dNorm Norm then negate_row dpa i else Ok dpa) ;;
  dpa <- (if Rneqb LastNorm 0 && Rneqb LastNorm 1
          then divide_row dpa (i - d) LastNorm else Ok dpa) ;;
  Ok (dpa, sqrt Norm).

Definition _LLDominantEigenvector (dpa : list (vec3 R)) (dpa_i : vec3 R)
    (i_index : Z) : outcome (list (vec3 R)) :=
  x <- get2 dpa i_index c0 ;;
  y <- get2 dpa i_index c1 ;;
  z <- get2 dpa i_index c2 ;;
  dpa <- (if Rltb (vx dpa_i * x + vy dpa_i * y + vz dpa_i * z) 0
          then negate_row dpa i_index else Ok dpa) ;;
  let d := (-1)%Z in
  Norm <- squares_at dpa i_index ;;
  let LastNorm := sqrt Norm in
  '(dpa, LastNorm) <-
     for_each (xrange_rev (i_index - 1) (-1)) (walk_body d) (dpa, LastNorm) ;;
  dpa <- (if Rneqb LastNorm 0 && Rneqb LastNorm 1
          then divide_row dpa 0 LastNorm else Ok dpa) ;;
  let d := 1%Z in
  Norm <- squares_at dpa i_index ;;
  let LastNorm := sqrt Norm in
  '(dpa, LastNorm) <-
     for_each (xrange_from (i_index + 1) (Z.of_nat (length dpa))) (walk_body d)
       (dpa, LastNorm) ;;
  dpa <- (if Rneqb LastNorm 0 && Rneqb LastNorm 1
          then divide_row dpa (-1) LastNorm else Ok dpa) ;;
  Ok dpa.

(** ** [LLDominantEigenvector] and [angular_velocity] *)

(** [eigenvecs[:, 2]] of one sample: the last column. *)
Definition column2 (V : mat3 R) : vec3 R :=
  mkV (mget V c0 c2) (mget V c1 c2) (mget V c2 c2).

Section Eigensolver.
(** [np.linalg.eigh] on one 3x3 matrix: the eigenvalues in increasing
    order and the matrix whose columns are the eigenvectors. *)
Variable eigh : mat3 R -> vec3 R * mat3 R.

Definition LLDominantEigenvector (W : WaveformModes)
    (RoughDirection : vec3 R) (RoughDirectionIndex : Z)
    : outcome (list (vec3 R)) :=
  let LL := zeros3 0 (n_times W) in
  let LL := _LLMatrix (data W) (LM W) LL in
  let eigenvecs := map (fun A => snd (eigh A)) LL in
  let dpa := map column2 eigenvecs in
  _LLDominantEigenvector dpa RoughDirection RoughDirectionIndex.
End Eigensolver.

(** The array [dpa] that [LLDominantEigenvector] hands to the walk. *)
Definition candidates (eigh : mat3 R -> vec3 R * mat3 R) (W : WaveformModes)
    : list (vec3 R) :=
  map column2 (map (fun A => snd (eigh A)) (LLMatrix W)).

Definition det3 (A : mat3 R) : R :=
  mget A c0 c0 * (mget A c1 c1 * mget A c2 c2 - mget A c1 c2 * mget A c2 c1)
  - mget A c0 c1 * (mget A c1 c0 * mget A c2 c2 - mget A c1 c2 * mget A c2 c0)
  + mget A c0 c2 * (mget A c1 c0 * mget A c2 c1 - mget A c1 c1 * mget A c2 c0).

(** The matrix [A] with column [c] replaced by [b]. *)
Definition replace_column (A : mat3 R) (c : idx3) (b : vec3 R) : mat3 R :=
  mkV (vupd c (fun _ => vx b) (vx A))
      (vupd c (fun _ => vy b) (vy A))
      (vupd c (fun _ => vz b) (vz A)).

(** Modelled from the spec: the linear solve of [np.linalg.solve] on one
    sample, "given a 3x3 matrix and 3-vector, returns the solution vector;
    fails on singular input"; the solution is written by Cramer's rule. *)
Definition solve3 (A : mat3 R) (b : vec3 R) : outcome (vec3 R) :=
  if Req_dec_T (det3 A) 0 then Raise LinAlgError
  else Ok (mkV (det3 (replace_column A c0 b) / det3 A)
               (det3 (replace_column A c1 b) / det3 A)
               (det3 (replace_column A c2 b) / det3 A)).

(** The batched solve: one system per time sample. *)
Fixpoint solve (ll : list (mat3 R)) (l : list (vec3 R)) : outcome (list (vec3 R)) :=
  match ll, l with
  | A :: ll', b :: l' => x <- solve3 A b ;; xs <- solve ll' l' ;; Ok (x :: xs)
  | _, _ => Ok []
  end.

Definition vopp (v : vec3 R) : vec3 R := mkV (- vx v) (- vy v) (- vz v).

Definition angular_velocity (W : WaveformModes) : outcome (list (vec3 R)) :=
  let l := LdtVector W in
  let ll := LLMatrix W in
  x <- solve ll l ;;
  let omega := map vopp x in
  Ok omega.

(** [A . v]. *)
Definition mat_vec (A : mat3 R) (v : vec3 R) : vec3 R :=
  mkV (mget A c0 c0 * vx v + mget A c0 c1 * vy v + mget A c0 c2 * vz v)
      (mget A c1 c0 * vx v + mget A c1 c1 * vy v + mget A c1 c2 * vz v)
      (mget A c2 c0 * vx v + mget A c2 c1 * vy v + mget A c2 c2 * vz v).

(** ** The continuity correction as the spec words it *)

Definition dot (u v : vec3 R) : R := vx u * vx v + vy u * vy v + vz u * vz v.
Definition squared_norm (v : vec3 R) : R := vx v ^ 2 + vy v ^ 2 + vz v ^ 2.
Definition squared_difference (u v : vec3 R) : R :=
  (vx u - vx v) ^ 2 + (vy u - vy v) ^ 2 + (vz u - vz v) ^ 2.
Definition norm (v : vec3 R) : R := sqrt (squared_norm v).
Definition flip (v : vec3 R) : vec3 R := mkV (vx v * -1) (vy v * -1) (vz v * -1).

Definition flip_if (b : bool) (v : vec3 R) : vec3 R := if b then flip v else v.
Definition vdiv (v : vec3 R) (x : R) : vec3 R := mkV (vx v / x) (vy v / x) (vz v / x).

(** Division by a norm, skipped when the norm is 0 or 1. *)
Definition normalize_by (LastNorm : R) (v : vec3 R) : vec3 R :=
  if Rneqb LastNorm 0 && Rneqb LastNorm 1 then vdiv v LastNorm else v.

(** Division by the vector's own norm. *)
Definition normalize (v : vec3 R) : vec3 R := normalize_by (norm v) v.

(** Step 1: the candidate at the reference index against the rough direction. *)
Definition orient (rough v : vec3 R) : vec3 R :=
  flip_if (Rltb (dot rough v) 0) v.

(** Step 2: a candidate against its corrected neighbour. *)
Definition correct (neighbour v : vec3 R) : vec3 R :=
  flip_if (Rgtb (squared_difference v neighbour) (squared_norm v)) v.

(** The samples met walking away from the reference index, each corrected
    against the corrected (not yet normalized) one before it, then
    normalized. *)
Fixpoint walk (neighbour : vec3 R) (l : list (vec3 R)) : list (vec3 R) :=
  match l with
  | [] => []
  | v :: l' => let c := correct neighbour v in normalize c :: walk c l'
  end.

Definition continuity_correction (dpa : list (vec3 R)) (rough : vec3 R) (i0 : nat)
    : list (vec3 R) :=
  let o := orient rough (nth i0 dpa vzero) in
  rev (walk o (rev (firstn i0 dpa)))
  ++ normalize o :: walk (normalize o) (skipn (S i0) dpa).

(** The state of the array and of [LastNorm] when a loop ends: [ra] are the
    samples still to visit, nearest first, [u] the sample visited last
    (corrected, not yet divided), and the other list the part of the array
    already final on the far side of [u]. *)
Fixpoint back_state (ra : list (vec3 R)) (u : vec3 R) (B : list (vec3 R))
    : list (vec3 R) * R :=
  match ra with
  | [] => (u :: B, norm u)
  | v :: ra' => back_state ra' (correct u v) (normalize u :: B)
  end.

Fixpoint fwd_state (P : list (vec3 R)) (u : vec3 R) (D : list (vec3 R))
    : list (vec3 R) * R :=
  match D with
  | [] => (P ++ [u], norm u)
  | v :: D' => fwd_state (P ++ [normalize u]) (correct u v) D'
  end.

(** A call that raises no exception: it returns, or its behaviour is undefined. *)
Definition never_raises {A} (m : outcome A) : Prop := forall e, m <> Raise e.

(** Whether a call raised [ZeroDivisionError]. *)
Definition zero_division {A} (m : outcome A) : bool :=
  match m with
  | Raise ZeroDivisionError => true
  | _ => false
  end.

(** An index that compiled code resolves to a place of an axis of length [n]. *)
Definition inside (n : nat) (i : Z) : Prop := (- Z.of_nat n <= i < Z.of_nat n)%Z.

(** A corrected sample is the candidate, possibly turned, then normalized. *)
Definition corrected_from (v r : vec3 R) : Prop :=
  exists b : bool, r = normalize (flip_if b v).

(** * The corotating frame *)

(** ** Quaternions *)

(** Modelled from the spec: the rotations of a Rotation/Frame Field are
    quaternions (type [quaternion] of the package of that name); the
    operations the module uses on them are those of Hamilton's algebra. *)
Record quaternion : Type := mkQ { qw : R; qx : R; qy : R; qz : R }.

(** [quaternion.one] and [quaternion.z]. *)
Definition quaternion_one : quaternion := mkQ 1 0 0 0.
Definition quaternion_z : quaternion := mkQ 0 0 0 1.

(** [quaternion.quaternion( *v)] for a 3-vector [v]: the pure quaternion. *)
Definition quaternion_of_vec (v : vec3 R) : quaternion := mkQ 0 (vx v) (vy v) (vz v).
(** [q.vec]. *)
Definition vec (q : quaternion) : vec3 R := mkV (qx q) (qy q) (qz q).

Definition qmul (p q : quaternion) : quaternion :=
  mkQ (qw p * qw q - qx p * qx q - qy p * qy q - qz p * qz q)
      (qw p * qx q + qx p * qw q + qy p * qz q - qz p * qy q)
      (qw p * qy q - qx p * qz q + qy p * qw q + qz p * qx q)
      (qw p * qz q + qx p * qy q - qy p * qx q + qz p * qw q).
Definition qconjugate (q : quaternion) : quaternion :=
  mkQ (qw q) (- qx q) (- qy q) (- qz q).
Definition qopp (q : quaternion) : quaternion :=
  mkQ (- qw q) (- qx q) (- qy q) (- qz q).
Definition qnorm2 (q : quaternion) : R := qw q ^ 2 + qx q ^ 2 + qy q ^ 2 + qz q ^ 2.
Definition normalized (q : quaternion) : quaternion :=
  mkQ (qw q / sqrt (qnorm2 q)) (qx q / sqrt (qnorm2 q))
      (qy q / sqrt (qnorm2 q)) (qz q / sqrt (qnorm2 q)).
Definition inverse (q : quaternion) : quaternion :=
  mkQ (qw q / qnorm2 q) (- qx q / qnorm2 q) (- qy q / qnorm2 q) (- qz q / qnorm2 q).

(** ** Array operations of the interpreted code *)

(** [l[i]] outside compiled code: the index is checked. *)
Definition item {A} (l : list A) (i : Z) : outcome A :=
  match position (length l) i with
  | Some p => match nth_error l p with
              | Some x => Ok x
              | None => Raise IndexError
              end
  | None => Raise IndexError
  end.

(** [l[a:b]] for bounds that are not negative; bounds past the end are
    clipped, and [b <= a] gives the empty array. *)
Definition slice {A} (l : list A) (a b : Z) : list A :=
  firstn (Z.to_nat b - Z.to_nat a) (skipn (Z.to_nat a) l).

(** [np.argmin]: the first position of the least element. *)
Fixpoint argmin_from (best : R) (best_i i : nat) (l : list R) : nat :=
  match l with
  | [] => best_i
  | x :: l' => if Rlt_dec x best then argmin_from x i (S i) l'
               else argmin_from best best_i (S i) l'
  end.
Definition argmin (l : list R) : nat :=
  match l with
  | [] => 0%nat
  | x :: l' => argmin_from x 0 1 l'
  end.

(** [np.mean(vs, axis=0)]. *)
Definition mean (vs : list (vec3 R)) : vec3 R :=
  let total := fold_left (fun s v => mkV (vx s + vx v) (vy s + vy v) (vz s + vz v))
                 vs (mkV 0 0 0) in
  let n := INR (length vs) in
  mkV (vx total / n) (vy total / n) (vz total / n).

(** Modelled from the spec: [W[a:b]], the series restricted to the time
    samples [[a, b)] (method of the class [WaveformModes], whose file is not
    among the sources). *)
Definition getitem (W : WaveformModes) (a b : Z) : WaveformModes :=
  mkW (slice (t W) a b) (slice (data W) a b) (slice (data_dot W) a b) (LM W).

(** ** [corotating_frame] *)

Section Frame.
(** [np.linalg.eigh], as above. *)
Variable eigh : mat3 R -> vec3 R * mat3 R.
(** [integrate_angular_velocity((t, omega), t0, t1, R0, tolerance)] of the
    package [quaternion]: the times and rotations of the integrated frame. *)
Variable integrate_angular_velocity :
  list R * list (vec3 R) -> R -> R -> quaternion -> R -> list R * list quaternion.
(** [W.max_norm_time()]: the time of the largest norm of the modes. *)
Variable max_norm_time : WaveformModes -> R.
(** [np.sqrt_of_rotor]. *)
Variable sqrt_of_rotor : quaternion -> quaternion.

(** The sample indices that bound the alignment region. *)
Definition alignment_window (W : WaveformModes) (z_alignment_region : R * R)
    : outcome (nat * nat) :=
  initial_time <- item (t W) 0 ;;
  let inspiral_time := max_norm_time W - initial_time in
  let t1 := initial_time + fst z_alignment_region * inspiral_time in
  let t2 := initial_time + snd z_alignment_region * inspiral_time in
  let i1 := argmin (map (fun x => Rabs (x - t1)) (t W)) in
  let i2 := argmin (map (fun x => Rabs (x - t2)) (t W)) in
  Ok (i1, i2).

Definition corotating_frame (W : WaveformModes) (R0 : quaternion) (tolerance : R)
    (z_alignment_region : option (R * R)) : outcome (list quaternion) :=
  omega <- angular_velocity W ;;
  t0 <- item (t W) 0 ;;
  t1 <- item (t W) (-1) ;;
  let '(t_, frame) := integrate_angular_velocity (t W, omega) t0 t1 R0 tolerance in
  correction_rotor <-
    match z_alignment_region with
    | None => Ok quaternion_one
    | Some region =>
        '(i1, i2) <- alignment_window W region ;;
        let R := slice frame (Z.of_nat i1) (Z.of_nat i2) in
        let i1m := Z.max 0 (Z.of_nat i1 - 10) in
        let i1p := (i1m + 21)%Z in
        rough <- angular_velocity (getitem W i1m i1p) ;;
        RoughDirection <- item rough 10 ;;
        Vhat <- LLDominantEigenvector eigh (getitem W (Z.of_nat i1) (Z.of_nat i2))
                  RoughDirection 0 ;;
        let Vhat_corot :=
          map (fun '(Ri, Vhati) =>
                 vec (qmul (qmul (qconjugate Ri) (quaternion_of_vec Vhati)) Ri))
              (combine R Vhat) in
        let Vhat_corot_mean := normalized (quaternion_of_vec (mean Vhat_corot)) in
        Ok (inverse (sqrt_of_rotor (qmul (qopp quaternion_z) Vhat_corot_mean)))
    end ;;
  Ok (map (fun q => qmul q correction_rotor) frame).
End Frame.

(** * Sample series *)

(** The mode table of [ell = 1]. *)
Definition lm1 : list (Z * Z) := [(1, -1); (1, 0); (1, 1)]%Z.

(** One time sample in which only the mode [(1, 1)] is excited, with
    coefficient 1 and time derivative [1j]. *)
Definition sample1 : WaveformModes :=
  mkW [0] [[C0; C0; RtoC 1]] [[C0; C0; mkC 0 1]] lm1.


(** Three candidates along the z axis, the outer two pointing the other
    way, and a rough direction along [+z]. *)
Definition dpa3 : list (vec3 R) := [mkV 0 0 (-2); mkV 0 0 1; mkV 0 0 (-3)].
Definition zhat : vec3 R := mkV 0 0 1.

(** Two candidates, the second of norm zero. *)
Definition dpa_zero : list (vec3 R) := [mkV 0 0 2; mkV 0 0 0].

Definition identity : mat3 R := mkV (mkV 1 0 0) (mkV 0 1 0) (mkV 0 0 1).

(** What an eigensolver returns for a diagonal matrix whose diagonal
    increases, such as the tensor of [sample1]: the diagonal as eigenvalues and
    the axes as eigenvectors. *)
Definition eigh_diagonal (A : mat3 R) : vec3 R * mat3 R :=
  (mkV (mget A c0 c0) (mget A c1 c1) (mget A c2 c2), identity).

(** Eleven time samples, [t = 0, 1, ..., 10], of the same modes as [sample1],
    constant in time. *)
Definition sample11 : WaveformModes :=
  mkW [0; 1; 2; 3; 4; 5; 6; 7; 8; 9; 10]
      (repeat [C0; C0; RtoC 1] 11) (repeat [C0; C0; C0] 11) lm1.

(** The frame of a series that does not rotate: the initial rotation at
    every time. *)
Definition integrate_constant (omega : list R * list (vec3 R)) (t0 t1 : R)
    (R0 : quaternion) (tolerance : R) : list R * list quaternion :=
  (fst omega, map (fun _ => R0) (fst omega)).

(** For a series of constant norm every time is a peak; this one names the
    last. *)
Definition last_time (W : WaveformModes) : R := last (t W) 0.

(** The square root of the rotor [quaternion_one] is that rotor. *)
Definition sqrt_of_one (q : quaternion) : quaternion := q.

(** The mode table of [ell = 1, 2] and one time sample over it. *)
Definition lm12 : list (Z * Z) :=
  [(1, -1); (1, 0); (1, 1); (2, -2); (2, -1); (2, 0); (2, 1); (2, 2)]%Z.
Definition sample12 : WaveformModes :=
  mkW [0]
      [[RtoC 1; mkC 0 1; RtoC 2; mkC 1 1; RtoC 1; mkC 0 (-1); RtoC 3; mkC 2 1]]
      [[C0; mkC 1 0; mkC 0 2; C0; mkC 1 1; C0; mkC 0 1; RtoC 1]]
      lm12.

(** * Definitions for the further properties *)

(** [abs(a) ** 2]. *)
Definition Cnorm2 (a : C) : R := re a * re a + im a * im a.

(** Every mode of the table lies inside its [ell] block. *)
Definition modes_in_range (lm : list (Z * Z)) : Prop :=
  forall k, (k < length lm)%nat -> (- lm_L lm k <= lm_M lm k <= lm_L lm k)%Z.

(** Consecutive vectors of a list make an angle of less than 120 degrees:
    the dot product of each with the next exceeds [-1/2]. *)
Fixpoint linked (l : list (vec3 R)) : Prop :=
  match l with
  | a :: l' => match l' with
               | b :: _ => - / 2 < dot a b /\ linked l'
               | [] => True
               end
  | [] => True
  end.

(** [c * data]: every coefficient multiplied by the complex number [c]. *)
Definition Cscale (c : C) (data : list (list C)) : list (list C) :=
  map (map (Cmul c)) data.

(** The series whose coefficients, and so their time derivatives, are those
    of [W] multiplied by the constant [c]. *)
Definition rescaled (c : C) (W : WaveformModes) : WaveformModes :=
  mkW (t W) (Cscale c (data W)) (Cscale c (data_dot W)) (LM W).

(** [s * v] and [s * A]. *)
Definition vscale (s : R) (v : vec3 R) : vec3 R :=
  mkV (s * vx v) (s * vy v) (s * vz v).
Definition mscale (s : R) (A : mat3 R) : mat3 R :=
  mkV (vscale s (vx A)) (vscale s (vy A)) (vscale s (vz A)).

(** One time sample of the [ell = 1] modes in which only [m = 0] is excited. *)
Definition sample_m0 : WaveformModes :=
  mkW [0] [[C0; RtoC 1; C0]] [[C0; C0; C0]] lm1.

(** A series with no time sample. *)
Definition sample0 : WaveformModes := mkW [] [] [] lm1.

(** Two candidates of norm 1 that point opposite ways. *)
Definition dpa_unit : list (vec3 R) := [mkV 0 0 1; mkV 0 0 (-1)].

(** * The alignment window: derived definitions and a rising series *)

(** The correction rotor as [corotating_frame] computes it from the frame
    rotations [Rs] of the window and the eigen-directions [Vhat] of the
    window: each direction is rotated by its frame rotation, the rotated
    directions are averaged, and the rotor is the inverse of the square root
    of [-z * mean]. *)
Definition window_rotor (sqrt_of_rotor : quaternion -> quaternion)
    (Rs : list quaternion) (Vhat : list (vec3 R)) : quaternion :=
  let Vhat_corot :=
    map (fun '(Ri, Vhati) =>
           vec (qmul (qmul (qconjugate Ri) (quaternion_of_vec Vhati)) Ri))
        (combine Rs Vhat) in
  let Vhat_corot_mean := normalized (quaternion_of_vec (mean Vhat_corot)) in
  inverse (sqrt_of_rotor (qmul (qopp quaternion_z) Vhat_corot_mean)).





(** An eigensolver that does not normalize: for a diagonal matrix whose
    diagonal increases it returns the diagonal as eigenvalues and the axes
    scaled by 2 as eigenvectors. *)
Definition eigh_unnormalized (A : mat3 R) : vec3 R * mat3 R :=
  (mkV (mget A c0 c0) (mget A c1 c1) (mget A c2 c2),
   mkV (mkV 2 0 0) (mkV 0 2 0) (mkV 0 0 2)).
(** * Properties of the accumulators *)

Lemma C_eq (a b : C) : re a = re b -> im a = im b -> a = b.
Proof. destruct a, b; simpl; intros -> ->; reflexivity. Qed.

(** ** Loops that update one row per iteration *)

Section RowLoops.
Context {A : Type}.

Lemma upd_nth_length (i : nat) (f : A -> A) (l : list A) :
  length (upd_nth i f l) = length l.
Proof.
  revert i; induction l as [|x l IH]; intros [|i]; simpl; auto.
Qed.

Lemma nth_upd_nth_eq (i : nat) (f : A -> A) (l : list A) (d : A) :
  (i < length l)%nat -> nth i (upd_nth i f l) d = f (nth i l d).
Proof.
  revert i; induction l as [|x l IH]; intros [|i] H; simpl in *; try lia; auto.
  apply IH; lia.
Qed.

Lemma nth_upd_nth_neq (i j : nat) (f : A -> A) (l : list A) (d : A) :
  i <> j -> nth j (upd_nth i f l) d = nth j l d.
Proof.
  revert i j; induction l as [|x l IH]; intros [|i] [|j] H; simpl; auto; try lia.
Qed.

Lemma upd_nth_twice (i : nat) (f g : A -> A) (l : list A) :
  upd_nth i g (upd_nth i f l) = upd_nth i (fun x => g (f x)) l.
Proof.
  revert i; induction l as [|x l IH]; intros [|i]; simpl; auto.
  now rewrite IH.
Qed.

Variable F : nat -> nat -> A -> A.

Lemma time_loop_length (k : nat) (ix : list nat) (l : list A) :
  length (fold_left (fun l i => upd_nth i (F k i) l) ix l) = length l.
Proof.
  revert l. induction ix as [|i ix IH]; intros l; simpl; auto.
  now rewrite IH, upd_nth_length.
Qed.

(** The inner loop over the time samples touches row [j] once, at
    [i_time = j]. *)
Lemma time_loop_nth (k n : nat) (l : list A) (j : nat) (d : A) :
  (j < length l)%nat ->
  nth j (fold_left (fun l i => upd_nth i (F k i) l) (seq 0 n) l) d
  = if (j <? n)%nat then F k j (nth j l d) else nth j l d.
Proof.
  intros Hj. induction n as [|n IH].
  - reflexivity.
  - rewrite seq_S, fold_left_app. simpl.
    destruct (Nat.eq_dec n j) as [->|Hne].
    + rewrite nth_upd_nth_eq.
      * rewrite IH, Nat.ltb_irrefl.
        assert (H : (j <? S j)%nat = true) by (apply Nat.ltb_lt; lia).
        now rewrite H.
      * now rewrite time_loop_length.
    + rewrite nth_upd_nth_neq by assumption. rewrite IH.
      destruct (j <? n)%nat eqn:E1, (j <? S n)%nat eqn:E2; auto.
      * apply Nat.ltb_lt in E1. apply Nat.ltb_ge in E2. lia.
      * apply Nat.ltb_ge in E1. apply Nat.ltb_lt in E2. lia.
Qed.

(** The two nested loops: row [j] of the result is row [j] of the input
    after the updates of every mode, in the order of the mode table. *)
Lemma mode_loop_nth (modes : list nat) (n : nat) (l : list A) (j : nat) (d : A) :
  (j < length l)%nat -> (j < n)%nat ->
  nth j (fold_left (fun l k => fold_left (fun l i => upd_nth i (F k i) l) (seq 0 n) l)
           modes l) d
  = fold_left (fun row k => F k j row) modes (nth j l d).
Proof.
  revert l. induction modes as [|k modes IH]; intros l Hl Hn; simpl; auto.
  rewrite IH; auto.
  - rewrite time_loop_nth by assumption.
    assert (H : (j <? n)%nat = true) by (apply Nat.ltb_lt; lia).
    now rewrite H.
  - now rewrite time_loop_length.
Qed.

Lemma mode_loop_nth_untouched (modes : list nat) (n : nat) (l : list A) (j : nat) (d : A) :
  (n <= j)%nat ->
  nth j (fold_left (fun l k => fold_left (fun l i => upd_nth i (F k i) l) (seq 0 n) l)
           modes l) d
  = nth j l d.
Proof.
  revert l. induction modes as [|k modes IH]; intros l Hn; simpl; auto.
  rewrite IH by assumption.
  destruct (Nat.lt_ge_cases j (length l)) as [Hl|Hl].
  - rewrite time_loop_nth by assumption.
    assert (H : (j <? n)%nat = false) by (apply Nat.ltb_ge; lia).
    now rewrite H.
  - rewrite !nth_overflow; auto. now rewrite time_loop_length.
Qed.

Lemma mode_loop_length (modes : list nat) (n : nat) (l : list A) :
  length (fold_left (fun l k => fold_left (fun l i => upd_nth i (F k i) l) (seq 0 n) l)
            modes l) = length l.
Proof.
  revert l. induction modes as [|k modes IH]; intros l; simpl; auto.
  now rewrite IH, time_loop_length.
Qed.
End RowLoops.

(** Two folds over the same list keep a relation between their states. *)
Lemma fold_left_rel {A B I : Type} (P : A -> B -> Prop)
    (f : A -> I -> A) (g : B -> I -> B) (l : list I) :
  (forall a b i, P a b -> P (f a i) (g b i)) ->
  forall a b, P a b -> P (fold_left f l a) (fold_left g l b).
Proof.
  intros Hstep. induction l as [|i l IH]; intros a b H; simpl; auto.
Qed.

Lemma fold_left_inv {A I : Type} (P : A -> Prop) (f : A -> I -> A) (l : list I) :
  (forall a i, P a -> P (f a i)) ->
  forall a, P a -> P (fold_left f l a).
Proof.
  intros Hstep. induction l as [|i l IH]; intros a H; simpl; auto.
Qed.

Lemma fold_left_ext {A I : Type} (f g : A -> I -> A) (l : list I) :
  (forall a i, f a i = g a i) -> forall a, fold_left f l a = fold_left g l a.
Proof.
  intros H. induction l as [|i l IH]; intros a; simpl; auto.
  now rewrite H, IH.
Qed.

Ltac body_as_row_update :=
  intros; cbv zeta;
  unfold iadd2, iadd3, Ciadd2, Ciadd3;
  rewrite ?upd_nth_twice; reflexivity.

Lemma _LdtVector_rows data datadot lm Ldt :
  _LdtVector data datadot lm Ldt
  = fold_left (fun l k =>
      fold_left (fun l i => upd_nth i (Ldt_step data datadot lm k i) l)
        (seq 0 (length data)) l) (seq 0 (length lm)) Ldt.
Proof.
  unfold _LdtVector, xrange. apply fold_left_ext. intros a k.
  apply fold_left_ext. body_as_row_update.
Qed.

Lemma _LVector_rows data1 data2 lm Lvec :
  _LVector data1 data2 lm Lvec
  = fold_left (fun l k =>
      fold_left (fun l i => upd_nth i (Lvec_step data1 data2 lm k i) l)
        (seq 0 (length data1)) l) (seq 0 (length lm)) Lvec.
Proof.
  unfold _LVector, xrange. apply fold_left_ext. intros a k.
  apply fold_left_ext. body_as_row_update.
Qed.

Lemma _LLComparisonMatrix_rows data1 data2 lm LL :
  _LLComparisonMatrix data1 data2 lm LL
  = fold_left (fun l k =>
      fold_left (fun l i => upd_nth i (LLcmp_step data1 data2 lm k i) l)
        (seq 0 (length data1)) l) (seq 0 (length lm)) LL.
Proof.
  unfold _LLComparisonMatrix, xrange. apply fold_left_ext. intros a k.
  apply fold_left_ext. body_as_row_update.
Qed.

Lemma _LLMatrix_rows data lm LL :
  _LLMatrix data lm LL
  = fold_left (fun l k =>
      fold_left (fun l i => upd_nth i (LL_step data lm k i) l)
        (seq 0 (length data)) l) (seq 0 (length lm)) LL.
Proof.
  unfold _LLMatrix, xrange. apply fold_left_ext. intros a k.
  apply fold_left_ext. body_as_row_update.
Qed.

(** ** Symmetry of the tensor of [_LLMatrix] *)

Lemma symmetric_mzero : symmetric mzero.
Proof. intros [] []; reflexivity. Qed.

Lemma LL_step_symmetric data lm i_mode i_time A :
  symmetric A -> symmetric (LL_step data lm i_mode i_time A).
Proof.
  intros H. unfold LL_step. cbv zeta.
  generalize (LpLp data data i_time i_mode (lm_L lm i_mode) (lm_M lm i_mode)).
  generalize (LpLm data data i_time i_mode (lm_L lm i_mode) (lm_M lm i_mode)).
  generalize (LmLp data data i_time i_mode (lm_L lm i_mode) (lm_M lm i_mode)).
  generalize (LmLm data data i_time i_mode (lm_L lm i_mode) (lm_M lm i_mode)).
  generalize (LpLz data data i_time i_mode (lm_L lm i_mode) (lm_M lm i_mode)).
  generalize (LzLp data data i_time i_mode (lm_L lm i_mode) (lm_M lm i_mode)).
  generalize (LmLz data data i_time i_mode (lm_L lm i_mode) (lm_M lm i_mode)).
  generalize (LzLm data data i_time i_mode (lm_L lm i_mode) (lm_M lm i_mode)).
  intros zm mz zp pz mm mp pm pp.
  pose proof (H c0 c1) as H01. pose proof (H c0 c2) as H02.
  pose proof (H c1 c2) as H12.
  intros [] []; unfold mget in *; simpl in *; lra.
Qed.

Lemma zeros3_length {A} (z : A) n : length (zeros3 z n) = n.
Proof. apply repeat_length. Qed.

Lemma zeros2_length {A} (z : A) n : length (zeros2 z n) = n.
Proof. apply repeat_length. Qed.

Lemma nth_zeros3 {A} (z : A) n j : nth j (zeros3 z n) (vconst (vconst z)) = vconst (vconst z).
Proof.
  unfold zeros3. destruct (Nat.lt_ge_cases j n).
  - now apply nth_repeat_lt.
  - apply nth_overflow. now rewrite repeat_length.
Qed.

Lemma nth_zeros2 {A} (z : A) n j : nth j (zeros2 z n) (vconst z) = vconst z.
Proof.
  unfold zeros2. destruct (Nat.lt_ge_cases j n).
  - now apply nth_repeat_lt.
  - apply nth_overflow. now rewrite repeat_length.
Qed.

Lemma LLMatrix_length W : length (LLMatrix W) = n_times W.
Proof.
  unfold LLMatrix. cbv zeta. rewrite _LLMatrix_rows, mode_loop_length.
  apply zeros3_length.
Qed.

Lemma LLMatrix_nth W i :
  (i < n_times W)%nat -> (i < length (data W))%nat ->
  nth i (LLMatrix W) mzero = LL_row (data W) (LM W) i.
Proof.
  intros Hn Hd. unfold LLMatrix. cbv zeta. rewrite _LLMatrix_rows.
  rewrite mode_loop_nth; auto.
  - unfold mzero. now rewrite nth_zeros3.
  - now rewrite zeros3_length.
Qed.

Lemma LLMatrix_nth_untouched W i :
  (length (data W) <= i)%nat -> nth i (LLMatrix W) mzero = mzero.
Proof.
  intros Hd. unfold LLMatrix. cbv zeta. rewrite _LLMatrix_rows.
  rewrite mode_loop_nth_untouched; auto. apply nth_zeros3.
Qed.

Lemma LL_row_symmetric data lm i : symmetric (LL_row data lm i).
Proof.
  unfold LL_row. apply fold_left_inv.
  - intros A k. apply LL_step_symmetric.
  - apply symmetric_mzero.
Qed.

Lemma LLMatrix_nth_symmetric W i : symmetric (nth i (LLMatrix W) mzero).
Proof.
  destruct (Nat.lt_ge_cases i (length (data W))) as [Hd|Hd].
  - destruct (Nat.lt_ge_cases i (n_times W)) as [Hn|Hn].
    + rewrite LLMatrix_nth by assumption. apply LL_row_symmetric.
    + rewrite nth_overflow by (now rewrite LLMatrix_length).
      apply symmetric_mzero.
  - rewrite LLMatrix_nth_untouched by assumption. apply symmetric_mzero.
Qed.


(** ** Rows of the other accumulators *)

Lemma LLComparisonMatrix_length W1 W2 :
  length (LLComparisonMatrix W1 W2) = n_times W1.
Proof.
  unfold LLComparisonMatrix. cbv zeta.
  rewrite _LLComparisonMatrix_rows, mode_loop_length. apply zeros3_length.
Qed.

Lemma LLComparisonMatrix_nth W1 W2 i :
  (i < n_times W1)%nat -> (i < length (data W1))%nat ->
  nth i (LLComparisonMatrix W1 W2) Cmzero
  = LLcmp_row (data W1) (data W2) (LM W1) i.
Proof.
  intros Hn Hd. unfold LLComparisonMatrix. cbv zeta.
  rewrite _LLComparisonMatrix_rows, mode_loop_nth; auto.
  - unfold Cmzero. now rewrite nth_zeros3.
  - now rewrite zeros3_length.
Qed.

Lemma LdtVector_length W : length (LdtVector W) = n_times W.
Proof.
  unfold LdtVector. cbv zeta. rewrite _LdtVector_rows, mode_loop_length.
  apply zeros2_length.
Qed.

Lemma LdtVector_nth W i :
  (i < n_times W)%nat -> (i < length (data W))%nat ->
  nth i (LdtVector W) vzero = Ldt_row (data W) (data_dot W) (LM W) i.
Proof.
  intros Hn Hd. unfold LdtVector. cbv zeta.
  rewrite _LdtVector_rows, mode_loop_nth; auto.
  - unfold vzero. now rewrite nth_zeros2.
  - now rewrite zeros2_length.
Qed.

Lemma _LVector_nth data1 data2 lm n i :
  (i < n)%nat -> (i < length data1)%nat ->
  nth i (_LVector data1 data2 lm (zeros2 C0 n)) Cvzero
  = Lvec_row data1 data2 lm i.
Proof.
  intros Hn Hd. rewrite _LVector_rows, mode_loop_nth; auto.
  - unfold Cvzero. now rewrite nth_zeros2.
  - now rewrite zeros2_length.
Qed.

(** ** The derivative vector is a real accumulation *)

Lemma fold_vec_sums (a b c : nat -> R) (l : list nat) (v : vec3 R) :
  fold_left (fun v k => mkV (vx v + a k) (vy v + b k) (vz v + c k)) l v
  = mkV (fold_left (fun s k => s + a k) l (vx v))
        (fold_left (fun s k => s + b k) l (vy v))
        (fold_left (fun s k => s + c k) l (vz v)).
Proof.
  revert v. induction l as [|k l IH]; intros v; simpl.
  - now destruct v.
  - now rewrite IH.
Qed.

Lemma Ldt_row_sums data datadot lm i :
  Ldt_row data datadot lm i
  = mkV (Rsum (fun k => 0.5 * (im (Lp data datadot i k (lm_L lm k) (lm_M lm k))
                               + im (Lm data datadot i k (lm_L lm k) (lm_M lm k))))
              (length lm))
        (Rsum (fun k => - 0.5 * (re (Lp data datadot i k (lm_L lm k) (lm_M lm k))
                                 - re (Lm data datadot i k (lm_L lm k) (lm_M lm k))))
              (length lm))
        (Rsum (fun k => im (Lz data datadot i k (lm_M lm k))) (length lm)).
Proof.
  unfold Ldt_row, Rsum, Ldt_step. cbv zeta.
  now rewrite fold_vec_sums.
Qed.

Lemma Ldt_row_imaginary data datadot lm i (c : idx3) :
  vget (Ldt_row data datadot lm i) c = im (vget (Lvec_row data datadot lm i) c).
Proof.
  revert c. unfold Ldt_row, Lvec_row.
  apply (fold_left_rel (fun (v : vec3 R) (w : vec3 C) =>
                          forall c, vget v c = im (vget w c))).
  - intros v w k H. unfold Ldt_step, Lvec_step. cbv zeta.
    pose proof (H c0) as H0. pose proof (H c1) as H1. pose proof (H c2) as H2.
    intros []; simpl in *; lra.
  - intros []; simpl; reflexivity.
Qed.

(** ** The guards of the ladder terms *)



(** * The comparison tensor of a series with itself *)

(** ** Sums over the modes *)

Lemma Rsum_S_last f n : Rsum f (S n) = Rsum f n + f n.
Proof. unfold Rsum. now rewrite seq_S, fold_left_app. Qed.

Lemma Rsum_ext f g n :
  (forall k, (k < n)%nat -> f k = g k) -> Rsum f n = Rsum g n.
Proof.
  induction n as [|n IH]; intros H; [reflexivity|].
  rewrite !Rsum_S_last, IH, H; auto.
Qed.

Lemma Rsum_S_first f n : Rsum f (S n) = f 0%nat + Rsum (fun j => f (S j)) n.
Proof.
  induction n as [|n IH].
  - unfold Rsum. simpl. lra.
  - rewrite Rsum_S_last, IH, Rsum_S_last. lra.
Qed.

Lemma Rsum_plus f g n : Rsum (fun k => f k + g k) n = Rsum f n + Rsum g n.
Proof.
  induction n as [|n IH]; [unfold Rsum; simpl; lra|].
  rewrite !Rsum_S_last, IH. lra.
Qed.

Lemma Rsum_scal c f n : Rsum (fun k => c * f k) n = c * Rsum f n.
Proof.
  induction n as [|n IH]; [unfold Rsum; simpl; lra|].
  rewrite !Rsum_S_last, IH. lra.
Qed.

Lemma Rsum_zero f n : (forall k, (k < n)%nat -> f k = 0) -> Rsum f n = 0.
Proof.
  intros H. rewrite (Rsum_ext f (fun _ => 0) n H). clear H.
  induction n as [|n IH]; [reflexivity|]. rewrite Rsum_S_last, IH. lra.
Qed.

(** A sum whose terms are those of another sum moved one place up. *)
Lemma Rsum_shift (y z : nat -> R) (n : nat) :
  (forall j, (S j < n)%nat -> y (S j) = z j) ->
  ((0 < n)%nat -> y 0%nat = 0) ->
  ((0 < n)%nat -> z (n - 1)%nat = 0) ->
  Rsum y n = Rsum z n.
Proof.
  destruct n as [|n]; intros Hs Hy Hz; [reflexivity|].
  rewrite Rsum_S_first, Rsum_S_last, Hy by lia.
  replace (S n - 1)%nat with n in Hz by lia. rewrite Hz by lia.
  rewrite (Rsum_ext (fun j => y (S j)) z n); [lra|].
  intros k Hk. apply Hs. lia.
Qed.

(** The same, two places up. *)
Lemma Rsum_shift2 (y z : nat -> R) (n : nat) :
  (forall j, (S (S j) < n)%nat -> y (S (S j)) = z j) ->
  (forall k, (k < 2)%nat -> (k < n)%nat -> y k = 0) ->
  (forall j, (j < n)%nat -> (n <= j + 2)%nat -> z j = 0) ->
  Rsum y n = Rsum z n.
Proof.
  intros Hs Hy Hz.
  set (w := fun j => if (S j <? n)%nat then y (S j) else 0).
  transitivity (Rsum w n).
  - apply Rsum_shift.
    + intros j Hj. unfold w.
      destruct (Nat.ltb_spec (S j) n); [reflexivity | lia].
    + intros Hn. apply Hy; lia.
    + intros Hn. unfold w.
      destruct (Nat.ltb_spec (S (n - 1)) n); [lia | reflexivity].
  - apply Rsum_shift.
    + intros j Hj. unfold w.
      destruct (Nat.ltb_spec (S (S j)) n) as [H|H].
      * now apply Hs.
      * symmetry. apply Hz; lia.
    + intros Hn. unfold w.
      destruct (Nat.ltb_spec 1 n); [apply Hy; lia | reflexivity].
    + intros Hn. apply Hz; lia.
Qed.

(** A lowering term is the conjugate of the raising term one mode below:
    their sums over the table are conjugate. *)
Lemma conjugate_sums (x y : nat -> C) (n : nat) :
  (forall j, (S j < n)%nat -> y (S j) = conjugate (x j)) ->
  ((0 < n)%nat -> y 0%nat = C0) ->
  ((0 < n)%nat -> x (n - 1)%nat = C0) ->
  Rsum (fun k => re (y k)) n = Rsum (fun k => re (x k)) n
  /\ Rsum (fun k => im (y k)) n = - Rsum (fun k => im (x k)) n.
Proof.
  intros Hs Hy Hx. split.
  - apply Rsum_shift.
    + intros j Hj. now rewrite Hs.
    + intros Hn. now rewrite Hy.
    + intros Hn. now rewrite Hx.
  - replace (- Rsum (fun k => im (x k)) n)
      with (Rsum (fun k => -1 * im (x k)) n) by (rewrite Rsum_scal; lra).
    apply Rsum_shift.
    + intros j Hj. rewrite Hs by assumption. simpl. lra.
    + intros Hn. now rewrite Hy.
    + intros Hn. rewrite Hx by assumption. simpl. lra.
Qed.

Lemma conjugate_sums2 (x y : nat -> C) (n : nat) :
  (forall j, (S (S j) < n)%nat -> y (S (S j)) = conjugate (x j)) ->
  (forall k, (k < 2)%nat -> (k < n)%nat -> y k = C0) ->
  (forall j, (j < n)%nat -> (n <= j + 2)%nat -> x j = C0) ->
  Rsum (fun k => im (y k)) n = - Rsum (fun k => im (x k)) n.
Proof.
  intros Hs Hy Hx.
  replace (- Rsum (fun k => im (x k)) n)
    with (Rsum (fun k => -1 * im (x k)) n) by (rewrite Rsum_scal; lra).
  apply Rsum_shift2.
  - intros j Hj. rewrite Hs by assumption. simpl. lra.
  - intros k H2 Hn. now rewrite Hy.
  - intros j Hj Hn. rewrite Hx by assumption. simpl. lra.
Qed.

(** ** Neighbours in a complete mode table *)

Lemma lm_entry lm k : nth k lm (0, 0)%Z = (lm_L lm k, lm_M lm k).
Proof. unfold lm_L, lm_M. now destruct (nth k lm (0, 0)%Z). Qed.

Lemma cb_range lm k :
  complete_blocks lm -> (k < length lm)%nat ->
  (- lm_L lm k <= lm_M lm k <= lm_L lm k)%Z.
Proof. intros CB Hk. apply (CB k _ _ Hk (lm_entry lm k)). Qed.

Lemma cb_up lm k :
  complete_blocks lm -> (k < length lm)%nat ->
  (lm_M lm k + 1 <= lm_L lm k)%Z ->
  (S k < length lm)%nat
  /\ lm_L lm (S k) = lm_L lm k /\ lm_M lm (S k) = (lm_M lm k + 1)%Z.
Proof.
  intros CB Hk Hg.
  destruct (CB k _ _ Hk (lm_entry lm k)) as [_ [Hup _]].
  destruct (Hup Hg) as [H1 H2]. split; [assumption|].
  unfold lm_L at 1, lm_M at 1. now rewrite H2.
Qed.

Lemma cb_down lm k :
  complete_blocks lm -> (k < length lm)%nat ->
  (lm_M lm k - 1 >= - lm_L lm k)%Z ->
  (1 <= k)%nat
  /\ lm_L lm (k - 1) = lm_L lm k /\ lm_M lm (k - 1) = (lm_M lm k - 1)%Z.
Proof.
  intros CB Hk Hg.
  destruct (CB k _ _ Hk (lm_entry lm k)) as [_ [_ Hdown]].
  destruct (Hdown Hg) as [H1 H2]. split; [assumption|].
  unfold lm_L at 1, lm_M at 1. now rewrite H2.
Qed.

Lemma cb_up2 lm k :
  complete_blocks lm -> (k < length lm)%nat ->
  (lm_M lm k + 2 <= lm_L lm k)%Z ->
  (S (S k) < length lm)%nat
  /\ lm_L lm (S (S k)) = lm_L lm k /\ lm_M lm (S (S k)) = (lm_M lm k + 2)%Z.
Proof.
  intros CB Hk Hg.
  destruct (cb_up lm k CB Hk ltac:(lia)) as [H1 [H2 H3]].
  destruct (cb_up lm (S k) CB H1 ltac:(lia)) as [H4 [H5 H6]].
  split; [assumption|]. split; [congruence | lia].
Qed.

Lemma cb_down2 lm k :
  complete_blocks lm -> (k < length lm)%nat ->
  (lm_M lm k - 2 >= - lm_L lm k)%Z ->
  (2 <= k)%nat
  /\ lm_L lm (k - 2) = lm_L lm k /\ lm_M lm (k - 2) = (lm_M lm k - 2)%Z.
Proof.
  intros CB Hk Hg.
  destruct (cb_down lm k CB Hk ltac:(lia)) as [H1 [H2 H3]].
  destruct (cb_down lm (k - 1) CB ltac:(lia) ltac:(lia)) as [H4 [H5 H6]].
  replace (k - 1 - 1)%nat with (k - 2)%nat in * by lia.
  split; [lia|]. split; [congruence | lia].
Qed.

(** ** Raising and lowering terms are conjugate *)

Lemma conjugate_C0 : conjugate C0 = C0.
Proof. apply C_eq; simpl; lra. Qed.

Lemma conjugate_product (a b : C) (r s : R) :
  s = r ->
  (conjugate a * b * RtoC s)%C = conjugate (conjugate b * a * RtoC r)%C.
Proof. intros ->. apply C_eq; simpl; ring. Qed.

Section Pairing.
Variable data : list (list C).
Variable lm : list (Z * Z).
Variable i : nat.
Hypothesis CB : complete_blocks lm.

(** Scalars of a raising term and of the lowering term that undoes it. *)
Variables cu cd : Z -> Z -> R.

Let f (k : Z) : C := read2 data i k.
Let L (k : nat) : Z := lm_L lm k.
Let M (k : nat) : Z := lm_M lm k.

Let up (k : nat) : C :=
  if (M k + 1 <=? L k)%Z
  then (conjugate (f (Z.of_nat k + 1)) * f (Z.of_nat k) * RtoC (cu (L k) (M k)))%C
  else C0.
Let down (k : nat) : C :=
  if (M k - 1 >=? - L k)%Z
  then (conjugate (f (Z.of_nat k + -1)) * f (Z.of_nat k) * RtoC (cd (L k) (M k)))%C
  else C0.
Let up2 (k : nat) : C :=
  if (M k + 2 <=? L k)%Z
  then (conjugate (f (Z.of_nat k + 2)) * f (Z.of_nat k) * RtoC (cu (L k) (M k)))%C
  else C0.
Let down2 (k : nat) : C :=
  if (M k - 2 >=? - L k)%Z
  then (conjugate (f (Z.of_nat k + -2)) * f (Z.of_nat k) * RtoC (cd (L k) (M k)))%C
  else C0.

Lemma down_of_up :
  (forall l m, cd l (m + 1)%Z = cu l m) ->
  forall j, (S j < length lm)%nat -> down (S j) = conjugate (up j).
Proof.
  intros Hc j Hj. unfold up, down, L, M.
  destruct (Z.leb_spec (lm_M lm j + 1) (lm_L lm j)) as [Hg|Hg].
  - destruct (cb_up lm j CB ltac:(lia) Hg) as [_ [HL HM]].
    pose proof (cb_range lm j CB ltac:(lia)) as Hr.
    rewrite HL, HM.
    rewrite Z.geb_leb.
    destruct (Z.leb_spec (- lm_L lm j) (lm_M lm j + 1 - 1)) as [_|Hn]; [|lia].
    replace (Z.of_nat (S j) + -1)%Z with (Z.of_nat j) by lia.
    replace (Z.of_nat (S j)) with (Z.of_nat j + 1)%Z by lia.
    apply conjugate_product, Hc.
  - rewrite conjugate_C0. rewrite Z.geb_leb.
    destruct (Z.leb_spec (- lm_L lm (S j)) (lm_M lm (S j) - 1)) as [Hd|_]; [|reflexivity].
    exfalso.
    destruct (cb_down lm (S j) CB Hj ltac:(lia)) as [_ [HL HM]].
    pose proof (cb_range lm (S j) CB Hj) as Hr.
    replace (S j - 1)%nat with j in * by lia. lia.
Qed.

Lemma down_first : (0 < length lm)%nat -> down 0 = C0.
Proof.
  intros Hn. unfold down, L, M. rewrite Z.geb_leb.
  destruct (Z.leb_spec (- lm_L lm 0) (lm_M lm 0 - 1)) as [Hd|_]; [|reflexivity].
  exfalso. destruct (cb_down lm 0 CB Hn ltac:(lia)) as [H _]. lia.
Qed.

Lemma up_last : (0 < length lm)%nat -> up (length lm - 1) = C0.
Proof.
  intros Hn. unfold up, L, M.
  destruct (Z.leb_spec (lm_M lm (length lm - 1) + 1) (lm_L lm (length lm - 1)))
    as [Hg|_]; [|reflexivity].
  exfalso. destruct (cb_up lm (length lm - 1) CB ltac:(lia) Hg) as [H _]. lia.
Qed.

Lemma down2_of_up2 :
  (forall l m, cd l (m + 2)%Z = cu l m) ->
  forall j, (S (S j) < length lm)%nat -> down2 (S (S j)) = conjugate (up2 j).
Proof.
  intros Hc j Hj. unfold up2, down2, L, M.
  destruct (Z.leb_spec (lm_M lm j + 2) (lm_L lm j)) as [Hg|Hg].
  - destruct (cb_up2 lm j CB ltac:(lia) Hg) as [_ [HL HM]].
    pose proof (cb_range lm j CB ltac:(lia)) as Hr.
    rewrite HL, HM.
    rewrite Z.geb_leb.
    destruct (Z.leb_spec (- lm_L lm j) (lm_M lm j + 2 - 2)) as [_|Hn]; [|lia].
    replace (Z.of_nat (S (S j)) + -2)%Z with (Z.of_nat j) by lia.
    replace (Z.of_nat (S (S j))) with (Z.of_nat j + 2)%Z by lia.
    apply conjugate_product, Hc.
  - rewrite conjugate_C0. rewrite Z.geb_leb.
    destruct (Z.leb_spec (- lm_L lm (S (S j))) (lm_M lm (S (S j)) - 2)) as [Hd|_];
      [|reflexivity].
    exfalso.
    destruct (cb_down2 lm (S (S j)) CB Hj ltac:(lia)) as [_ [HL HM]].
    pose proof (cb_range lm (S (S j)) CB Hj) as Hr.
    replace (S (S j) - 2)%nat with j in * by lia. lia.
Qed.

Lemma down2_first k : (k < 2)%nat -> (k < length lm)%nat -> down2 k = C0.
Proof.
  intros H2 Hn. unfold down2, L, M. rewrite Z.geb_leb.
  destruct (Z.leb_spec (- lm_L lm k) (lm_M lm k - 2)) as [Hd|_]; [|reflexivity].
  exfalso. destruct (cb_down2 lm k CB Hn ltac:(lia)) as [H _]. lia.
Qed.

Lemma up2_last j :
  (j < length lm)%nat -> (length lm <= j + 2)%nat -> up2 j = C0.
Proof.
  intros Hj Hn. unfold up2, L, M.
  destruct (Z.leb_spec (lm_M lm j + 2) (lm_L lm j)) as [Hg|_]; [|reflexivity].
  exfalso. destruct (cb_up2 lm j CB Hj Hg) as [H _]. lia.
Qed.
End Pairing.

(** ** Entries of the two tensors as sums over the modes *)

Lemma LLcmp_row_entry data1 data2 lm i (a b : idx3) :
  re (mget (LLcmp_row data1 data2 lm i) a b)
  = Rsum (fun k => re (mget (LLcmp_step data1 data2 lm k i Cmzero) a b)) (length lm)
  /\ im (mget (LLcmp_row data1 data2 lm i) a b)
     = Rsum (fun k => im (mget (LLcmp_step data1 data2 lm k i Cmzero) a b)) (length lm).
Proof.
  unfold LLcmp_row, Rsum. split.
  - apply (fold_left_rel (fun (A : mat3 C) (s : R) => re (mget A a b) = s));
      [|destruct a, b; reflexivity].
    intros A s k <-. unfold LLcmp_step. cbv zeta.
    destruct a, b; simpl; lra.
  - apply (fold_left_rel (fun (A : mat3 C) (s : R) => im (mget A a b) = s));
      [|destruct a, b; reflexivity].
    intros A s k <-. unfold LLcmp_step. cbv zeta.
    destruct a, b; simpl; lra.
Qed.

Lemma LL_row_entry data lm i (a b : idx3) :
  mget (LL_row data lm i) a b
  = Rsum (fun k => mget (LL_step data lm k i mzero) a b) (length lm).
Proof.
  unfold LL_row, Rsum.
  apply (fold_left_rel (fun (A : mat3 R) (s : R) => mget A a b = s));
    [|destruct a, b; reflexivity].
  intros A s k <-. unfold LL_step. cbv zeta.
  destruct a, b; simpl; lra.
Qed.

Lemma Rsum_lin4 a1 a2 a3 a4 f1 f2 f3 f4 n :
  Rsum (fun k => a1 * f1 k + a2 * f2 k + a3 * f3 k + a4 * f4 k) n
  = a1 * Rsum f1 n + a2 * Rsum f2 n + a3 * Rsum f3 n + a4 * Rsum f4 n.
Proof.
  rewrite !Rsum_plus with (g := fun k => _ * _ k).
  now rewrite !Rsum_scal.
Qed.

Lemma ladder_reflect l m : ladder l (- (m + 1)) = ladder l m.
Proof. unfold ladder. do 3 f_equal. ring. Qed.

Lemma ladder_reflect2 l m : ladder l (- (m + 2)) = ladder l (m + 1).
Proof. unfold ladder. do 3 f_equal. ring. Qed.

Section SelfComparison.
Variable data : list (list C).
Variable lm : list (Z * Z).
Variable i : nat.
Hypothesis CB : complete_blocks lm.

Let pp k := LpLp data data i k (lm_L lm k) (lm_M lm k).
Let pm k := LpLm data data i k (lm_L lm k) (lm_M lm k).
Let mp k := LmLp data data i k (lm_L lm k) (lm_M lm k).
Let mm k := LmLm data data i k (lm_L lm k) (lm_M lm k).
Let pz k := LpLz data data i k (lm_L lm k) (lm_M lm k).
Let zp k := LzLp data data i k (lm_L lm k) (lm_M lm k).
Let mz k := LmLz data data i k (lm_L lm k) (lm_M lm k).
Let zm k := LzLm data data i k (lm_L lm k) (lm_M lm k).
Let zz k := LzLz data data i k (lm_M lm k).
Let n := length lm.

Lemma sums_mz_zp :
  Rsum (fun k => re (mz k)) n = Rsum (fun k => re (zp k)) n
  /\ Rsum (fun k => im (mz k)) n = - Rsum (fun k => im (zp k)) n.
Proof.
  apply conjugate_sums.
  - apply (down_of_up data lm i CB (fun l m => IZR (m + 1) * ladder l m)
             (fun l m => ladder l (- m) * IZR m)).
    intros l m. rewrite ladder_reflect. ring.
  - apply (down_first data lm i CB (fun l m => ladder l (- m) * IZR m)).
  - apply (up_last data lm i CB (fun l m => IZR (m + 1) * ladder l m)).
Qed.

Lemma sums_zm_pz :
  Rsum (fun k => re (zm k)) n = Rsum (fun k => re (pz k)) n
  /\ Rsum (fun k => im (zm k)) n = - Rsum (fun k => im (pz k)) n.
Proof.
  apply conjugate_sums.
  - apply (down_of_up data lm i CB (fun l m => ladder l m * IZR m)
             (fun l m => IZR (m - 1) * ladder l (- m))).
    intros l m. rewrite ladder_reflect.
    replace (m + 1 - 1)%Z with m by lia. ring.
  - apply (down_first data lm i CB (fun l m => IZR (m - 1) * ladder l (- m))).
  - apply (up_last data lm i CB (fun l m => ladder l m * IZR m)).
Qed.

Lemma sums_mm_pp :
  Rsum (fun k => im (mm k)) n = - Rsum (fun k => im (pp k)) n.
Proof.
  apply conjugate_sums2.
  - apply (down2_of_up2 data lm i CB (fun l m => ladder l (m + 1) * ladder l m)
             (fun l m => ladder l (- (m - 1)) * ladder l (- m))).
    intros l m. rewrite ladder_reflect2.
    replace (m + 2 - 1)%Z with (m + 1)%Z by lia. rewrite ladder_reflect. ring.
  - apply (down2_first data lm i CB (fun l m => ladder l (- (m - 1)) * ladder l (- m))).
  - apply (up2_last data lm i CB (fun l m => ladder l (m + 1) * ladder l m)).
Qed.

Lemma im_pm k : im (pm k) = 0.
Proof.
  unfold pm, LpLm. rewrite Z.add_0_r.
  destruct (_ >=? _)%Z; simpl; ring.
Qed.

Lemma im_mp k : im (mp k) = 0.
Proof.
  unfold mp, LmLp. rewrite Z.add_0_r.
  destruct (_ <=? _)%Z; simpl; ring.
Qed.

Lemma im_zz k : im (zz k) = 0.
Proof. unfold zz, LzLz. rewrite Z.add_0_r. simpl. ring. Qed.

(** The real part of the comparison tensor against the symmetrized tensor,
    entry by entry, and the imaginary part on the diagonal. *)
Lemma self_comparison_rows :
  let cmp := LLcmp_row data data lm i in
  let ll := LL_row data lm i in
  re (mget cmp c0 c0) = mget ll c0 c0
  /\ re (mget cmp c0 c1) = mget ll c0 c1
  /\ re (mget cmp c0 c2) = mget ll c0 c2
  /\ re (mget cmp c1 c0) = mget ll c1 c0
  /\ re (mget cmp c2 c0) = mget ll c2 c0
  /\ re (mget cmp c2 c1) = mget ll c2 c1
  /\ re (mget cmp c2 c2) = mget ll c2 c2
  /\ im (mget cmp c0 c0) = 0
  /\ im (mget cmp c2 c2) = 0.
Proof.
  cbv zeta.
  destruct sums_mz_zp as [Re_mz Im_mz]. destruct sums_zm_pz as [Re_zm Im_zm].
  pose proof sums_mm_pp as Im_mm.
  assert (T : forall k,
     let A := LLcmp_step data data lm k i Cmzero in
     let B := LL_step data lm k i mzero in
     mget B c0 c0 = re (mget A c0 c0)
     /\ mget B c0 c1 = re (mget A c0 c1)
     /\ mget B c1 c0 = re (mget A c1 c0)
     /\ mget B c2 c2 = re (mget A c2 c2)
     /\ im (mget A c2 c2) = 0
     /\ im (mget A c0 c0) = 0.25 * im (pp k) + 0.25 * im (mm k) + 0 * 0 + 0 * 0
     /\ re (mget A c0 c2)
        = 0.5 * re (pz k) + 0.5 * re (mz k) + 0 * re (zp k) + 0 * re (zm k)
     /\ re (mget A c2 c0)
        = 0 * re (pz k) + 0 * re (mz k) + 0.5 * re (zp k) + 0.5 * re (zm k)
     /\ mget B c0 c2
        = 0.25 * re (pz k) + 0.25 * re (mz k) + 0.25 * re (zp k) + 0.25 * re (zm k)
     /\ mget B c2 c0
        = 0.25 * re (pz k) + 0.25 * re (mz k) + 0.25 * re (zp k) + 0.25 * re (zm k)
     /\ re (mget A c2 c1)
        = 0 * im (pz k) + 0 * im (mz k) + 0.5 * im (zp k) + - 0.5 * im (zm k)
     /\ mget B c2 c1
        = 0.25 * im (pz k) + - 0.25 * im (mz k) + 0.25 * im (zp k)
          + - 0.25 * im (zm k)).
  { intros k. cbv zeta.
    pose proof (im_pm k) as Hpm. pose proof (im_mp k) as Hmp.
    pose proof (im_zz k) as Hzz.
    unfold LLcmp_step, LL_step. cbv zeta.
    fold (pp k) (pm k) (mp k) (mm k) (pz k) (zp k) (mz k) (zm k) (zz k).
    generalize dependent (pp k). generalize dependent (pm k).
    generalize dependent (mp k). generalize dependent (mm k).
    generalize (pz k) (zp k) (mz k) (zm k). generalize dependent (zz k).
    intros. unfold mget. simpl in *. repeat split; lra. }
  assert (T' : forall k, _) by (intros k; exact (T k)). cbv zeta in T'. clear T.
  assert (E00 : re (mget (LLcmp_row data data lm i) c0 c0)
                 = mget (LL_row data lm i) c0 c0).
  { rewrite (proj1 (LLcmp_row_entry data data lm i c0 c0)), LL_row_entry.
    apply Rsum_ext. intros k _. symmetry. apply T'. }
  assert (E01 : re (mget (LLcmp_row data data lm i) c0 c1)
                 = mget (LL_row data lm i) c0 c1).
  { rewrite (proj1 (LLcmp_row_entry data data lm i c0 c1)), LL_row_entry.
    apply Rsum_ext. intros k _. symmetry. apply T'. }
  assert (E10 : re (mget (LLcmp_row data data lm i) c1 c0)
                 = mget (LL_row data lm i) c1 c0).
  { rewrite (proj1 (LLcmp_row_entry data data lm i c1 c0)), LL_row_entry.
    apply Rsum_ext. intros k _. symmetry. apply T'. }
  assert (E22 : re (mget (LLcmp_row data data lm i) c2 c2)
                 = mget (LL_row data lm i) c2 c2).
  { rewrite (proj1 (LLcmp_row_entry data data lm i c2 c2)), LL_row_entry.
    apply Rsum_ext. intros k _. symmetry. apply T'. }
  assert (E02 : re (mget (LLcmp_row data data lm i) c0 c2)
                 = mget (LL_row data lm i) c0 c2).
  { rewrite (proj1 (LLcmp_row_entry data data lm i c0 c2)), LL_row_entry. fold n.
    rewrite (Rsum_ext (fun k => re (mget (LLcmp_step data data lm k i Cmzero) c0 c2))
               (fun k => 0.5 * re (pz k) + 0.5 * re (mz k) + 0 * re (zp k) + 0 * re (zm k)) n) by (intros k _; apply T').
    rewrite (Rsum_ext (fun k => mget (LL_step data lm k i mzero) c0 c2)
               (fun k => 0.25 * re (pz k) + 0.25 * re (mz k) + 0.25 * re (zp k) + 0.25 * re (zm k)) n) by (intros k _; apply T').
    rewrite !Rsum_lin4. lra. }
  assert (E20 : re (mget (LLcmp_row data data lm i) c2 c0)
                 = mget (LL_row data lm i) c2 c0).
  { rewrite (proj1 (LLcmp_row_entry data data lm i c2 c0)), LL_row_entry. fold n.
    rewrite (Rsum_ext (fun k => re (mget (LLcmp_step data data lm k i Cmzero) c2 c0))
               (fun k => 0 * re (pz k) + 0 * re (mz k) + 0.5 * re (zp k) + 0.5 * re (zm k)) n) by (intros k _; apply T').
    rewrite (Rsum_ext (fun k => mget (LL_step data lm k i mzero) c2 c0)
               (fun k => 0.25 * re (pz k) + 0.25 * re (mz k) + 0.25 * re (zp k) + 0.25 * re (zm k)) n) by (intros k _; apply T').
    rewrite !Rsum_lin4. lra. }
  assert (E21 : re (mget (LLcmp_row data data lm i) c2 c1)
                 = mget (LL_row data lm i) c2 c1).
  { rewrite (proj1 (LLcmp_row_entry data data lm i c2 c1)), LL_row_entry. fold n.
    rewrite (Rsum_ext (fun k => re (mget (LLcmp_step data data lm k i Cmzero) c2 c1))
               (fun k => 0 * im (pz k) + 0 * im (mz k) + 0.5 * im (zp k) + - 0.5 * im (zm k)) n) by (intros k _; apply T').
    rewrite (Rsum_ext (fun k => mget (LL_step data lm k i mzero) c2 c1)
               (fun k => 0.25 * im (pz k) + - 0.25 * im (mz k) + 0.25 * im (zp k) + - 0.25 * im (zm k)) n) by (intros k _; apply T').
    rewrite !Rsum_lin4. lra. }
  assert (I00 : im (mget (LLcmp_row data data lm i) c0 c0) = 0).
  { rewrite (proj2 (LLcmp_row_entry data data lm i c0 c0)). fold n.
    rewrite (Rsum_ext (fun k => im (mget (LLcmp_step data data lm k i Cmzero) c0 c0))
               (fun k => 0.25 * im (pp k) + 0.25 * im (mm k) + 0 * 0 + 0 * 0) n)
      by (intros k _; apply T').
    rewrite (Rsum_lin4 0.25 0.25 0 0 (fun k => im (pp k)) (fun k => im (mm k))
               (fun _ => 0) (fun _ => 0)).
    lra. }
  assert (I22 : im (mget (LLcmp_row data data lm i) c2 c2) = 0).
  { rewrite (proj2 (LLcmp_row_entry data data lm i c2 c2)).
    apply Rsum_zero. intros k _. apply T'. }
  repeat split; assumption.
Qed.
End SelfComparison.

Lemma LLComparisonMatrix_nth_untouched W1 W2 i :
  (length (data W1) <= i)%nat -> nth i (LLComparisonMatrix W1 W2) Cmzero = Cmzero.
Proof.
  intros Hd. unfold LLComparisonMatrix. cbv zeta.
  rewrite _LLComparisonMatrix_rows, mode_loop_nth_untouched; auto.
  apply nth_zeros3.
Qed.

(** The comparison tensor never writes its entry [(1, 2)]. *)
Lemma LLcmp_row_entry_12 data1 data2 lm i :
  mget (LLcmp_row data1 data2 lm i) c1 c2 = C0.
Proof.
  unfold LLcmp_row.
  apply (fold_left_inv (fun A : mat3 C => mget A c1 c2 = C0)); [|reflexivity].
  intros A k H. exact H.
Qed.

Lemma LLComparisonMatrix_self_rows W i :
  complete_blocks (LM W) ->
  let cmp := nth i (LLComparisonMatrix W W) Cmzero in
  let ll := nth i (LLMatrix W) mzero in
  re (mget cmp c0 c0) = mget ll c0 c0
  /\ re (mget cmp c0 c1) = mget ll c0 c1
  /\ re (mget cmp c0 c2) = mget ll c0 c2
  /\ re (mget cmp c1 c0) = mget ll c1 c0
  /\ re (mget cmp c2 c0) = mget ll c2 c0
  /\ re (mget cmp c2 c1) = mget ll c2 c1
  /\ re (mget cmp c2 c2) = mget ll c2 c2
  /\ im (mget cmp c0 c0) = 0
  /\ im (mget cmp c2 c2) = 0.
Proof.
  intros CB. cbv zeta.
  destruct (Nat.lt_ge_cases i (length (data W))) as [Hd|Hd].
  - destruct (Nat.lt_ge_cases i (n_times W)) as [Hn|Hn].
    + rewrite LLComparisonMatrix_nth, LLMatrix_nth by assumption.
      now apply self_comparison_rows.
    + rewrite !nth_overflow
        by (now rewrite ?LLComparisonMatrix_length, ?LLMatrix_length).
      repeat split; reflexivity.
  - rewrite LLComparisonMatrix_nth_untouched, LLMatrix_nth_untouched by assumption.
    repeat split; reflexivity.
Qed.

(** * Properties of the continuity walk *)

(** ** Positions *)

Lemma position_of_nat (n p : nat) :
  (p < n)%nat -> position n (Z.of_nat p) = Some p.
Proof.
  intros H. unfold position.
  assert (E : ((0 <=? Z.of_nat p) && (Z.of_nat p <? Z.of_nat n))%Z = true).
  { apply andb_true_iff. split; [apply Z.leb_le | apply Z.ltb_lt]; lia. }
  rewrite E. now rewrite Nat2Z.id.
Qed.

Lemma position_negative (n : nat) (i : Z) :
  (- Z.of_nat n <= i < 0)%Z -> position n i = Some (Z.to_nat (i + Z.of_nat n)).
Proof.
  intros H. unfold position.
  assert (E1 : ((0 <=? i) && (i <? Z.of_nat n))%Z = false).
  { apply andb_false_iff. left. apply Z.leb_gt. lia. }
  assert (E2 : ((- Z.of_nat n <=? i) && (i <? 0))%Z = true).
  { apply andb_true_iff. split; [apply Z.leb_le | apply Z.ltb_lt]; lia. }
  now rewrite E1, E2.
Qed.

Lemma position_last (n : nat) :
  (1 <= n)%nat -> position n (-1) = Some (n - 1)%nat.
Proof.
  intros H. rewrite position_negative by lia. f_equal. lia.
Qed.

Lemma position_inside (n : nat) (i : Z) :
  (- Z.of_nat n <= i < Z.of_nat n)%Z -> exists p, position n i = Some p /\ (p < n)%nat.
Proof.
  intros H. destruct (Z.neg_nonneg_cases i) as [Hi|Hi].
  - exists (Z.to_nat (i + Z.of_nat n)). split; [apply position_negative|]; lia.
  - exists (Z.to_nat i). split; [|lia].
    rewrite <- (Z2Nat.id i) at 1 by assumption. apply position_of_nat. lia.
Qed.

Lemma position_outside (n : nat) (i : Z) :
  (i < - Z.of_nat n \/ Z.of_nat n <= i)%Z -> position n i = None.
Proof.
  intros H. unfold position.
  assert (E1 : ((0 <=? i) && (i <? Z.of_nat n))%Z = false).
  { apply andb_false_iff. destruct H; [left; apply Z.leb_gt | right; apply Z.ltb_ge]; lia. }
  assert (E2 : ((- Z.of_nat n <=? i) && (i <? 0))%Z = false).
  { apply andb_false_iff. destruct H; [left; apply Z.leb_gt | right; apply Z.ltb_ge]; lia. }
  now rewrite E1, E2.
Qed.

Lemma position_bound (n : nat) (i : Z) (p : nat) :
  position n i = Some p -> (p < n)%nat.
Proof.
  unfold position.
  destruct ((0 <=? i) && (i <? Z.of_nat n))%Z eqn:E1.
  - apply andb_true_iff in E1 as [H1 H2]. apply Z.leb_le in H1. apply Z.ltb_lt in H2.
    intros [= <-]. lia.
  - destruct ((- Z.of_nat n <=? i) && (i <? 0))%Z eqn:E2; [|discriminate].
    apply andb_true_iff in E2 as [H1 H2]. apply Z.leb_le in H1. apply Z.ltb_lt in H2.
    intros [= <-]. lia.
Qed.

(** ** Row-level reading of the element accesses *)

Lemma get2_at dpa i c p :
  position (length dpa) i = Some p ->
  get2 dpa i c = Ok (vget (nth p dpa vzero) c).
Proof.
  intros H. unfold get2. rewrite H.
  pose proof (position_bound _ _ _ H) as Hp.
  destruct (nth_error dpa p) as [v|] eqn:E.
  - now rewrite (nth_error_nth _ _ _ E).
  - apply nth_error_None in E. lia.
Qed.

Lemma squares_at_at dpa i p :
  position (length dpa) i = Some p ->
  squares_at dpa i = Ok (squared_norm (nth p dpa vzero)).
Proof.
  intros H. unfold squares_at. rewrite !(get2_at _ _ _ _ H). reflexivity.
Qed.

Lemma negate_row_at dpa i p :
  position (length dpa) i = Some p ->
  negate_row dpa i = Ok (upd_nth p flip dpa).
Proof.
  intros H. unfold negate_row, imul2. rewrite H. cbn [bind].
  rewrite upd_nth_length, H. cbn [bind]. rewrite !upd_nth_length, H.
  now rewrite !upd_nth_twice.
Qed.

Lemma divide_row_at dpa i x p :
  position (length dpa) i = Some p -> x <> 0 ->
  divide_row dpa i x = Ok (upd_nth p (fun v => vdiv v x) dpa).
Proof.
  intros H Hx. unfold divide_row, idiv2. rewrite H.
  destruct (Req_dec_T x 0) as [E|_]; [contradiction|]. cbn [bind].
  rewrite upd_nth_length, H. cbn [bind].
  rewrite !upd_nth_length, H.
  destruct (Req_dec_T x 0) as [E|_]; [contradiction|].
  now rewrite !upd_nth_twice.
Qed.

Lemma Rneqb_and_true x : Rneqb x 0 && Rneqb x 1 = true -> x <> 0.
Proof.
  unfold Rneqb. destruct (Req_dec_T x 0); simpl; [discriminate | auto].
Qed.

Lemma guarded_divide_row_at dpa i LastNorm p :
  position (length dpa) i = Some p ->
  (if Rneqb LastNorm 0 && Rneqb LastNorm 1
   then divide_row dpa i LastNorm else Ok dpa)
  = Ok (upd_nth p (normalize_by LastNorm) dpa).
Proof.
  intros H. unfold normalize_by.
  destruct (Rneqb LastNorm 0 && Rneqb LastNorm 1) eqn:E.
  - apply divide_row_at; auto. now apply Rneqb_and_true.
  - f_equal. clear H. revert p.
    induction dpa as [|v dpa IH]; intros [|p]; simpl; auto. now rewrite <- IH.
Qed.

Lemma guarded_negate_row_at dpa i (b : bool) p :
  position (length dpa) i = Some p ->
  (if b then negate_row dpa i else Ok dpa) = Ok (upd_nth p (flip_if b) dpa).
Proof.
  intros H. destruct b; simpl.
  - now apply negate_row_at.
  - f_equal. clear H. revert p.
    induction dpa as [|v dpa IH]; intros [|p]; simpl; auto. now rewrite <- IH.
Qed.

(** One iteration of either loop, read on rows. *)
Lemma walk_body_at d dpa LastNorm i p q :
  position (length dpa) i = Some p ->
  position (length dpa) (i - d) = Some q ->
  walk_body d (dpa, LastNorm) i
  = let v := nth p dpa vzero in
    let u := nth q dpa vzero in
    let b := Rgtb (squared_difference v u) (squared_norm v) in
    Ok (upd_nth q (normalize_by LastNorm) (upd_nth p (flip_if b) dpa),
        sqrt (squared_norm v)).
Proof.
  intros Hp Hq. unfold walk_body.
  rewrite (squares_at_at _ _ _ Hp). cbn [bind].
  rewrite !(get2_at _ _ _ _ Hp), !(get2_at _ _ _ _ Hq). cbn [bind].
  rewrite (guarded_negate_row_at _ _ _ _ Hp). cbn [bind].
  rewrite guarded_divide_row_at with (p := q) by (now rewrite upd_nth_length).
  reflexivity.
Qed.

(** ** Index ranges *)

Lemma xrange_rev_nil start stop : (start <= stop)%Z -> xrange_rev start stop = [].
Proof.
  intros H. unfold xrange_rev.
  replace (Z.to_nat (start - stop)) with 0%nat by lia. reflexivity.
Qed.

Lemma xrange_rev_cons start stop :
  (stop < start)%Z -> xrange_rev start stop = start :: xrange_rev (start - 1) stop.
Proof.
  intros H. unfold xrange_rev.
  replace (Z.to_nat (start - stop)) with (S (Z.to_nat (start - 1 - stop))) by lia.
  simpl. f_equal; [lia|].
  rewrite <- seq_shift, map_map. apply map_ext. intros j. lia.
Qed.

Lemma xrange_from_nil start stop : (stop <= start)%Z -> xrange_from start stop = [].
Proof.
  intros H. unfold xrange_from.
  replace (Z.to_nat (stop - start)) with 0%nat by lia. reflexivity.
Qed.

Lemma xrange_from_cons start stop :
  (start < stop)%Z -> xrange_from start stop = start :: xrange_from (start + 1) stop.
Proof.
  intros H. unfold xrange_from.
  replace (Z.to_nat (stop - start)) with (S (Z.to_nat (stop - (start + 1)))) by lia.
  simpl. f_equal; [lia|].
  rewrite <- seq_shift, map_map. apply map_ext. intros j. lia.
Qed.

(** ** Norms *)

Lemma squared_norm_nonneg v : 0 <= squared_norm v.
Proof. unfold squared_norm. nra. Qed.

Lemma squared_norm_flip_if b v : squared_norm (flip_if b v) = squared_norm v.
Proof. destruct b; unfold squared_norm; simpl; lra. Qed.

Lemma norm_flip_if b v : norm (flip_if b v) = norm v.
Proof. unfold norm. now rewrite squared_norm_flip_if. Qed.

Lemma norm_correct u v : norm (correct u v) = norm v.
Proof. apply norm_flip_if. Qed.

Lemma norm_sqr v : norm v * norm v = squared_norm v.
Proof. apply sqrt_sqrt, squared_norm_nonneg. Qed.

Lemma norm_vdiv v : norm v <> 0 -> norm (vdiv v (norm v)) = 1.
Proof.
  intros H. unfold norm at 1.
  replace (squared_norm (vdiv v (norm v))) with 1; [apply sqrt_1|].
  unfold squared_norm, vdiv. simpl.
  pose proof (norm_sqr v) as E. unfold squared_norm in E.
  field_simplify_eq; [|assumption]. lra.
Qed.

Lemma Rneqb_refl x : Rneqb x x = false.
Proof. unfold Rneqb. destruct (Req_dec_T x x); congruence. Qed.

(** After [normalize] the norm is 1, or 0 for the zero vector. *)
Lemma norm_normalize v : norm (normalize v) = 1 \/ norm (normalize v) = 0.
Proof.
  unfold normalize, normalize_by.
  destruct (Rneqb (norm v) 0 && Rneqb (norm v) 1) eqn:E.
  - left. apply norm_vdiv. now apply Rneqb_and_true.
  - unfold Rneqb in E.
    destruct (Req_dec_T (norm v) 0); [now right|].
    destruct (Req_dec_T (norm v) 1); [now left|discriminate].
Qed.

Lemma normalize_by_unit_or_zero x v : x = 1 \/ x = 0 -> normalize_by x v = v.
Proof.
  intros [-> | ->]; unfold normalize_by; rewrite Rneqb_refl; simpl; auto.
  now rewrite andb_false_r.
Qed.

Lemma normalize_idempotent v : normalize (normalize v) = normalize v.
Proof.
  unfold normalize at 1. apply normalize_by_unit_or_zero, norm_normalize.
Qed.

Lemma norm_normalize_nonzero v : norm v <> 0 -> norm (normalize v) = 1.
Proof.
  intros H. unfold normalize, normalize_by, Rneqb.
  destruct (Req_dec_T (norm v) 0); [contradiction|].
  destruct (Req_dec_T (norm v) 1); simpl; auto.
  now apply norm_vdiv.
Qed.

(** ** The two loops *)

Lemma upd_nth_middle {A} (f : A -> A) (l1 : list A) (x : A) (l2 : list A) :
  upd_nth (length l1) f (l1 ++ x :: l2) = l1 ++ f x :: l2.
Proof. induction l1 as [|y l1 IH]; simpl; auto. now rewrite IH. Qed.

Lemma upd_nth_middle_next {A} (f : A -> A) (l1 : list A) (x y : A) (l2 : list A) :
  upd_nth (S (length l1)) f (l1 ++ x :: y :: l2) = l1 ++ x :: f y :: l2.
Proof. induction l1 as [|z l1 IH]; [reflexivity|]. simpl in *. now f_equal. Qed.

Lemma nth_middle_next {A} (l1 : list A) (x y : A) (l2 : list A) (d : A) :
  nth (S (length l1)) (l1 ++ x :: y :: l2) d = y.
Proof. induction l1 as [|z l1 IH]; simpl; auto. Qed.

Lemma backward_loop (A : list (vec3 R)) :
  forall u B,
  for_each (xrange_rev (Z.of_nat (length A) - 1) (-1)) (walk_body (-1))
    (A ++ u :: B, norm u)
  = Ok (back_state (rev A) u B).
Proof.
  induction A as [|v A IH] using rev_ind; intros u B.
  - reflexivity.
  - rewrite length_app, rev_app_distr. simpl length. simpl rev. simpl app.
    rewrite xrange_rev_cons by lia.
    replace (Z.of_nat (length A + 1) - 1)%Z with (Z.of_nat (length A)) by lia.
    cbn [for_each]. rewrite <- app_assoc. simpl app.
    assert (Hlen : length (A ++ v :: u :: B) = (length A + 2 + length B)%nat).
    { rewrite length_app. simpl. lia. }
    rewrite walk_body_at with (p := length A) (q := S (length A)).
    + cbv zeta. rewrite nth_middle, nth_middle_next.
      rewrite upd_nth_middle, upd_nth_middle_next. cbn [bind].
      fold (correct u v). fold (normalize u).
      change (sqrt (squared_norm v)) with (norm v).
      rewrite <- (norm_correct u v). cbn [back_state].
      apply IH.
    + apply position_of_nat. lia.
    + replace (Z.of_nat (length A) - -1)%Z with (Z.of_nat (S (length A))) by lia.
      apply position_of_nat. lia.
Qed.

Lemma forward_loop (D : list (vec3 R)) :
  forall P u,
  for_each (xrange_from (Z.of_nat (length P) + 1)
              (Z.of_nat (length (P ++ u :: D)))) (walk_body 1)
    (P ++ u :: D, norm u)
  = Ok (fwd_state P u D).
Proof.
  induction D as [|v D IH]; intros P u.
  - rewrite xrange_from_nil; [reflexivity|]. rewrite length_app. simpl. lia.
  - assert (Hlen : length (P ++ u :: v :: D) = (length P + 2 + length D)%nat).
    { rewrite length_app. simpl. lia. }
    rewrite xrange_from_cons by lia.
    cbn [for_each].
    rewrite walk_body_at with (p := S (length P)) (q := length P).
    + cbv zeta. rewrite nth_middle, nth_middle_next.
      rewrite upd_nth_middle_next, upd_nth_middle. cbn [bind].
      fold (correct u v). fold (normalize u).
      change (sqrt (squared_norm v)) with (norm v).
      rewrite <- (norm_correct u v). cbn [fwd_state].
      specialize (IH (P ++ [normalize u]) (correct u v)).
      rewrite <- !app_assoc in IH. simpl app in IH.
      rewrite length_app in IH. simpl length in IH.
      replace (Z.of_nat (length P) + 1 + 1)%Z
        with (Z.of_nat (length P + 1) + 1)%Z by lia.
      replace (length (P ++ u :: v :: D))
        with (length (P ++ normalize u :: correct u v :: D))
        by (rewrite !length_app; reflexivity).
      exact IH.
    + replace (Z.of_nat (length P) + 1)%Z with (Z.of_nat (S (length P))) by lia.
      apply position_of_nat. lia.
    + replace (Z.of_nat (length P) + 1 - 1)%Z with (Z.of_nat (length P)) by lia.
      apply position_of_nat. lia.
Qed.

Lemma back_state_length ra : forall u B,
  length (fst (back_state ra u B)) = (length ra + 1 + length B)%nat.
Proof.
  induction ra as [|v ra IH]; intros u B; simpl; [lia|].
  rewrite IH. simpl. lia.
Qed.

Lemma back_state_finish ra : forall u B,
  upd_nth 0 (normalize_by (snd (back_state ra u B))) (fst (back_state ra u B))
  = rev (walk u ra) ++ normalize u :: B.
Proof.
  induction ra as [|v ra IH]; intros u B; [reflexivity|].
  cbn [back_state walk rev]. rewrite IH. now rewrite <- app_assoc.
Qed.

Lemma fwd_state_length D : forall P u,
  length (fst (fwd_state P u D)) = (length P + 1 + length D)%nat.
Proof.
  induction D as [|v D IH]; intros P u; simpl.
  - rewrite length_app. simpl. lia.
  - rewrite IH, length_app. simpl. lia.
Qed.

Lemma fwd_state_finish D : forall P u,
  upd_nth (length P + length D) (normalize_by (snd (fwd_state P u D)))
    (fst (fwd_state P u D))
  = P ++ normalize u :: walk u D.
Proof.
  induction D as [|v D IH]; intros P u; cbn [fwd_state walk length fst snd].
  - rewrite Nat.add_0_r. apply (upd_nth_middle (normalize_by (norm u)) P u []).
  - specialize (IH (P ++ [normalize u]) (correct u v)).
    rewrite length_app in IH. simpl length in IH.
    replace (length P + S (length D))%nat with (length P + 1 + length D)%nat by lia.
    rewrite IH. now rewrite <- app_assoc.
Qed.

(** ** The walk computes the continuity correction *)

Lemma walk_length u l : length (walk u l) = length l.
Proof. revert u. induction l as [|v l IH]; intros u; simpl; auto. Qed.

Lemma _LLDominantEigenvector_split pre v0 post rough :
  _LLDominantEigenvector (pre ++ v0 :: post) rough (Z.of_nat (length pre))
  = Ok (rev (walk (orient rough v0) (rev pre))
        ++ normalize (orient rough v0)
        :: walk (normalize (orient rough v0)) post).
Proof.
  set (o := orient rough v0).
  assert (Hpos : forall x l, position (length (pre ++ x :: l)) (Z.of_nat (length pre))
                             = Some (length pre)).
  { intros x l. apply position_of_nat. rewrite length_app. simpl. lia. }
  unfold _LLDominantEigenvector.
  rewrite !(get2_at _ _ _ _ (Hpos _ _)). cbn [bind].
  rewrite nth_middle.
  rewrite (guarded_negate_row_at _ _ _ _ (Hpos _ _)). cbn [bind].
  rewrite upd_nth_middle.
  change (flip_if (Rltb (vx rough * vget v0 c0 + vy rough * vget v0 c1
                          + vz rough * vget v0 c2) 0) v0) with o.
  rewrite (squares_at_at _ _ _ (Hpos _ _)). cbn [bind]. rewrite nth_middle.
  change (sqrt (squared_norm o)) with (norm o).
  rewrite backward_loop. cbn [bind].
  pose proof (back_state_length (rev pre) o post) as Hlen.
  pose proof (back_state_finish (rev pre) o post) as Hfin.
  destruct (back_state (rev pre) o post) as [dpa2 LN2]. cbn [fst snd] in Hlen, Hfin.
  rewrite guarded_divide_row_at with (p := 0%nat)
    by (apply (position_of_nat _ 0); lia).
  cbn [bind]. rewrite Hfin. clear Hfin Hlen dpa2 LN2.
  set (P := rev (walk o (rev pre))).
  assert (HP : length P = length pre).
  { unfold P. now rewrite length_rev, walk_length, length_rev. }
  rewrite <- HP.
  assert (Hpos' : forall x l, position (length (P ++ x :: l)) (Z.of_nat (length P))
                              = Some (length P)).
  { intros x l. apply position_of_nat. rewrite length_app. simpl. lia. }
  rewrite (squares_at_at _ _ _ (Hpos' _ _)). cbn [bind]. rewrite nth_middle.
  change (sqrt (squared_norm (normalize o))) with (norm (normalize o)).
  rewrite forward_loop. cbn [bind].
  pose proof (fwd_state_length post P (normalize o)) as Hlen.
  pose proof (fwd_state_finish post P (normalize o)) as Hfin.
  destruct (fwd_state P (normalize o) post) as [dpa4 LN4]. cbn [fst snd] in Hlen, Hfin.
  rewrite guarded_divide_row_at with (p := (length P + length post)%nat).
  - cbn [bind]. rewrite Hfin. now rewrite normalize_idempotent.
  - rewrite Hlen, position_last by lia. f_equal. lia.
Qed.

Lemma split_at {A} (l : list A) (i : nat) (d : A) :
  (i < length l)%nat ->
  l = firstn i l ++ nth i l d :: skipn (S i) l /\ length (firstn i l) = i.
Proof.
  revert i. induction l as [|x l IH]; intros [|i] H; simpl in *; try lia.
  - auto.
  - destruct (IH i) as [E1 E2]; [lia|]. split; [now rewrite <- E1 | now rewrite E2].
Qed.

Lemma _LLDominantEigenvector_refines dpa rough (i0 : nat) :
  (i0 < length dpa)%nat ->
  _LLDominantEigenvector dpa rough (Z.of_nat i0)
  = Ok (continuity_correction dpa rough i0).
Proof.
  intros H. destruct (split_at dpa i0 vzero H) as [E1 E2].
  unfold continuity_correction. cbv zeta.
  pose proof (_LLDominantEigenvector_split (firstn i0 dpa) (nth i0 dpa vzero)
                (skipn (S i0) dpa) rough) as E.
  rewrite E2, <- E1 in E. exact E.
Qed.

(** ** No exception, and in particular no division by zero *)

Lemma never_raises_bind {A B} (m : outcome A) (f : A -> outcome B) :
  never_raises m -> (forall a, never_raises (f a)) -> never_raises (bind m f).
Proof.
  intros Hm Hf e. destruct m as [a|e'|]; simpl.
  - apply Hf.
  - exfalso. now apply (Hm e').
  - discriminate.
Qed.

Lemma never_raises_Ok {A} (a : A) : never_raises (Ok a).
Proof. intros e. discriminate. Qed.

Lemma never_raises_get2 dpa i c : never_raises (get2 dpa i c).
Proof.
  intros e. unfold get2.
  destruct (position (length dpa) i); [|discriminate].
  destruct (nth_error dpa n); discriminate.
Qed.

Lemma never_raises_imul2 dpa i c x : never_raises (imul2 dpa i c x).
Proof.
  intros e. unfold imul2. destruct (position (length dpa) i); discriminate.
Qed.

(** The division itself raises exactly when the divisor is zero ... *)
Lemma idiv2_by_zero dpa i c p :
  position (length dpa) i = Some p -> idiv2 dpa i c 0 = Raise ZeroDivisionError.
Proof.
  intros H. unfold idiv2. rewrite H.
  destruct (Req_dec_T 0 0); [reflexivity | congruence].
Qed.

Lemma never_raises_idiv2 dpa i c x : x <> 0 -> never_raises (idiv2 dpa i c x).
Proof.
  intros Hx e. unfold idiv2. destruct (position (length dpa) i); [|discriminate].
  destruct (Req_dec_T x 0); [contradiction | discriminate].
Qed.

Lemma never_raises_negate_row dpa i : never_raises (negate_row dpa i).
Proof.
  unfold negate_row.
  repeat (apply never_raises_bind; [|intros ?]); apply never_raises_imul2.
Qed.

Lemma never_raises_divide_row dpa i x : x <> 0 -> never_raises (divide_row dpa i x).
Proof.
  intros Hx. unfold divide_row.
  repeat (apply never_raises_bind; [|intros ?]); now apply never_raises_idiv2.
Qed.

(** ... and the guard lets no zero divisor through. *)
Lemma never_raises_guarded_divide dpa i LastNorm :
  never_raises (if Rneqb LastNorm 0 && Rneqb LastNorm 1
                then divide_row dpa i LastNorm else Ok dpa).
Proof.
  destruct (Rneqb LastNorm 0 && Rneqb LastNorm 1) eqn:E.
  - apply never_raises_divide_row. now apply Rneqb_and_true.
  - apply never_raises_Ok.
Qed.

Lemma never_raises_squares_at dpa i : never_raises (squares_at dpa i).
Proof.
  unfold squares_at.
  repeat (apply never_raises_bind; [apply never_raises_get2|intros ?]).
  apply never_raises_Ok.
Qed.

Lemma never_raises_walk_body d st i : never_raises (walk_body d st i).
Proof.
  destruct st as [dpa LastNorm]. unfold walk_body.
  apply never_raises_bind; [apply never_raises_squares_at|intros Norm].
  repeat (apply never_raises_bind; [apply never_raises_get2|intros ?]).
  apply never_raises_bind.
  { destruct (Rgtb _ _); [apply never_raises_negate_row | apply never_raises_Ok]. }
  intros dpa'.
  apply never_raises_bind; [apply never_raises_guarded_divide|intros ?].
  apply never_raises_Ok.
Qed.

Lemma never_raises_for_each {S I} (body : S -> I -> outcome S) (l : list I) :
  (forall s i, never_raises (body s i)) ->
  forall s, never_raises (for_each l body s).
Proof.
  intros Hb. induction l as [|i l IH]; intros s; simpl.
  - apply never_raises_Ok.
  - apply never_raises_bind; auto.
Qed.

Lemma never_raises__LLDominantEigenvector dpa dpa_i i_index :
  never_raises (_LLDominantEigenvector dpa dpa_i i_index).
Proof.
  unfold _LLDominantEigenvector.
  repeat (apply never_raises_bind; [apply never_raises_get2|intros ?]).
  apply never_raises_bind.
  { destruct (Rltb _ _); [apply never_raises_negate_row | apply never_raises_Ok]. }
  intros dpa1.
  apply never_raises_bind; [apply never_raises_squares_at|intros Norm].
  apply never_raises_bind.
  { apply never_raises_for_each. apply never_raises_walk_body. }
  intros [dpa2 LN2].
  apply never_raises_bind; [apply never_raises_guarded_divide|intros dpa3].
  apply never_raises_bind; [apply never_raises_squares_at|intros Norm'].
  apply never_raises_bind.
  { apply never_raises_for_each. apply never_raises_walk_body. }
  intros [dpa4 LN4].
  apply never_raises_bind; [apply never_raises_guarded_divide|intros dpa5].
  apply never_raises_Ok.
Qed.

(** ** Which reference indices have a defined run *)

Lemma xrange_rev_In start stop j :
  In j (xrange_rev start stop) -> (stop < j <= start)%Z.
Proof.
  unfold xrange_rev. intros H. apply in_map_iff in H as [k [<- Hk]].
  apply in_seq in Hk. lia.
Qed.

Lemma xrange_from_In start stop j :
  In j (xrange_from start stop) -> (start <= j < stop)%Z.
Proof.
  unfold xrange_from. intros H. apply in_map_iff in H as [k [<- Hk]].
  apply in_seq in Hk. lia.
Qed.

Lemma walk_body_defined d dpa LastNorm i :
  inside (length dpa) i -> inside (length dpa) (i - d) ->
  exists dpa' LastNorm',
    walk_body d (dpa, LastNorm) i = Ok (dpa', LastNorm')
    /\ length dpa' = length dpa.
Proof.
  intros Hi Hd.
  destruct (position_inside _ _ Hi) as [p [Hp _]].
  destruct (position_inside _ _ Hd) as [q [Hq _]].
  rewrite (walk_body_at _ _ _ _ _ _ Hp Hq). cbv zeta.
  eexists _, _. split; [reflexivity|]. now rewrite !upd_nth_length.
Qed.

Lemma for_each_walk_defined d (l : list Z) :
  forall dpa LastNorm,
  (forall i, In i l -> inside (length dpa) i /\ inside (length dpa) (i - d)) ->
  exists dpa' LastNorm',
    for_each l (walk_body d) (dpa, LastNorm) = Ok (dpa', LastNorm')
    /\ length dpa' = length dpa.
Proof.
  induction l as [|i l IH]; intros dpa LastNorm H.
  - exists dpa, LastNorm. auto.
  - destruct (H i (or_introl eq_refl)) as [Hi Hd].
    destruct (walk_body_defined d dpa LastNorm i Hi Hd) as [dpa1 [LN1 [E1 L1]]].
    cbn [for_each]. rewrite E1. cbn [bind].
    destruct (IH dpa1 LN1) as [dpa2 [LN2 [E2 L2]]].
    + intros j Hj. rewrite L1. apply H. now right.
    + exists dpa2, LN2. split; [assumption | congruence].
Qed.

Lemma _LLDominantEigenvector_defined dpa dpa_i i_index :
  inside (length dpa) i_index ->
  exists r, _LLDominantEigenvector dpa dpa_i i_index = Ok r
            /\ length r = length dpa.
Proof.
  intros Hin. pose proof Hin as Hin'. unfold inside in Hin'.
  destruct (position_inside _ _ Hin) as [p [Hp Hpn]].
  unfold _LLDominantEigenvector.
  rewrite !(get2_at _ _ _ _ Hp). cbn [bind].
  rewrite (guarded_negate_row_at _ _ _ _ Hp). cbn [bind].
  set (dpa1 := upd_nth p _ dpa).
  assert (L1 : length dpa1 = length dpa) by apply upd_nth_length.
  rewrite squares_at_at with (p := p) by (now rewrite L1). cbn [bind].
  destruct (for_each_walk_defined (-1) (xrange_rev (i_index - 1) (-1)) dpa1
              (sqrt (squared_norm (nth p dpa1 vzero)))) as [dpa2 [LN2 [E2 L2]]].
  { intros j Hj. apply xrange_rev_In in Hj. rewrite L1. unfold inside. lia. }
  rewrite E2. cbn [bind].
  rewrite guarded_divide_row_at with (p := 0%nat)
    by (apply (position_of_nat _ 0); lia).
  cbn [bind].
  set (dpa3 := upd_nth 0 _ dpa2).
  assert (L3 : length dpa3 = length dpa)
    by (unfold dpa3; rewrite upd_nth_length; congruence).
  rewrite squares_at_at with (p := p) by (now rewrite L3). cbn [bind].
  destruct (for_each_walk_defined 1 (xrange_from (i_index + 1) (Z.of_nat (length dpa3)))
              dpa3 (sqrt (squared_norm (nth p dpa3 vzero)))) as [dpa4 [LN4 [E4 L4]]].
  { intros j Hj. apply xrange_from_In in Hj. unfold inside. lia. }
  rewrite E4. cbn [bind].
  rewrite guarded_divide_row_at with (p := (length dpa4 - 1)%nat)
    by (apply position_last; lia).
  cbn [bind]. eexists. split; [reflexivity|].
  rewrite upd_nth_length. congruence.
Qed.

Lemma _LLDominantEigenvector_undefined dpa dpa_i i_index :
  ~ inside (length dpa) i_index ->
  _LLDominantEigenvector dpa dpa_i i_index = Undef.
Proof.
  intros H. unfold _LLDominantEigenvector, get2.
  rewrite position_outside; [reflexivity|]. unfold inside in H. lia.
Qed.

(** ** Norms of the corrected samples *)

Lemma Forall2_nth {A B} (P : A -> B -> Prop) (l : list A) (l' : list B) :
  Forall2 P l l' ->
  forall i d d', (i < length l)%nat -> P (nth i l d) (nth i l' d').
Proof.
  induction 1 as [|x y l l' Hxy _ IH]; intros [|i] d d' Hi; simpl in *; try lia; auto.
  apply IH. lia.
Qed.

Lemma Forall2_rev_both {A B} (P : A -> B -> Prop) (l : list A) (l' : list B) :
  Forall2 P l l' -> Forall2 P (rev l) (rev l').
Proof.
  induction 1 as [|x y l l' Hxy _ IH]; simpl; [constructor|].
  apply Forall2_app; [assumption | repeat constructor; assumption].
Qed.

Lemma walk_corrected l : forall u, Forall2 corrected_from l (walk u l).
Proof.
  induction l as [|v l IH]; intros u; simpl; constructor.
  - unfold correct. now eexists.
  - apply IH.
Qed.

Lemma continuity_correction_corrected dpa rough i0 :
  (i0 < length dpa)%nat ->
  Forall2 corrected_from dpa (continuity_correction dpa rough i0).
Proof.
  intros H. destruct (split_at dpa i0 vzero H) as [E _].
  unfold continuity_correction. cbv zeta. rewrite E at 1.
  apply Forall2_app.
  - rewrite <- (rev_involutive (firstn i0 dpa)) at 1.
    apply Forall2_rev_both, walk_corrected.
  - constructor.
    + unfold orient. now eexists.
    + apply walk_corrected.
Qed.

Lemma continuity_correction_length dpa rough i0 :
  (i0 < length dpa)%nat ->
  length (continuity_correction dpa rough i0) = length dpa.
Proof.
  intros H. symmetry.
  apply (Forall2_length (continuity_correction_corrected dpa rough i0 H)).
Qed.

Lemma continuity_correction_unit dpa rough i0 i :
  (i0 < length dpa)%nat -> (i < length dpa)%nat ->
  norm (nth i dpa vzero) <> 0 ->
  norm (nth i (continuity_correction dpa rough i0) vzero) = 1.
Proof.
  intros H0 Hi Hn.
  destruct (Forall2_nth _ _ _ (continuity_correction_corrected dpa rough i0 H0)
              i vzero vzero Hi) as [b ->].
  apply norm_normalize_nonzero. now rewrite norm_flip_if.
Qed.

(** ** The linear solve *)

Lemma vec3_eq (u v : vec3 R) :
  vx u = vx v -> vy u = vy v -> vz u = vz v -> u = v.
Proof. destruct u, v; simpl; intros -> -> ->; reflexivity. Qed.

Lemma solve3_sound A b x : solve3 A b = Ok x -> mat_vec A x = b.
Proof.
  unfold solve3. destruct (Req_dec_T (det3 A) 0) as [|Hdet]; [discriminate|].
  intros [= <-].
  destruct A as [[a11 a12 a13] [a21 a22 a23] [a31 a32 a33]], b as [b1 b2 b3].
  unfold det3, mget, vget in Hdet.
  unfold mat_vec, det3, replace_column, mget, vget, vupd. cbn [vx vy vz] in *.
  apply vec3_eq; cbn [vx vy vz]; field; exact Hdet.
Qed.

Lemma solve3_total A b : det3 A <> 0 -> exists x, solve3 A b = Ok x.
Proof.
  intros H. unfold solve3. destruct (Req_dec_T (det3 A) 0); [contradiction|].
  now eexists.
Qed.

Lemma solve3_singular A b : det3 A = 0 -> solve3 A b = Raise LinAlgError.
Proof.
  intros H. unfold solve3. destruct (Req_dec_T (det3 A) 0); [reflexivity|contradiction].
Qed.

Lemma solve_sound ll : forall l xs,
  length ll = length l -> solve ll l = Ok xs ->
  length xs = length ll
  /\ forall i, (i < length ll)%nat ->
       mat_vec (nth i ll mzero) (nth i xs vzero) = nth i l vzero.
Proof.
  induction ll as [|A ll IH]; intros [|b l] xs Hlen E; simpl in *; try discriminate.
  - injection E as <-. split; [reflexivity|]. intros i Hi. lia.
  - destruct (solve3 A b) as [x| |] eqn:E3; simpl in E; try discriminate.
    destruct (solve ll l) as [xs'| |] eqn:Es; simpl in E; try discriminate.
    injection E as <-.
    destruct (IH l xs') as [L1 L2]; [lia | assumption |].
    split; [simpl; now rewrite L1|].
    intros [|i] Hi; simpl.
    + now apply solve3_sound.
    + apply L2. lia.
Qed.

Lemma solve_total ll : forall l,
  length ll = length l ->
  (forall i, (i < length ll)%nat -> det3 (nth i ll mzero) <> 0) ->
  exists xs, solve ll l = Ok xs.
Proof.
  induction ll as [|A ll IH]; intros [|b l] Hlen H; simpl in *; try discriminate.
  - now eexists.
  - destruct (solve3_total A b (H 0%nat ltac:(lia))) as [x ->].
    destruct (IH l) as [xs ->]; [lia| |].
    + intros i Hi. apply (H (S i)). lia.
    + simpl. now eexists.
Qed.

Lemma mat_vec_vopp A v : mat_vec A (vopp v) = vopp (mat_vec A v).
Proof. apply vec3_eq; simpl; ring. Qed.

Lemma vopp_involutive v : vopp (vopp v) = v.
Proof. apply vec3_eq; simpl; ring. Qed.

Lemma angular_velocity_sound W omega :
  angular_velocity W = Ok omega ->
  length omega = n_times W
  /\ forall i, (i < n_times W)%nat ->
       nth i (LdtVector W) vzero
       = vopp (mat_vec (nth i (LLMatrix W) mzero) (nth i omega vzero)).
Proof.
  unfold angular_velocity. cbv zeta.
  destruct (solve (LLMatrix W) (LdtVector W)) as [xs| |] eqn:E; simpl; try discriminate.
  intros [= <-].
  destruct (solve_sound _ _ _ ltac:(now rewrite LLMatrix_length, LdtVector_length) E)
    as [L1 L2].
  rewrite LLMatrix_length in L1, L2.
  split; [now rewrite length_map|].
  intros i Hi.
  rewrite nth_indep with (l := map vopp xs) (d' := vopp vzero)
    by (now rewrite length_map, L1).
  rewrite map_nth, mat_vec_vopp, vopp_involutive. symmetry. now apply L2.
Qed.

Lemma angular_velocity_total W :
  (forall i, (i < n_times W)%nat -> det3 (nth i (LLMatrix W) mzero) <> 0) ->
  exists omega, angular_velocity W = Ok omega.
Proof.
  intros H. unfold angular_velocity. cbv zeta.
  destruct (solve_total (LLMatrix W) (LdtVector W)) as [xs ->].
  - now rewrite LLMatrix_length, LdtVector_length.
  - now rewrite LLMatrix_length.
  - simpl. now eexists.
Qed.

(** ** The wrapper around the walk *)

Lemma LLDominantEigenvector_walk eigh W rough i :
  LLDominantEigenvector eigh W rough i
  = _LLDominantEigenvector (candidates eigh W) rough i.
Proof. reflexivity. Qed.

Lemma candidates_length eigh W : length (candidates eigh W) = n_times W.
Proof. unfold candidates. now rewrite !length_map, LLMatrix_length. Qed.

Lemma candidates_nth eigh W i :
  (i < n_times W)%nat ->
  nth i (candidates eigh W) vzero
  = column2 (snd (eigh (nth i (LLMatrix W) mzero))).
Proof.
  intros Hi. unfold candidates.
  rewrite nth_indep with (d' := column2 (snd (eigh mzero)))
    by (now rewrite !length_map, LLMatrix_length).
  rewrite (map_nth column2).
  now rewrite (map_nth (fun A => snd (eigh A))).
Qed.

(** * The guarded reads stay inside the row *)

(** In a series whose rows are as long as a complete mode table, a guard
    that holds puts the neighbour it protects inside the row, at the place
    of the mode with the shifted [m]: no read of the accumulators falls
    outside its array. *)
Lemma guarded_reads_inside (lm : list (Z * Z)) (row : list C) (k : nat) :
  complete_blocks lm -> length row = length lm -> (k < length lm)%nat ->
  ((lm_M lm k + 1 <= lm_L lm k)%Z ->
   position (length row) (Z.of_nat k + 1) = Some (S k)
   /\ lm_M lm (S k) = (lm_M lm k + 1)%Z)
  /\ ((lm_M lm k + 2 <= lm_L lm k)%Z ->
      position (length row) (Z.of_nat k + 2) = Some (S (S k))
      /\ lm_M lm (S (S k)) = (lm_M lm k + 2)%Z)
  /\ ((lm_M lm k - 1 >= - lm_L lm k)%Z ->
      position (length row) (Z.of_nat k + -1) = Some (k - 1)%nat
      /\ lm_M lm (k - 1) = (lm_M lm k - 1)%Z)
  /\ ((lm_M lm k - 2 >= - lm_L lm k)%Z ->
      position (length row) (Z.of_nat k + -2) = Some (k - 2)%nat
      /\ lm_M lm (k - 2) = (lm_M lm k - 2)%Z).
Proof.
  intros CB Hrow Hk. rewrite Hrow. repeat split.
  - destruct (cb_up lm k CB Hk H) as [H1 _].
    replace (Z.of_nat k + 1)%Z with (Z.of_nat (S k)) by lia.
    now apply position_of_nat.
  - apply (cb_up lm k CB Hk H).
  - destruct (cb_up2 lm k CB Hk H) as [H1 _].
    replace (Z.of_nat k + 2)%Z with (Z.of_nat (S (S k))) by lia.
    now apply position_of_nat.
  - apply (cb_up2 lm k CB Hk H).
  - destruct (cb_down lm k CB Hk H) as [H1 _].
    replace (Z.of_nat k + -1)%Z with (Z.of_nat (k - 1)) by lia.
    apply position_of_nat. lia.
  - apply (cb_down lm k CB Hk H).
  - destruct (cb_down2 lm k CB Hk H) as [H1 _].
    replace (Z.of_nat k + -2)%Z with (Z.of_nat (k - 2)) by lia.
    apply position_of_nat. lia.
  - apply (cb_down2 lm k CB Hk H).
Qed.

(** * Properties of the frame construction *)

Lemma argmin_from_bound l : forall best best_i i,
  (best_i < i)%nat -> (argmin_from best best_i i l < i + length l)%nat.
Proof.
  induction l as [|x l IH]; intros best best_i i H; simpl.
  - lia.
  - destruct (Rlt_dec x best).
    + specialize (IH x i (S i)). lia.
    + specialize (IH best best_i (S i)). lia.
Qed.

Lemma argmin_bound l : (0 < length l)%nat -> (argmin l < length l)%nat.
Proof.
  destruct l as [|x l]; simpl; intros H; [lia|].
  pose proof (argmin_from_bound l x 0%nat 1%nat). lia.
Qed.



Lemma item_inside {A} (l : list A) (i : Z) :
  (- Z.of_nat (length l) <= i < Z.of_nat (length l))%Z -> exists x, item l i = Ok x.
Proof.
  intros H. destruct (position_inside _ _ H) as [p [Hp Hlt]].
  unfold item. rewrite Hp.
  destruct (nth_error l p) eqn:E; [now eexists|].
  apply nth_error_None in E. lia.
Qed.

Section FrameProps.
Variable eigh : mat3 R -> vec3 R * mat3 R.
Variable integrate_angular_velocity :
  list R * list (vec3 R) -> R -> R -> quaternion -> R -> list R * list quaternion.
Variable max_norm_time : WaveformModes -> R.
Variable sqrt_of_rotor : quaternion -> quaternion.

Lemma alignment_window_bounds W region :
  (0 < n_times W)%nat ->
  exists i1 i2,
    alignment_window max_norm_time W region = Ok (i1, i2)
    /\ (i1 < n_times W)%nat /\ (i2 < n_times W)%nat.
Proof.
  intros Hn. unfold alignment_window.
  destruct (item_inside (t W) 0) as [t0 ->]; [unfold n_times in Hn; lia|].
  cbn [bind]. eexists _, _. split; [reflexivity|].
  split; (eapply Nat.lt_le_trans; [apply argmin_bound|]);
    rewrite length_map; unfold n_times in *; lia.
Qed.

End FrameProps.

Lemma item_at {A} (l : list A) (i : Z) (p : nat) (d : A) :
  position (length l) i = Some p -> item l i = Ok (nth p l d).
Proof.
  intros H. unfold item. rewrite H.
  pose proof (position_bound _ _ _ H) as Hp.
  destruct (nth_error l p) eqn:E.
  - now rewrite (nth_error_nth _ _ _ E).
  - apply nth_error_None in E. lia.
Qed.

(** * The sample series evaluated *)

Lemma ladder_1_0 : ladder 1 0 = sqrt 2.
Proof. unfold ladder. simpl. rewrite Rmax_right by lra. reflexivity. Qed.

Lemma ladder_1_m1 : ladder 1 (-1) = sqrt 2.
Proof. unfold ladder. simpl. rewrite Rmax_right by lra. reflexivity. Qed.

Lemma ladder_1_1 : ladder 1 1 = 0.
Proof. unfold ladder. simpl. rewrite Rmax_left by lra. apply sqrt_0. Qed.

Lemma ladder_1_m2 : ladder 1 (-2) = 0.
Proof. unfold ladder. simpl. rewrite Rmax_left by lra. apply sqrt_0. Qed.

Lemma sqrt2_sqr : sqrt 2 * sqrt 2 = 2.
Proof. apply sqrt_sqrt. lra. Qed.

#[local] Arguments ladder : simpl never.

(** Unfolds the three iterations over [lm1] and the reads of a row. *)
Ltac eval_modes_lm1 :=
  cbv zeta;
  change (length lm1) with 3%nat; cbn [seq fold_left];
  change (lm_L lm1 0) with 1%Z; change (lm_L lm1 1) with 1%Z;
  change (lm_L lm1 2) with 1%Z;
  change (lm_M lm1 0) with (-1)%Z; change (lm_M lm1 1) with 0%Z;
  change (lm_M lm1 2) with 1%Z;
  unfold Lp, Lm, Lz, LpLp, LpLm, LmLp, LmLm, LpLz, LzLp, LmLz, LzLm, LzLz,
    read2, row_read, position;
  simpl;
  rewrite ?ladder_1_0, ?ladder_1_m1, ?ladder_1_1, ?ladder_1_m2.

Ltac solve_entries :=
  pose proof sqrt2_sqr;
  repeat match goal with
         | |- mkV _ _ _ = mkV _ _ _ => f_equal
         | |- @eq C _ _ => apply C_eq; simpl
         end;
  nra.

Lemma LLcmp_row_sample1 :
  LLcmp_row (data sample1) (data sample1) (LM sample1) 0
  = mkV (mkV (mkC 0.5 0) (mkC 0 0.5) C0)
        (mkV (mkC 0 (-0.5)) (mkC 0.5 0) C0)
        (mkV C0 C0 (mkC 1 0)).
Proof.
  unfold LLcmp_row, LLcmp_step, sample1, data, LM. eval_modes_lm1. solve_entries.
Qed.

Lemma LL_row_sample1 :
  LL_row (data sample1) (LM sample1) 0
  = mkV (mkV 0.5 0 0) (mkV 0 0.5 0) (mkV 0 0 1).
Proof.
  unfold LL_row, LL_step, sample1, data, LM. eval_modes_lm1. solve_entries.
Qed.

Lemma Ldt_row_sample1 :
  Ldt_row (data sample1) (data_dot sample1) (LM sample1) 0 = mkV 0 0 1.
Proof.
  unfold Ldt_row, Ldt_step, sample1, data, data_dot, LM. eval_modes_lm1. solve_entries.
Qed.

Lemma sample1_shape : (0 < n_times sample1)%nat /\ (0 < length (data sample1))%nat.
Proof. unfold n_times, sample1; simpl; lia. Qed.

(** ** Deciding the comparisons of a concrete run *)

Lemma Rltb_true x y : x < y -> Rltb x y = true.
Proof. intros H. unfold Rltb. destruct (Rlt_dec x y); [reflexivity | contradiction]. Qed.

Lemma Rltb_false x y : ~ x < y -> Rltb x y = false.
Proof. intros H. unfold Rltb. destruct (Rlt_dec x y); [contradiction | reflexivity]. Qed.

Lemma Rgtb_true x y : x > y -> Rgtb x y = true.
Proof. intros H. unfold Rgtb. destruct (Rgt_dec x y); [reflexivity | contradiction]. Qed.

Lemma Rgtb_false x y : ~ x > y -> Rgtb x y = false.
Proof. intros H. unfold Rgtb. destruct (Rgt_dec x y); [contradiction | reflexivity]. Qed.

Lemma Rneqb_true x y : x <> y -> Rneqb x y = true.
Proof. intros H. unfold Rneqb. destruct (Req_dec_T x y); [contradiction | reflexivity]. Qed.

Lemma Rneqb_false x y : x = y -> Rneqb x y = false.
Proof. intros ->. apply Rneqb_refl. Qed.

Lemma norm_z (z : R) : 0 <= z -> norm (mkV 0 0 z) = z.
Proof.
  intros H. unfold norm, squared_norm. cbn [vx vy vz].
  replace (0 ^ 2 + 0 ^ 2 + z ^ 2) with (z * z) by ring.
  now apply sqrt_square.
Qed.

Lemma norm_z_neg (z : R) : z <= 0 -> norm (mkV 0 0 z) = - z.
Proof.
  intros H. unfold norm, squared_norm. cbn [vx vy vz].
  replace (0 ^ 2 + 0 ^ 2 + z ^ 2) with (- z * - z) by ring.
  apply sqrt_square. lra.
Qed.

Lemma normalize_z (z : R) : 0 < z -> normalize (mkV 0 0 z) = mkV 0 0 1.
Proof.
  intros H. unfold normalize. rewrite norm_z by lra.
  unfold normalize_by, Rneqb.
  destruct (Req_dec_T z 0); [lra|].
  destruct (Req_dec_T z 1); simpl.
  - subst. reflexivity.
  - apply vec3_eq; simpl; field; lra.
Qed.

Lemma normalize_zero : normalize (mkV 0 0 0) = mkV 0 0 0.
Proof.
  unfold normalize. rewrite norm_z by lra.
  unfold normalize_by. now rewrite Rneqb_refl.
Qed.

Lemma flip_z (z : R) : flip (mkV 0 0 z) = mkV 0 0 (- z).
Proof. apply vec3_eq; simpl; ring. Qed.

(** On [dpa3] the walk from the middle sample turns both neighbours and
    normalizes every sample. *)
Lemma continuity_correction_dpa3 :
  continuity_correction dpa3 zhat 1 = [mkV 0 0 1; mkV 0 0 1; mkV 0 0 1].
Proof.
  unfold continuity_correction, dpa3, zhat. cbv zeta. cbn [nth firstn skipn rev app walk].
  assert (Ho : orient (mkV 0 0 1) (mkV 0 0 1) = mkV 0 0 1).
  { unfold orient, dot. rewrite Rltb_false by (simpl; lra). reflexivity. }
  rewrite Ho.
  assert (Hn : normalize (mkV 0 0 1) = mkV 0 0 1) by (apply normalize_z; lra).
  rewrite Hn.
  assert (Hb : correct (mkV 0 0 1) (mkV 0 0 (-2)) = mkV 0 0 2).
  { unfold correct, squared_difference, squared_norm.
    rewrite Rgtb_true by (simpl; lra). cbn [flip_if]. rewrite flip_z. f_equal. lra. }
  assert (Hf : correct (mkV 0 0 1) (mkV 0 0 (-3)) = mkV 0 0 3).
  { unfold correct, squared_difference, squared_norm.
    rewrite Rgtb_true by (simpl; lra). cbn [flip_if]. rewrite flip_z. f_equal. lra. }
  rewrite Hb, Hf. rewrite !normalize_z by lra. reflexivity.
Qed.

(** On [dpa_zero] the sample of norm zero is left as it is. *)
Lemma continuity_correction_dpa_zero :
  continuity_correction dpa_zero zhat 0 = [mkV 0 0 1; mkV 0 0 0].
Proof.
  unfold continuity_correction, dpa_zero, zhat. cbv zeta. cbn [nth firstn skipn rev app walk].
  assert (Ho : orient (mkV 0 0 1) (mkV 0 0 2) = mkV 0 0 2).
  { unfold orient, dot. rewrite Rltb_false by (simpl; lra). reflexivity. }
  rewrite Ho. rewrite normalize_z by lra.
  assert (Hf : correct (mkV 0 0 1) (mkV 0 0 0) = mkV 0 0 0).
  { unfold correct, squared_difference, squared_norm.
    rewrite Rgtb_true by (simpl; lra). cbn [flip_if]. rewrite flip_z. f_equal. lra. }
  rewrite Hf, normalize_zero. reflexivity.
Qed.

Lemma singleton_nth {A} (l : list A) (d : A) : length l = 1%nat -> l = [nth 0 l d].
Proof. destruct l as [|x [|y l]]; simpl; intros H; try discriminate; reflexivity. Qed.

Lemma LLMatrix_sample1 : LLMatrix sample1 = [mkV (mkV 0.5 0 0) (mkV 0 0.5 0) (mkV 0 0 1)].
Proof.
  rewrite (singleton_nth (LLMatrix sample1) mzero) by (now rewrite LLMatrix_length).
  rewrite LLMatrix_nth by apply sample1_shape. now rewrite LL_row_sample1.
Qed.

Lemma LdtVector_sample1 : LdtVector sample1 = [mkV 0 0 1].
Proof.
  rewrite (singleton_nth (LdtVector sample1) vzero) by (now rewrite LdtVector_length).
  rewrite LdtVector_nth by apply sample1_shape. now rewrite Ldt_row_sample1.
Qed.

(** The walk over the single candidate [zhat], entered with the reference
    index [-1]. *)
Lemma _LLDominantEigenvector_last :
  _LLDominantEigenvector [zhat] zhat (-1) = Ok [zhat].
Proof.
  assert (Hp : position (length [zhat]) (-1) = Some 0%nat) by reflexivity.
  assert (Hn : sqrt (squared_norm zhat) = 1) by (apply (norm_z 1); lra).
  unfold _LLDominantEigenvector.
  rewrite !(get2_at _ _ _ _ Hp). cbn [bind].
  rewrite Rltb_false by (simpl; lra). cbn [bind].
  rewrite (squares_at_at _ _ _ Hp). cbn [bind nth].
  rewrite Hn. rewrite xrange_rev_nil by lia. cbn [for_each bind].
  rewrite Rneqb_refl, andb_false_r. cbn [bind].
  rewrite (squares_at_at _ _ _ Hp). cbn [bind nth]. rewrite Hn.
  rewrite xrange_from_cons by (simpl; lia).
  rewrite xrange_from_nil by (simpl; lia).
  cbn [for_each].
  rewrite (walk_body_at 1 [zhat] 1 (-1 + 1) 0 0) by reflexivity.
  cbv zeta. cbn [nth bind].
  rewrite Rgtb_false by (unfold squared_difference, squared_norm, zhat; simpl; lra).
  rewrite Hn. rewrite Rneqb_refl, andb_false_r.
  cbn [upd_nth flip_if]. rewrite normalize_by_unit_or_zero by (now left).
  reflexivity.
Qed.

Lemma norm_zhat : norm zhat = 1.
Proof. apply (norm_z 1). lra. Qed.

Lemma det3_LLMatrix_sample1 :
  forall i, (i < n_times sample1)%nat -> det3 (nth i (LLMatrix sample1) mzero) <> 0.
Proof.
  intros i Hi. assert (i = 0%nat) as -> by (unfold n_times, sample1 in Hi; simpl in Hi; lia).
  rewrite LLMatrix_sample1. unfold det3, mget. simpl. lra.
Qed.

Lemma complete_blocks_lm1 : complete_blocks lm1.
Proof.
  intros k L M Hk E. unfold lm1 in *. simpl in Hk.
  destruct k as [|[|[|k]]]; simpl in E; try lia;
    injection E as <- <-; repeat split; simpl; try lia; try reflexivity.
Qed.

(** ** A one-sample alignment window *)

Lemma LL_row_local data lm i : LL_row data lm i = LL_row [nth i data []] lm 0.
Proof. reflexivity. Qed.

Lemma sample11_row i : (i < 11)%nat -> nth i (data sample11) [] = [C0; C0; RtoC 1].
Proof. intros H. unfold sample11, data. now apply nth_repeat_lt. Qed.

Lemma det3_LLMatrix_sample11 :
  forall i, (i < n_times sample11)%nat -> det3 (nth i (LLMatrix sample11) mzero) <> 0.
Proof.
  intros i Hi.
  assert (Hi' : (i < 11)%nat) by exact Hi.
  rewrite LLMatrix_nth by (try exact Hi; unfold sample11, data; now rewrite repeat_length).
  rewrite LL_row_local, sample11_row by assumption.
  change (LL_row [[C0; C0; RtoC 1]] (LM sample11) 0) with (LL_row (data sample1) (LM sample1) 0).
  rewrite LL_row_sample1. unfold det3, mget. simpl. lra.
Qed.

Lemma argmin_from_lt x best best_i i l :
  x < best -> argmin_from best best_i i (x :: l) = argmin_from x i (S i) l.
Proof. intros H. simpl. destruct (Rlt_dec x best); [reflexivity|contradiction]. Qed.

Lemma argmin_from_ge x best best_i i l :
  ~ x < best -> argmin_from best best_i i (x :: l) = argmin_from best best_i (S i) l.
Proof. intros H. simpl. destruct (Rlt_dec x best); [contradiction|reflexivity]. Qed.

Ltac abs_lra := unfold Rabs; repeat (destruct (Rcase_abs _)); lra.

Ltac eval_argmin :=
  unfold argmin; cbn [map];
  repeat first [ rewrite argmin_from_lt by abs_lra
               | rewrite argmin_from_ge by abs_lra ];
  cbn [argmin_from].

Lemma alignment_window_sample11 :
  alignment_window last_time sample11 (0, 0.1) = Ok (0%nat, 1%nat).
Proof.
  unfold alignment_window.
  change (item (t sample11) 0) with (Ok (A := R) 0). cbn [bind fst snd].
  change (last_time sample11) with 10. unfold sample11, t.
  do 2 f_equal; eval_argmin; reflexivity.
Qed.

Lemma getitem_W11_rough :
  getitem sample11 (Z.max 0 (Z.of_nat 0 - 10)) (Z.max 0 (Z.of_nat 0 - 10) + 21) = sample11.
Proof. reflexivity. Qed.

Lemma angular_velocity_sample11 :
  exists omega, angular_velocity sample11 = Ok omega /\ length omega = 11%nat.
Proof.
  destruct (angular_velocity_total sample11 det3_LLMatrix_sample11) as [omega E].
  exists omega. split; [exact E|].
  exact (proj1 (angular_velocity_sound sample11 omega E)).
Qed.

(** The same call, followed to the frame it returns. *)

Lemma quaternion_eq (p q : quaternion) :
  qw p = qw q -> qx p = qx q -> qy p = qy q -> qz p = qz q -> p = q.
Proof. destruct p, q; simpl; intros -> -> -> ->; reflexivity. Qed.

Lemma Ldt_row_sample11 i :
  (i < 11)%nat -> Ldt_row (data sample11) (data_dot sample11) (LM sample11) i = mkV 0 0 0.
Proof.
  intros Hi.
  assert (E : Ldt_row (data sample11) (data_dot sample11) (LM sample11) i
              = Ldt_row [nth i (data sample11) []] [nth i (data_dot sample11) []] lm1 0)
    by reflexivity.
  rewrite E, sample11_row by assumption.
  unfold sample11, data_dot. rewrite nth_repeat_lt by assumption.
  unfold Ldt_row, Ldt_step. eval_modes_lm1. solve_entries.
Qed.

(** The series does not rotate: the component along [z] of its angular
    velocity is zero. *)
Lemma angular_velocity_W11_z omega i :
  angular_velocity sample11 = Ok omega -> (i < 11)%nat -> vz (nth i omega vzero) = 0.
Proof.
  intros E Hi.
  destruct (angular_velocity_sound sample11 omega E) as [_ H].
  specialize (H i Hi).
  rewrite LdtVector_nth, Ldt_row_sample11 in H
    by (try assumption; unfold sample11, data; now rewrite repeat_length).
  rewrite LLMatrix_nth in H
    by (try assumption; unfold sample11, data; now rewrite repeat_length).
  rewrite LL_row_local, sample11_row in H by assumption.
  change (LL_row [[C0; C0; RtoC 1]] (LM sample11) 0)
    with (LL_row (data sample1) (LM sample1) 0) in H.
  rewrite LL_row_sample1 in H.
  apply (f_equal vz) in H. unfold mat_vec, mget in H. simpl in H. lra.
Qed.

Lemma candidates_window_sample11 :
  candidates eigh_diagonal (getitem sample11 (Z.of_nat 0) (Z.of_nat 1)) = [zhat].
Proof.
  unfold candidates.
  rewrite (singleton_nth (LLMatrix (getitem sample11 (Z.of_nat 0) (Z.of_nat 1))) mzero)
    by (now rewrite LLMatrix_length).
  reflexivity.
Qed.

Lemma correction_rotor_sample11 :
  inverse
    (sqrt_of_one
       (qmul (qopp quaternion_z)
          (normalized
             (quaternion_of_vec
                (mean
                   [vec (qmul (qmul (qconjugate quaternion_one)
                                 (quaternion_of_vec zhat)) quaternion_one)])))))
  = quaternion_one.
Proof.
  assert (Hv : vec (qmul (qmul (qconjugate quaternion_one) (quaternion_of_vec zhat))
                      quaternion_one) = zhat)
    by (apply vec3_eq; simpl; ring).
  rewrite Hv.
  assert (Hm : mean [zhat] = zhat) by (apply vec3_eq; simpl; field).
  rewrite Hm.
  assert (Hn : normalized (quaternion_of_vec zhat) = quaternion_z).
  { unfold normalized.
    assert (Hs : sqrt (qnorm2 (quaternion_of_vec zhat)) = 1).
    { unfold qnorm2. simpl. replace (0 * (0 * 1) + 0 * (0 * 1) + 0 * (0 * 1) + 1 * (1 * 1))
        with 1 by ring. apply sqrt_1. }
    rewrite Hs. apply quaternion_eq; simpl; field. }
  rewrite Hn. unfold sqrt_of_one, inverse.
  assert (Hq : qmul (qopp quaternion_z) quaternion_z = quaternion_one)
    by (apply quaternion_eq; simpl; ring).
  rewrite Hq. apply quaternion_eq; unfold qnorm2; simpl; field.
Qed.

Lemma corotating_frame_sample11 :
  corotating_frame eigh_diagonal integrate_constant last_time sqrt_of_one
    sample11 quaternion_one 1e-12 (Some (0, 0.1))
  = Ok (repeat quaternion_one 11).
Proof.
  destruct angular_velocity_sample11 as [omega [E L]].
  unfold corotating_frame. rewrite E. cbn [bind].
  change (item (t sample11) 0) with (Ok (A := R) 0).
  change (item (t sample11) (-1)) with (Ok (A := R) 10). cbn [bind].
  unfold integrate_constant. cbn [fst].
  rewrite alignment_window_sample11. cbn [bind].
  rewrite getitem_W11_rough, E. cbn [bind].
  rewrite (item_at omega 10 10 vzero)
    by (rewrite <- (position_of_nat (length omega) 10) by lia; reflexivity).
  cbn [bind].
  rewrite LLDominantEigenvector_walk, candidates_window_sample11.
  rewrite (_LLDominantEigenvector_refines [zhat] _ 0) by (simpl; lia).
  cbn [bind]. unfold continuity_correction. cbv zeta.
  cbn [nth firstn skipn rev walk app].
  assert (Ho : orient (nth 10 omega vzero) zhat = zhat).
  { unfold orient. rewrite Rltb_false; [reflexivity|].
    unfold dot, zhat. simpl.
    rewrite (angular_velocity_W11_z omega 10 E) by lia. lra. }
  rewrite Ho.
  assert (Hz : normalize zhat = zhat) by (apply normalize_z; lra).
  rewrite Hz.
  change (slice (map (fun _ : R => quaternion_one) (t sample11)) (Z.of_nat 0) (Z.of_nat 1))
    with [quaternion_one].
  cbn [combine map].
  rewrite correction_rotor_sample11.
  f_equal. unfold sample11, t. cbn [map repeat].
  assert (H1 : qmul quaternion_one quaternion_one = quaternion_one)
    by (apply quaternion_eq; simpl; ring).
  now rewrite !H1.
Qed.

Lemma complete_blocks_lm12 : complete_blocks lm12.
Proof.
  intros k L M Hk E. unfold lm12 in *. simpl in Hk.
  do 8 (destruct k as [|k];
        [simpl in E; injection E as <- <-; repeat split; simpl; try lia;
         try reflexivity|]).
  lia.
Qed.

(** * Lemmas for the further properties *)

Lemma decimal_quarter : 0.25 = / 4.
Proof. lra. Qed.
Lemma decimal_mquarter : -0.25 = - / 4.
Proof. lra. Qed.
Lemma decimal_half : 0.5 = / 2.
Proof. lra. Qed.
Lemma decimal_mhalf : -0.5 = - / 2.
Proof. lra. Qed.

Ltac decimals :=
  rewrite ?decimal_quarter, ?decimal_mquarter, ?decimal_half, ?decimal_mhalf.

Lemma ladder_sqr l m :
  (- l - 1 <= m <= l)%Z ->
  ladder l m * ladder l m = IZR (l * (l + 1) - m * (m + 1)).
Proof.
  intros H. unfold ladder.
  rewrite sqrt_sqrt by apply Rmax_l.
  apply Rmax_right. apply IZR_le. nia.
Qed.

Lemma ladder_down_up l m :
  (- l <= m)%Z -> (m + 1 <= l)%Z ->
  ladder l (- (m + 1)) * ladder l m = IZR l * (IZR l + 1) - IZR m * (IZR m + 1).
Proof.
  intros H1 H2. rewrite ladder_reflect, ladder_sqr by lia.
  rewrite minus_IZR, !mult_IZR, !plus_IZR. reflexivity.
Qed.

Lemma ladder_up_down l m :
  (m <= l)%Z -> (m - 1 >= - l)%Z ->
  ladder l (m - 1) * ladder l (- m) = IZR l * (IZR l + 1) - IZR m * (IZR m - 1).
Proof.
  intros H1 H2.
  replace (- m)%Z with (- ((m - 1) + 1))%Z by lia.
  rewrite ladder_reflect, ladder_sqr by lia.
  rewrite minus_IZR, !mult_IZR, !plus_IZR, !minus_IZR. simpl. ring.
Qed.

Lemma complete_blocks_in_range lm : complete_blocks lm -> modes_in_range lm.
Proof. intros CB k Hk. now apply cb_range. Qed.

(** What one mode adds to the trace of the tensor. *)
Lemma LL_step_trace data lm k i :
  (- lm_L lm k <= lm_M lm k <= lm_L lm k)%Z ->
  mget (LL_step data lm k i mzero) c0 c0
  + mget (LL_step data lm k i mzero) c1 c1
  + mget (LL_step data lm k i mzero) c2 c2
  = IZR (lm_L lm k) * (IZR (lm_L lm k) + 1) * Cnorm2 (read2 data i (Z.of_nat k)).
Proof.
  intros [Hlo Hhi]. unfold LL_step, LpLm, LmLp, LzLz. cbv zeta.
  rewrite Z.add_0_r.
  generalize (LpLp data data i k (lm_L lm k) (lm_M lm k)).
  generalize (LmLm data data i k (lm_L lm k) (lm_M lm k)).
  intros mm pp.
  set (f := read2 data i (Z.of_nat k)).
  set (L := lm_L lm k) in *. set (M := lm_M lm k) in *.
  clearbody f L M.
  replace (M ^ 2)%Z with (M * M)%Z by ring. rewrite mult_IZR.
  unfold Cnorm2.
  destruct (Z.leb_spec (M + 1) L) as [Hu|Hu];
    destruct (Z.geb_spec (M - 1) (- L)) as [Hd|Hd];
    unfold mget; cbn -[ladder];
    rewrite ?ladder_down_up, ?ladder_up_down by lia; decimals.
  - field.
  - assert (E : IZR M = - IZR L) by (rewrite <- opp_IZR; f_equal; lia).
    rewrite E. field.
  - assert (E : IZR M = IZR L) by (f_equal; lia).
    rewrite E. field.
  - assert (E : IZR M = 0) by (apply (f_equal IZR (y := 0%Z)); lia).
    assert (E' : IZR L = 0) by (apply (f_equal IZR (y := 0%Z)); lia).
    rewrite E, E'. field.
Qed.

Lemma Rsum_nonneg f n : (forall k, (k < n)%nat -> 0 <= f k) -> 0 <= Rsum f n.
Proof.
  induction n as [|n IH]; intros H.
  - unfold Rsum. simpl. lra.
  - rewrite Rsum_S_last.
    assert (0 <= Rsum f n) by (apply IH; intros; apply H; lia).
    assert (0 <= f n) by (apply H; lia). lra.
Qed.

Lemma Cnorm2_nonneg a : 0 <= Cnorm2 a.
Proof. unfold Cnorm2. nra. Qed.

Lemma IZR_succ_nonneg l : 0 <= IZR l * (IZR l + 1).
Proof.
  replace (IZR l * (IZR l + 1)) with (IZR (l * (l + 1))).
  - apply IZR_le. nia.
  - rewrite mult_IZR, plus_IZR. reflexivity.
Qed.

Lemma LL_row_trace data lm i :
  modes_in_range lm ->
  mget (LL_row data lm i) c0 c0 + mget (LL_row data lm i) c1 c1
  + mget (LL_row data lm i) c2 c2
  = Rsum (fun k => IZR (lm_L lm k) * (IZR (lm_L lm k) + 1)
                   * Cnorm2 (read2 data i (Z.of_nat k))) (length lm).
Proof.
  intros H. rewrite !LL_row_entry, <- !Rsum_plus.
  apply Rsum_ext. intros k Hk. now apply LL_step_trace, H.
Qed.

Lemma conjugate_sums2_re (x y : nat -> C) (n : nat) :
  (forall j, (S (S j) < n)%nat -> y (S (S j)) = conjugate (x j)) ->
  (forall k, (k < 2)%nat -> (k < n)%nat -> y k = C0) ->
  (forall j, (j < n)%nat -> (n <= j + 2)%nat -> x j = C0) ->
  Rsum (fun k => re (y k)) n = Rsum (fun k => re (x k)) n.
Proof.
  intros Hs Hy Hx. apply Rsum_shift2.
  - intros j Hj. rewrite Hs by assumption. reflexivity.
  - intros k H2 Hn. now rewrite Hy.
  - intros j Hj Hn. now rewrite Hx.
Qed.

Section SelfSums.
Variable data : list (list C).
Variable lm : list (Z * Z).
Variable i : nat.
Hypothesis CB : complete_blocks lm.

Let p k := Lp data data i k (lm_L lm k) (lm_M lm k).
Let m k := Lm data data i k (lm_L lm k) (lm_M lm k).
Let pp k := LpLp data data i k (lm_L lm k) (lm_M lm k).
Let mm k := LmLm data data i k (lm_L lm k) (lm_M lm k).
Let n := length lm.

Lemma sums_m_p :
  Rsum (fun k => re (m k)) n = Rsum (fun k => re (p k)) n
  /\ Rsum (fun k => im (m k)) n = - Rsum (fun k => im (p k)) n.
Proof.
  apply conjugate_sums.
  - apply (down_of_up data lm i CB (fun l m => ladder l m)
             (fun l m => ladder l (- m))).
    intros l m0. apply ladder_reflect.
  - apply (down_first data lm i CB (fun l m => ladder l (- m))).
  - apply (up_last data lm i CB (fun l m => ladder l m)).
Qed.

Lemma sums_mm_pp_re :
  Rsum (fun k => re (mm k)) n = Rsum (fun k => re (pp k)) n.
Proof.
  apply conjugate_sums2_re.
  - apply (down2_of_up2 data lm i CB (fun l m => ladder l (m + 1) * ladder l m)
             (fun l m => ladder l (- (m - 1)) * ladder l (- m))).
    intros l m0. rewrite ladder_reflect2.
    replace (m0 + 2 - 1)%Z with (m0 + 1)%Z by lia. rewrite ladder_reflect. ring.
  - apply (down2_first data lm i CB (fun l m => ladder l (- (m - 1)) * ladder l (- m))).
  - apply (up2_last data lm i CB (fun l m => ladder l (m + 1) * ladder l m)).
Qed.
End SelfSums.

Lemma Lvec_row_entry data1 data2 lm i (c : idx3) :
  re (vget (Lvec_row data1 data2 lm i) c)
  = Rsum (fun k => re (vget (Lvec_step data1 data2 lm k i Cvzero) c)) (length lm)
  /\ im (vget (Lvec_row data1 data2 lm i) c)
     = Rsum (fun k => im (vget (Lvec_step data1 data2 lm k i Cvzero) c)) (length lm).
Proof.
  unfold Lvec_row, Rsum. split.
  - apply (fold_left_rel (fun (v : vec3 C) (s : R) => re (vget v c) = s));
      [|destruct c; reflexivity].
    intros v s k <-. unfold Lvec_step. cbv zeta.
    destruct c; simpl; lra.
  - apply (fold_left_rel (fun (v : vec3 C) (s : R) => im (vget v c) = s));
      [|destruct c; reflexivity].
    intros v s k <-. unfold Lvec_step. cbv zeta.
    destruct c; simpl; lra.
Qed.

(** The contraction of a series with itself is real. *)
Lemma Lvec_row_self_real data lm i (c : idx3) :
  complete_blocks lm -> im (vget (Lvec_row data data lm i) c) = 0.
Proof.
  intros CB. rewrite <- Ldt_row_imaginary, Ldt_row_sums.
  destruct (sums_m_p data lm i CB) as [Hre Him].
  destruct c; cbn [vget vx vy vz].
  - rewrite Rsum_scal, Rsum_plus, Him. lra.
  - rewrite Rsum_scal.
    replace (Rsum (fun k => re (Lp data data i k (lm_L lm k) (lm_M lm k))
                            - re (Lm data data i k (lm_L lm k) (lm_M lm k))) (length lm))
      with (Rsum (fun k => re (Lp data data i k (lm_L lm k) (lm_M lm k))) (length lm)
            + Rsum (fun k => -1 * re (Lm data data i k (lm_L lm k) (lm_M lm k)))
                (length lm)).
    + rewrite Rsum_scal, Hre. lra.
    + rewrite <- Rsum_plus. apply Rsum_ext. intros; lra.
  - apply Rsum_zero. intros k _. unfold Lz. rewrite Z.add_0_r. simpl. ring.
Qed.

Lemma LVector_length W1 W2 : length (LVector W1 W2) = n_times W1.
Proof.
  unfold LVector. cbv zeta. rewrite _LVector_rows, mode_loop_length.
  apply zeros2_length.
Qed.

Lemma LVector_nth W1 W2 i :
  (i < n_times W1)%nat -> (i < length (data W1))%nat ->
  nth i (LVector W1 W2) Cvzero = Lvec_row (data W1) (data W2) (LM W1) i.
Proof.
  intros Hn Hd. unfold LVector. cbv zeta. apply _LVector_nth; assumption.
Qed.

Lemma LVector_nth_untouched W1 W2 i :
  (length (data W1) <= i)%nat -> nth i (LVector W1 W2) Cvzero = Cvzero.
Proof.
  intros H. unfold LVector. cbv zeta.
  rewrite _LVector_rows, mode_loop_nth_untouched by assumption.
  apply (nth_zeros2 C0).
Qed.

Lemma LVector_self_rows_real W i (c : idx3) :
  complete_blocks (LM W) -> im (vget (nth i (LVector W W) Cvzero) c) = 0.
Proof.
  intros CB.
  destruct (Nat.lt_ge_cases i (length (data W))) as [Hd|Hd].
  - destruct (Nat.lt_ge_cases i (n_times W)) as [Hn|Hn].
    + rewrite LVector_nth by assumption. now apply Lvec_row_self_real.
    + rewrite nth_overflow by (now rewrite LVector_length).
      destruct c; reflexivity.
  - rewrite LVector_nth_untouched by assumption. destruct c; reflexivity.
Qed.

Lemma Rsum_minus f g n : Rsum (fun k => f k - g k) n = Rsum f n - Rsum g n.
Proof.
  replace (Rsum f n - Rsum g n) with (Rsum f n + Rsum (fun k => -1 * g k) n)
    by (rewrite Rsum_scal; lra).
  rewrite <- Rsum_plus. apply Rsum_ext. intros; lra.
Qed.

Section SelfHermitian.
Variable data : list (list C).
Variable lm : list (Z * Z).
Variable i : nat.
Hypothesis CB : complete_blocks lm.

Let pp k := LpLp data data i k (lm_L lm k) (lm_M lm k).
Let pm k := LpLm data data i k (lm_L lm k) (lm_M lm k).
Let mp k := LmLp data data i k (lm_L lm k) (lm_M lm k).
Let mm k := LmLm data data i k (lm_L lm k) (lm_M lm k).
Let pz k := LpLz data data i k (lm_L lm k) (lm_M lm k).
Let zp k := LzLp data data i k (lm_L lm k) (lm_M lm k).
Let mz k := LmLz data data i k (lm_L lm k) (lm_M lm k).
Let zm k := LzLm data data i k (lm_L lm k) (lm_M lm k).
Let n := length lm.

(** The entries (0,1), (1,0), (0,2) and (2,0) of the comparison tensor of a
    series with itself are conjugate to their transposes. *)
Lemma self_comparison_hermitian :
  let cmp := LLcmp_row data data lm i in
  mget cmp c0 c1 = conjugate (mget cmp c1 c0)
  /\ mget cmp c0 c2 = conjugate (mget cmp c2 c0).
Proof.
  cbv zeta.
  assert (Re_mz : Rsum (fun k => re (mz k)) n = Rsum (fun k => re (zp k)) n)
    by apply (sums_mz_zp data lm i CB).
  assert (Im_mz : Rsum (fun k => im (mz k)) n = - Rsum (fun k => im (zp k)) n)
    by apply (sums_mz_zp data lm i CB).
  assert (Re_zm : Rsum (fun k => re (zm k)) n = Rsum (fun k => re (pz k)) n)
    by apply (sums_zm_pz data lm i CB).
  assert (Im_zm : Rsum (fun k => im (zm k)) n = - Rsum (fun k => im (pz k)) n)
    by apply (sums_zm_pz data lm i CB).
  assert (Re_mm : Rsum (fun k => re (mm k)) n = Rsum (fun k => re (pp k)) n)
    by apply (sums_mm_pp_re data lm i CB).
  assert (T : forall k,
     let A := LLcmp_step data data lm k i Cmzero in
     re (mget A c0 c1) = 0.25 * im (pp k) + - 0.25 * im (mm k) + 0 * 0 + 0 * 0
     /\ re (mget A c1 c0) = 0.25 * im (pp k) + - 0.25 * im (mm k) + 0 * 0 + 0 * 0
     /\ im (mget A c0 c1)
        = - 0.25 * re (pp k) + 0.25 * re (mm k) + - 0.25 * re (mp k) + 0.25 * re (pm k)
     /\ im (mget A c1 c0)
        = - 0.25 * re (pp k) + 0.25 * re (mm k) + 0.25 * re (mp k) + - 0.25 * re (pm k)
     /\ re (mget A c0 c2)
        = 0.5 * re (pz k) + 0.5 * re (mz k) + 0 * re (zp k) + 0 * re (zm k)
     /\ re (mget A c2 c0)
        = 0 * re (pz k) + 0 * re (mz k) + 0.5 * re (zp k) + 0.5 * re (zm k)
     /\ im (mget A c0 c2)
        = 0.5 * im (pz k) + 0.5 * im (mz k) + 0 * im (zp k) + 0 * im (zm k)
     /\ im (mget A c2 c0)
        = 0 * im (pz k) + 0 * im (mz k) + 0.5 * im (zp k) + 0.5 * im (zm k)).
  { intros k. cbv zeta.
    assert (Hpm : im (pm k) = 0) by apply (im_pm data lm i k).
    assert (Hmp : im (mp k) = 0) by apply (im_mp data lm i k).
    unfold LLcmp_step. cbv zeta.
    fold (pp k) (pm k) (mp k) (mm k) (pz k) (zp k) (mz k) (zm k).
    generalize dependent (pp k). generalize dependent (pm k).
    generalize dependent (mp k). generalize dependent (mm k).
    generalize (pz k) (zp k) (mz k) (zm k).
    generalize (LzLz data data i k (lm_M lm k)).
    intros. unfold mget. simpl in *. repeat split; lra. }
  assert (T' : forall k, _) by (intros k; exact (T k)). cbv zeta in T'. clear T.
  split; apply C_eq; cbn [conjugate re im].
  - rewrite (proj1 (LLcmp_row_entry data data lm i c0 c1)),
      (proj1 (LLcmp_row_entry data data lm i c1 c0)). fold n.
    rewrite (Rsum_ext (fun k => re (mget (LLcmp_step data data lm k i Cmzero) c0 c1))
               (fun k => 0.25 * im (pp k) + - 0.25 * im (mm k) + 0 * 0 + 0 * 0) n)
      by (intros k _; exact (proj1 (T' k))).
    rewrite (Rsum_ext (fun k => re (mget (LLcmp_step data data lm k i Cmzero) c1 c0))
               (fun k => 0.25 * im (pp k) + - 0.25 * im (mm k) + 0 * 0 + 0 * 0) n)
      by (intros k _; exact (proj1 (proj2 (T' k)))).
    reflexivity.
  - rewrite (proj2 (LLcmp_row_entry data data lm i c0 c1)),
      (proj2 (LLcmp_row_entry data data lm i c1 c0)). fold n.
    rewrite (Rsum_ext (fun k => im (mget (LLcmp_step data data lm k i Cmzero) c0 c1))
               (fun k => - 0.25 * re (pp k) + 0.25 * re (mm k) + - 0.25 * re (mp k)
                         + 0.25 * re (pm k)) n)
      by (intros k _; exact (proj1 (proj2 (proj2 (T' k))))).
    rewrite (Rsum_ext (fun k => im (mget (LLcmp_step data data lm k i Cmzero) c1 c0))
               (fun k => - 0.25 * re (pp k) + 0.25 * re (mm k) + 0.25 * re (mp k)
                         + - 0.25 * re (pm k)) n)
      by (intros k _; exact (proj1 (proj2 (proj2 (proj2 (T' k)))))).
    rewrite !Rsum_lin4. lra.
  - rewrite (proj1 (LLcmp_row_entry data data lm i c0 c2)),
      (proj1 (LLcmp_row_entry data data lm i c2 c0)). fold n.
    rewrite (Rsum_ext (fun k => re (mget (LLcmp_step data data lm k i Cmzero) c0 c2))
               (fun k => 0.5 * re (pz k) + 0.5 * re (mz k) + 0 * re (zp k)
                         + 0 * re (zm k)) n)
      by (intros k _; exact (proj1 (proj2 (proj2 (proj2 (proj2 (T' k))))))).
    rewrite (Rsum_ext (fun k => re (mget (LLcmp_step data data lm k i Cmzero) c2 c0))
               (fun k => 0 * re (pz k) + 0 * re (mz k) + 0.5 * re (zp k)
                         + 0.5 * re (zm k)) n)
      by (intros k _; exact (proj1 (proj2 (proj2 (proj2 (proj2 (proj2 (T' k)))))))).
    rewrite !Rsum_lin4. lra.
  - rewrite (proj2 (LLcmp_row_entry data data lm i c0 c2)),
      (proj2 (LLcmp_row_entry data data lm i c2 c0)). fold n.
    rewrite (Rsum_ext (fun k => im (mget (LLcmp_step data data lm k i Cmzero) c0 c2))
               (fun k => 0.5 * im (pz k) + 0.5 * im (mz k) + 0 * im (zp k)
                         + 0 * im (zm k)) n)
      by (intros k _; exact (proj1 (proj2 (proj2 (proj2 (proj2 (proj2 (proj2 (T' k))))))))).
    rewrite (Rsum_ext (fun k => im (mget (LLcmp_step data data lm k i Cmzero) c2 c0))
               (fun k => 0 * im (pz k) + 0 * im (mz k) + 0.5 * im (zp k)
                         + 0.5 * im (zm k)) n)
      by (intros k _; exact (proj2 (proj2 (proj2 (proj2 (proj2 (proj2 (proj2 (T' k))))))))).
    rewrite !Rsum_lin4. lra.
Qed.
End SelfHermitian.

Lemma LLComparisonMatrix_self_hermitian_rows W i :
  complete_blocks (LM W) ->
  let cmp := nth i (LLComparisonMatrix W W) Cmzero in
  mget cmp c0 c1 = conjugate (mget cmp c1 c0)
  /\ mget cmp c0 c2 = conjugate (mget cmp c2 c0).
Proof.
  intros CB. cbv zeta.
  destruct (Nat.lt_ge_cases i (length (data W))) as [Hd|Hd].
  - destruct (Nat.lt_ge_cases i (n_times W)) as [Hn|Hn].
    + rewrite LLComparisonMatrix_nth by assumption.
      now apply self_comparison_hermitian.
    + rewrite nth_overflow by (now rewrite LLComparisonMatrix_length).
      split; apply C_eq; simpl; lra.
  - rewrite LLComparisonMatrix_nth_untouched by assumption.
    split; apply C_eq; simpl; lra.
Qed.

(** What one mode adds to [LxLy - LyLx] and to [Lz]. *)
Lemma LLcmp_step_commutator data1 data2 lm k i :
  (- lm_L lm k <= lm_M lm k <= lm_L lm k)%Z ->
  (mget (LLcmp_step data1 data2 lm k i Cmzero) c0 c1
   - mget (LLcmp_step data1 data2 lm k i Cmzero) c1 c0)%C
  = (mkC 0 1 * vget (Lvec_step data1 data2 lm k i Cvzero) c2)%C.
Proof.
  intros [Hlo Hhi]. unfold LLcmp_step, Lvec_step, LpLm, LmLp, Lz. cbv zeta.
  rewrite Z.add_0_r.
  generalize (LpLp data1 data2 i k (lm_L lm k) (lm_M lm k)).
  generalize (LmLm data1 data2 i k (lm_L lm k) (lm_M lm k)).
  intros mm pp.
  generalize (read2 data1 i (Z.of_nat k)) (read2 data2 i (Z.of_nat k)).
  intros f g.
  generalize dependent (lm_L lm k). generalize dependent (lm_M lm k).
  intros M L Hlo Hhi.
  destruct (Z.leb_spec (M + 1) L) as [Hu|Hu];
    destruct (Z.geb_spec (M - 1) (- L)) as [Hd|Hd];
    unfold mget; apply C_eq; cbn -[ladder];
    rewrite ?ladder_down_up, ?ladder_up_down by lia; decimals.
  - field.
  - field.
  - assert (E : IZR M = - IZR L) by (rewrite <- opp_IZR; f_equal; lia).
    rewrite E. field.
  - assert (E : IZR M = - IZR L) by (rewrite <- opp_IZR; f_equal; lia).
    rewrite E. field.
  - assert (E : IZR M = IZR L) by (f_equal; lia).
    rewrite E. field.
  - assert (E : IZR M = IZR L) by (f_equal; lia).
    rewrite E. field.
  - assert (E : IZR M = 0) by (apply (f_equal IZR (y := 0%Z)); lia).
    rewrite E. field.
  - assert (E : IZR M = 0) by (apply (f_equal IZR (y := 0%Z)); lia).
    rewrite E. field.
Qed.

Lemma LLcmp_row_commutator data1 data2 lm i :
  modes_in_range lm ->
  (mget (LLcmp_row data1 data2 lm i) c0 c1
   - mget (LLcmp_row data1 data2 lm i) c1 c0)%C
  = (mkC 0 1 * vget (Lvec_row data1 data2 lm i) c2)%C.
Proof.
  intros H.
  assert (E : forall k, (k < length lm)%nat ->
            (mget (LLcmp_step data1 data2 lm k i Cmzero) c0 c1
             - mget (LLcmp_step data1 data2 lm k i Cmzero) c1 c0)%C
            = (mkC 0 1 * vget (Lvec_step data1 data2 lm k i Cvzero) c2)%C)
    by (intros k Hk; apply LLcmp_step_commutator, H, Hk).
  apply C_eq; cbn [re im Csub Cmul].
  - rewrite (proj1 (LLcmp_row_entry data1 data2 lm i c0 c1)),
      (proj1 (LLcmp_row_entry data1 data2 lm i c1 c0)),
      (proj1 (Lvec_row_entry data1 data2 lm i c2)),
      (proj2 (Lvec_row_entry data1 data2 lm i c2)).
    rewrite <- Rsum_minus, <- !Rsum_scal, <- Rsum_minus.
    apply Rsum_ext. intros k Hk.
    pose proof (f_equal re (E k Hk)) as Ek. cbn [re im Csub Cmul] in Ek. exact Ek.
  - rewrite (proj2 (LLcmp_row_entry data1 data2 lm i c0 c1)),
      (proj2 (LLcmp_row_entry data1 data2 lm i c1 c0)),
      (proj1 (Lvec_row_entry data1 data2 lm i c2)),
      (proj2 (Lvec_row_entry data1 data2 lm i c2)).
    rewrite <- Rsum_minus, <- !Rsum_scal, <- Rsum_plus.
    apply Rsum_ext. intros k Hk.
    pose proof (f_equal im (E k Hk)) as Ek. cbn [re im Csub Cmul] in Ek. exact Ek.
Qed.

Lemma LLComparisonMatrix_commutator_rows W1 W2 i :
  modes_in_range (LM W1) ->
  (mget (nth i (LLComparisonMatrix W1 W2) Cmzero) c0 c1
   - mget (nth i (LLComparisonMatrix W1 W2) Cmzero) c1 c0)%C
  = (mkC 0 1 * vget (nth i (LVector W1 W2) Cvzero) c2)%C.
Proof.
  intros H.
  destruct (Nat.lt_ge_cases i (length (data W1))) as [Hd|Hd].
  - destruct (Nat.lt_ge_cases i (n_times W1)) as [Hn|Hn].
    + rewrite LLComparisonMatrix_nth, LVector_nth by assumption.
      now apply LLcmp_row_commutator.
    + rewrite !nth_overflow
        by (rewrite ?LLComparisonMatrix_length, ?LVector_length; assumption).
      apply C_eq; simpl; lra.
  - rewrite LLComparisonMatrix_nth_untouched, LVector_nth_untouched by assumption.
    apply C_eq; simpl; lra.
Qed.

Lemma LLMatrix_trace_rows W i :
  modes_in_range (LM W) ->
  (i < n_times W)%nat -> (i < length (data W))%nat ->
  mget (nth i (LLMatrix W) mzero) c0 c0 + mget (nth i (LLMatrix W) mzero) c1 c1
  + mget (nth i (LLMatrix W) mzero) c2 c2
  = Rsum (fun k => IZR (lm_L (LM W) k) * (IZR (lm_L (LM W) k) + 1)
                   * Cnorm2 (read2 (data W) i (Z.of_nat k))) (length (LM W)).
Proof.
  intros H Hn Hd. rewrite LLMatrix_nth by assumption. now apply LL_row_trace.
Qed.

Lemma LLMatrix_trace_nonneg W i :
  modes_in_range (LM W) ->
  0 <= mget (nth i (LLMatrix W) mzero) c0 c0 + mget (nth i (LLMatrix W) mzero) c1 c1
       + mget (nth i (LLMatrix W) mzero) c2 c2.
Proof.
  intros H.
  destruct (Nat.lt_ge_cases i (length (data W))) as [Hd|Hd].
  - destruct (Nat.lt_ge_cases i (n_times W)) as [Hn|Hn].
    + rewrite LLMatrix_trace_rows by assumption.
      apply Rsum_nonneg. intros k _.
      apply Rmult_le_pos; [apply IZR_succ_nonneg | apply Cnorm2_nonneg].
    + rewrite nth_overflow by (now rewrite LLMatrix_length). simpl. lra.
  - rewrite LLMatrix_nth_untouched by assumption. simpl. lra.
Qed.

(** ** The batched solve *)

Lemma solve3_unique A x : det3 A <> 0 -> solve3 A (mat_vec A x) = Ok x.
Proof.
  intros H. unfold solve3. destruct (Req_dec_T (det3 A) 0) as [E|_]; [contradiction|].
  f_equal. destruct A as [[a00 a01 a02] [a10 a11 a12] [a20 a21 a22]].
  destruct x as [x0 x1 x2].
  unfold det3, replace_column, mat_vec, mget in *. cbn in *.
  apply vec3_eq; cbn; field; exact H.
Qed.

Lemma solve_singular ll : forall l i,
  length ll = length l -> (i < length ll)%nat ->
  det3 (nth i ll mzero) = 0 -> solve ll l = Raise LinAlgError.
Proof.
  induction ll as [|A ll IH]; intros [|b l] i Hlen Hi Hdet; simpl in *; try lia.
  destruct i as [|i].
  - now rewrite solve3_singular.
  - unfold solve3. destruct (Req_dec_T (det3 A) 0); [reflexivity|].
    cbn [bind]. rewrite (IH l i) by (auto; lia). reflexivity.
Qed.

Lemma solve_exact ll : forall l xs,
  length ll = length l -> length ll = length xs ->
  (forall i, (i < length ll)%nat ->
     solve3 (nth i ll mzero) (nth i l vzero) = Ok (nth i xs vzero)) ->
  solve ll l = Ok xs.
Proof.
  induction ll as [|A ll IH]; intros [|b l] [|x xs] Hl Hx H; simpl in *; try lia.
  - reflexivity.
  - rewrite (H 0%nat) by lia. cbn [bind].
    rewrite (IH l xs); [reflexivity|lia|lia|].
    intros i Hi. apply (H (S i)). lia.
Qed.

Lemma angular_velocity_singular_at W i :
  (i < n_times W)%nat -> det3 (nth i (LLMatrix W) mzero) = 0 ->
  angular_velocity W = Raise LinAlgError.
Proof.
  intros Hi Hdet. unfold angular_velocity. cbv zeta.
  rewrite (solve_singular (LLMatrix W) (LdtVector W) i); auto.
  - now rewrite LLMatrix_length, LdtVector_length.
  - now rewrite LLMatrix_length.
Qed.

Lemma angular_velocity_exact W omega :
  length omega = n_times W ->
  (forall i, (i < n_times W)%nat ->
     det3 (nth i (LLMatrix W) mzero) <> 0
     /\ nth i (LdtVector W) vzero
        = vopp (mat_vec (nth i (LLMatrix W) mzero) (nth i omega vzero))) ->
  angular_velocity W = Ok omega.
Proof.
  intros Hlen H. unfold angular_velocity. cbv zeta.
  rewrite (solve_exact (LLMatrix W) (LdtVector W) (map vopp omega)).
  - cbn [bind]. rewrite map_map. f_equal.
    rewrite <- (map_id omega) at 2. apply map_ext. apply vopp_involutive.
  - now rewrite LLMatrix_length, LdtVector_length.
  - now rewrite LLMatrix_length, length_map.
  - intros i Hi. rewrite LLMatrix_length in Hi. destruct (H i Hi) as [Hdet E].
    rewrite E, <- mat_vec_vopp.
    rewrite nth_indep with (l := map vopp omega) (d' := vopp vzero)
      by (now rewrite length_map, Hlen).
    rewrite map_nth. now apply solve3_unique.
Qed.

(** ** A series that rotates rigidly about the z axis *)

Section RigidRotation.
Variables data datadot : list (list C).
Variable lm : list (Z * Z).
Variable i : nat.
Variable omega : R.
Hypothesis CB : complete_blocks lm.
Hypothesis rotating :
  forall k, (k < length lm)%nat ->
    read2 datadot i (Z.of_nat k)
    = (mkC 0 (- omega * IZR (lm_M lm k)) * read2 data i (Z.of_nat k))%C.

Let pz k := LpLz data data i k (lm_L lm k) (lm_M lm k).
Let zp k := LzLp data data i k (lm_L lm k) (lm_M lm k).
Let mz k := LmLz data data i k (lm_L lm k) (lm_M lm k).
Let zm k := LzLm data data i k (lm_L lm k) (lm_M lm k).
Let zz k := LzLz data data i k (lm_M lm k).
Let n := length lm.

Lemma rotating_Lp k :
  (k < n)%nat ->
  Lp data datadot i k (lm_L lm k) (lm_M lm k) = (mkC 0 (- omega) * pz k)%C.
Proof.
  intros Hk. unfold pz, Lp, LpLz. rewrite (rotating k Hk).
  destruct (_ <=? _)%Z; apply C_eq; simpl; ring.
Qed.

Lemma rotating_Lm k :
  (k < n)%nat ->
  Lm data datadot i k (lm_L lm k) (lm_M lm k) = (mkC 0 (- omega) * mz k)%C.
Proof.
  intros Hk. unfold mz, Lm, LmLz. rewrite (rotating k Hk).
  destruct (_ >=? _)%Z; apply C_eq; simpl; ring.
Qed.

Lemma rotating_Lz k :
  (k < n)%nat ->
  Lz data datadot i k (lm_M lm k) = (mkC 0 (- omega) * zz k)%C.
Proof.
  intros Hk. unfold zz, Lz, LzLz. rewrite (rotating k Hk).
  replace (lm_M lm k ^ 2)%Z with (lm_M lm k * lm_M lm k)%Z by ring.
  rewrite mult_IZR. apply C_eq; simpl; ring.
Qed.

Lemma rigid_rotation_row :
  Ldt_row data datadot lm i
  = vopp (mat_vec (LL_row data lm i) (mkV 0 0 omega)).
Proof.
  assert (Re_mz : Rsum (fun k => re (mz k)) n = Rsum (fun k => re (zp k)) n)
    by apply (sums_mz_zp data lm i CB).
  assert (Im_mz : Rsum (fun k => im (mz k)) n = - Rsum (fun k => im (zp k)) n)
    by apply (sums_mz_zp data lm i CB).
  assert (Re_zm : Rsum (fun k => re (zm k)) n = Rsum (fun k => re (pz k)) n)
    by apply (sums_zm_pz data lm i CB).
  assert (Im_zm : Rsum (fun k => im (zm k)) n = - Rsum (fun k => im (pz k)) n)
    by apply (sums_zm_pz data lm i CB).
  assert (T : forall k,
     let B := LL_step data lm k i mzero in
     mget B c0 c2
     = 0.25 * re (pz k) + 0.25 * re (mz k) + 0.25 * re (zp k) + 0.25 * re (zm k)
     /\ mget B c1 c2
        = 0.25 * im (pz k) + - 0.25 * im (mz k) + 0.25 * im (zp k)
          + - 0.25 * im (zm k)
     /\ mget B c2 c2 = re (zz k)).
  { intros k. cbv zeta. unfold LL_step. cbv zeta.
    fold (pz k) (zp k) (mz k) (zm k) (zz k).
    generalize (LpLp data data i k (lm_L lm k) (lm_M lm k)).
    generalize (LpLm data data i k (lm_L lm k) (lm_M lm k)).
    generalize (LmLp data data i k (lm_L lm k) (lm_M lm k)).
    generalize (LmLm data data i k (lm_L lm k) (lm_M lm k)).
    generalize (pz k) (zp k) (mz k) (zm k) (zz k).
    intros. unfold mget. simpl. repeat split; lra. }
  assert (T' : forall k, _) by (intros k; exact (T k)). cbv zeta in T'. clear T.
  rewrite Ldt_row_sums. fold n.
  unfold mat_vec, vopp. cbn [vx vy vz].
  rewrite !Rmult_0_r, !Rplus_0_l.
  rewrite !LL_row_entry. fold n.
  rewrite (Rsum_ext (fun k => mget (LL_step data lm k i mzero) c0 c2)
             (fun k => 0.25 * re (pz k) + 0.25 * re (mz k) + 0.25 * re (zp k)
                       + 0.25 * re (zm k)) n)
    by (intros k _; exact (proj1 (T' k))).
  rewrite (Rsum_ext (fun k => mget (LL_step data lm k i mzero) c1 c2)
             (fun k => 0.25 * im (pz k) + - 0.25 * im (mz k) + 0.25 * im (zp k)
                       + - 0.25 * im (zm k)) n)
    by (intros k _; exact (proj1 (proj2 (T' k)))).
  rewrite (Rsum_ext (fun k => mget (LL_step data lm k i mzero) c2 c2)
             (fun k => re (zz k)) n)
    by (intros k _; exact (proj2 (proj2 (T' k)))).
  rewrite (Rsum_ext
             (fun k => 0.5 * (im (Lp data datadot i k (lm_L lm k) (lm_M lm k))
                              + im (Lm data datadot i k (lm_L lm k) (lm_M lm k))))
             (fun k => (- 0.5 * omega) * re (pz k) + (- 0.5 * omega) * re (mz k)
                       + 0 * 0 + 0 * 0) n)
    by (intros k Hk; rewrite rotating_Lp, rotating_Lm by assumption; simpl; lra).
  rewrite (Rsum_ext
             (fun k => - 0.5 * (re (Lp data datadot i k (lm_L lm k) (lm_M lm k))
                                - re (Lm data datadot i k (lm_L lm k) (lm_M lm k))))
             (fun k => (- 0.5 * omega) * im (pz k) + (0.5 * omega) * im (mz k)
                       + 0 * 0 + 0 * 0) n)
    by (intros k Hk; rewrite rotating_Lp, rotating_Lm by assumption; simpl; lra).
  rewrite (Rsum_ext (fun k => im (Lz data datadot i k (lm_M lm k)))
             (fun k => (- omega) * re (zz k)) n)
    by (intros k Hk; rewrite rotating_Lz by assumption; simpl; lra).
  rewrite !Rsum_lin4, Rsum_scal.
  apply vec3_eq; cbn [vx vy vz]; nra.
Qed.
End RigidRotation.

Lemma angular_velocity_rigid_rotation W omega :
  complete_blocks (LM W) -> length (data W) = n_times W ->
  (forall i k, (i < n_times W)%nat -> (k < length (LM W))%nat ->
     read2 (data_dot W) i (Z.of_nat k)
     = (mkC 0 (- omega * IZR (lm_M (LM W) k)) * read2 (data W) i (Z.of_nat k))%C) ->
  (forall i, (i < n_times W)%nat -> det3 (nth i (LLMatrix W) mzero) <> 0) ->
  angular_velocity W = Ok (repeat (mkV 0 0 omega) (n_times W)).
Proof.
  intros CB Hshape Hrot Hdet. apply angular_velocity_exact.
  - apply repeat_length.
  - intros i Hi. split; [now apply Hdet|].
    rewrite nth_repeat_lt by assumption.
    rewrite LdtVector_nth, LLMatrix_nth by (rewrite ?Hshape; assumption).
    apply rigid_rotation_row; [assumption|].
    intros k Hk. now apply Hrot.
Qed.

(** ** A sample in which only modes with [m = 0] are excited *)

Lemma Cmul_C0_l a : (C0 * a)%C = C0.
Proof. apply C_eq; simpl; ring. Qed.

Lemma Cmul_C0_r a : (a * C0)%C = C0.
Proof. apply C_eq; simpl; ring. Qed.

Lemma Cmul_R0_r a : (a * RtoC 0)%C = C0.
Proof. apply C_eq; simpl; ring. Qed.

Section Axisymmetric.
Variable data : list (list C).
Variable lm : list (Z * Z).
Variable i : nat.
Hypothesis CB : complete_blocks lm.
Hypothesis only_m0 :
  forall k, (k < length lm)%nat -> lm_M lm k <> 0%Z ->
    read2 data i (Z.of_nat k) = C0.

Lemma axisymmetric_terms k :
  (k < length lm)%nat ->
  LpLz data data i k (lm_L lm k) (lm_M lm k) = C0
  /\ LzLp data data i k (lm_L lm k) (lm_M lm k) = C0
  /\ LmLz data data i k (lm_L lm k) (lm_M lm k) = C0
  /\ LzLm data data i k (lm_L lm k) (lm_M lm k) = C0
  /\ LzLz data data i k (lm_M lm k) = C0.
Proof.
  intros Hk. unfold LpLz, LzLp, LmLz, LzLm, LzLz.
  destruct (Z.eq_dec (lm_M lm k) 0) as [E|E].
  - rewrite E. replace (0 ^ 2)%Z with 0%Z by reflexivity.
    rewrite !Rmult_0_r. rewrite !Cmul_R0_r.
    repeat split.
    + now destruct (_ <=? _)%Z.
    + destruct (Z.leb_spec (0 + 1) (lm_L lm k)) as [Hu|Hu]; [|reflexivity].
      destruct (cb_up lm k CB Hk) as [HS [_ HM]]; [lia|].
      replace (Z.of_nat k + 1)%Z with (Z.of_nat (S k)) by lia.
      rewrite (only_m0 (S k)) by (auto; lia).
      apply C_eq; simpl; ring.
    + now destruct (_ >=? _)%Z.
    + destruct (Z.geb_spec (0 - 1) (- lm_L lm k)) as [Hd|Hd]; [|reflexivity].
      destruct (cb_down lm k CB Hk) as [H1 [_ HM]]; [lia|].
      replace (Z.of_nat k + -1)%Z with (Z.of_nat (k - 1)) by lia.
      rewrite (only_m0 (k - 1)%nat) by (auto; lia).
      apply C_eq; simpl; ring.
  - rewrite (only_m0 k Hk E).
    repeat split; try destruct (_ <=? _)%Z; try destruct (_ >=? _)%Z;
      apply C_eq; simpl; ring.
Qed.

Lemma axisymmetric_row_singular : det3 (LL_row data lm i) = 0.
Proof.
  assert (T : forall k, (k < length lm)%nat ->
            mget (LL_step data lm k i mzero) c2 c0 = 0
            /\ mget (LL_step data lm k i mzero) c2 c1 = 0
            /\ mget (LL_step data lm k i mzero) c2 c2 = 0).
  { intros k Hk.
    destruct (axisymmetric_terms k Hk) as (Hpz & Hzp & Hmz & Hzm & Hzz).
    unfold LL_step. cbv zeta. rewrite Hpz, Hzp, Hmz, Hzm, Hzz.
    unfold mget. simpl. repeat split; lra. }
  unfold det3. rewrite !LL_row_entry.
  rewrite (Rsum_zero (fun k => mget (LL_step data lm k i mzero) c2 c0))
    by (intros k Hk; apply (T k Hk)).
  rewrite (Rsum_zero (fun k => mget (LL_step data lm k i mzero) c2 c1))
    by (intros k Hk; apply (T k Hk)).
  rewrite (Rsum_zero (fun k => mget (LL_step data lm k i mzero) c2 c2))
    by (intros k Hk; apply (T k Hk)).
  ring.
Qed.
End Axisymmetric.

Lemma det3_mzero : det3 mzero = 0.
Proof. unfold det3, mzero, mget. simpl. ring. Qed.

Lemma angular_velocity_axisymmetric W i :
  complete_blocks (LM W) -> (i < n_times W)%nat ->
  (forall k, (k < length (LM W))%nat -> lm_M (LM W) k <> 0%Z ->
     read2 (data W) i (Z.of_nat k) = C0) ->
  angular_velocity W = Raise LinAlgError.
Proof.
  intros CB Hi H. apply (angular_velocity_singular_at W i Hi).
  destruct (Nat.lt_ge_cases i (length (data W))) as [Hd|Hd].
  - rewrite LLMatrix_nth by assumption. now apply axisymmetric_row_singular.
  - rewrite LLMatrix_nth_untouched by assumption. apply det3_mzero.
Qed.

(** ** Restriction to a range of time samples *)

Lemma LL_row_ext data data' lm i i' :
  nth i data [] = nth i' data' [] -> LL_row data lm i = LL_row data' lm i'.
Proof.
  intros H. change (LL_row [nth i data []] lm 0 = LL_row [nth i' data' []] lm 0).
  now rewrite H.
Qed.

Lemma Ldt_row_ext data datadot data' datadot' lm i i' :
  nth i data [] = nth i' data' [] -> nth i datadot [] = nth i' datadot' [] ->
  Ldt_row data datadot lm i = Ldt_row data' datadot' lm i'.
Proof.
  intros H H'.
  change (Ldt_row [nth i data []] [nth i datadot []] lm 0
          = Ldt_row [nth i' data' []] [nth i' datadot' []] lm 0).
  now rewrite H, H'.
Qed.

Lemma slice_length_clipped {A} (l : list A) (a b : Z) :
  length (slice l a b)
  = Nat.min (Z.to_nat b - Z.to_nat a) (length l - Z.to_nat a).
Proof. unfold slice. now rewrite length_firstn, length_skipn. Qed.

Lemma nth_slice {A} (l : list A) (a b : Z) (j : nat) (d : A) :
  (j < Z.to_nat b - Z.to_nat a)%nat ->
  nth j (slice l a b) d = nth (Z.to_nat a + j) l d.
Proof.
  intros H. unfold slice. rewrite nth_firstn, nth_skipn.
  destruct (Nat.ltb_spec j (Z.to_nat b - Z.to_nat a)); [reflexivity|lia].
Qed.

Lemma slice_map {A B} (f : A -> B) (l : list A) (a b : Z) :
  slice (map f l) a b = map f (slice l a b).
Proof. unfold slice. now rewrite skipn_map, firstn_map. Qed.

Lemma LLMatrix_getitem W a b :
  length (data W) = n_times W ->
  LLMatrix (getitem W a b) = slice (LLMatrix W) a b.
Proof.
  intros Hshape.
  assert (Hn : n_times (getitem W a b)
               = Nat.min (Z.to_nat b - Z.to_nat a) (n_times W - Z.to_nat a))
    by (unfold n_times, getitem; cbn [t]; apply slice_length_clipped).
  assert (Hd : length (data (getitem W a b)) = n_times (getitem W a b))
    by (rewrite Hn; unfold getitem; cbn [data];
        rewrite slice_length_clipped, Hshape; reflexivity).
  apply nth_ext with (d := mzero) (d' := mzero).
  - now rewrite LLMatrix_length, slice_length_clipped, LLMatrix_length.
  - intros j Hj. rewrite LLMatrix_length in Hj.
    rewrite LLMatrix_nth by (rewrite ?Hd; assumption).
    rewrite nth_slice by lia.
    rewrite LLMatrix_nth by (rewrite ?Hshape; lia).
    apply LL_row_ext. unfold getitem. cbn [data]. apply nth_slice. lia.
Qed.

Lemma LdtVector_getitem W a b :
  length (data W) = n_times W ->
  LdtVector (getitem W a b) = slice (LdtVector W) a b.
Proof.
  intros Hshape.
  assert (Hn : n_times (getitem W a b)
               = Nat.min (Z.to_nat b - Z.to_nat a) (n_times W - Z.to_nat a))
    by (unfold n_times, getitem; cbn [t]; apply slice_length_clipped).
  assert (Hd : length (data (getitem W a b)) = n_times (getitem W a b))
    by (rewrite Hn; unfold getitem; cbn [data];
        rewrite slice_length_clipped, Hshape; reflexivity).
  apply nth_ext with (d := vzero) (d' := vzero).
  - now rewrite LdtVector_length, slice_length_clipped, LdtVector_length.
  - intros j Hj. rewrite LdtVector_length in Hj.
    rewrite LdtVector_nth by (rewrite ?Hd; assumption).
    rewrite nth_slice by lia.
    rewrite LdtVector_nth by (rewrite ?Hshape; lia).
    unfold getitem. cbn [data data_dot LM].
    apply Ldt_row_ext; apply nth_slice; lia.
Qed.

Lemma solve_cons_inv A ll b l xs :
  solve (A :: ll) (b :: l) = Ok xs ->
  exists x xs', xs = x :: xs' /\ solve3 A b = Ok x /\ solve ll l = Ok xs'.
Proof.
  cbn [solve]. destruct (solve3 A b) as [x| |]; cbn [bind]; try discriminate.
  destruct (solve ll l) as [xs'| |]; cbn [bind]; try discriminate.
  intros E. injection E as <-. now exists x, xs'.
Qed.

Lemma solve_skipn n : forall ll l xs,
  length ll = length l -> solve ll l = Ok xs ->
  solve (skipn n ll) (skipn n l) = Ok (skipn n xs).
Proof.
  induction n as [|n IH]; intros ll l xs Hlen H; [exact H|].
  destruct ll as [|A ll], l as [|b l]; simpl in Hlen; try lia.
  - simpl in H. injection H as <-. reflexivity.
  - destruct (solve_cons_inv _ _ _ _ _ H) as (x & xs' & -> & _ & H').
    cbn [skipn]. apply IH; [lia|exact H'].
Qed.

Lemma solve_firstn n : forall ll l xs,
  length ll = length l -> solve ll l = Ok xs ->
  solve (firstn n ll) (firstn n l) = Ok (firstn n xs).
Proof.
  induction n as [|n IH]; intros ll l xs Hlen H; [reflexivity|].
  destruct ll as [|A ll], l as [|b l]; simpl in Hlen; try lia.
  - simpl in H. injection H as <-. reflexivity.
  - destruct (solve_cons_inv _ _ _ _ _ H) as (x & xs' & -> & Hx & H').
    cbn [firstn solve]. rewrite Hx. cbn [bind].
    rewrite (IH ll l xs') by (auto; lia). reflexivity.
Qed.

Lemma solve_slice ll l xs a b :
  length ll = length l -> solve ll l = Ok xs ->
  solve (slice ll a b) (slice l a b) = Ok (slice xs a b).
Proof.
  intros Hlen H. unfold slice. apply solve_firstn.
  - now rewrite !length_skipn, Hlen.
  - now apply solve_skipn.
Qed.

Lemma angular_velocity_getitem W a b omega :
  length (data W) = n_times W ->
  angular_velocity W = Ok omega ->
  angular_velocity (getitem W a b) = Ok (slice omega a b).
Proof.
  intros Hshape H. unfold angular_velocity in *. cbv zeta in *.
  rewrite LLMatrix_getitem, LdtVector_getitem by assumption.
  destruct (solve (LLMatrix W) (LdtVector W)) as [xs| |] eqn:E;
    cbn [bind] in H; try discriminate.
  injection H as <-.
  rewrite (solve_slice _ _ xs) by (rewrite ?LLMatrix_length, ?LdtVector_length; auto).
  cbn [bind]. now rewrite slice_map.
Qed.

(** ** The continuity walk *)

Lemma Rltb_scale s a : 0 < s -> Rltb (s * a) 0 = Rltb a 0.
Proof.
  intros Hs. unfold Rltb.
  destruct (Rlt_dec (s * a) 0), (Rlt_dec a 0); try reflexivity; exfalso; nra.
Qed.

Lemma _LLDominantEigenvector_rough_scale dpa rough i s :
  0 < s ->
  _LLDominantEigenvector dpa (mkV (s * vx rough) (s * vy rough) (s * vz rough)) i
  = _LLDominantEigenvector dpa rough i.
Proof.
  intros Hs. unfold _LLDominantEigenvector. cbn [vx vy vz].
  destruct (get2 dpa i c0) as [x| |]; cbn [bind]; try reflexivity.
  destruct (get2 dpa i c1) as [y| |]; cbn [bind]; try reflexivity.
  destruct (get2 dpa i c2) as [z| |]; cbn [bind]; try reflexivity.
  replace (s * vx rough * x + s * vy rough * y + s * vz rough * z)
    with (s * (vx rough * x + vy rough * y + vz rough * z)) by ring.
  now rewrite Rltb_scale.
Qed.

Lemma dot_flip u v : dot u (flip v) = - dot u v.
Proof. unfold dot, flip. simpl. ring. Qed.

Lemma dot_sym u v : dot u v = dot v u.
Proof. unfold dot. ring. Qed.

Lemma dot_orient_nonneg rough v : 0 <= dot rough (orient rough v).
Proof.
  unfold orient, flip_if, Rltb.
  destruct (Rlt_dec (dot rough v) 0) as [H|H].
  - rewrite dot_flip. lra.
  - lra.
Qed.

Lemma norm_nonneg v : 0 <= norm v.
Proof. apply sqrt_pos. Qed.

Lemma dot_normalize_nonneg u v : 0 <= dot u v -> 0 <= dot u (normalize v).
Proof.
  intros H. unfold normalize, normalize_by.
  destruct (Rneqb (norm v) 0 && Rneqb (norm v) 1) eqn:E; [|exact H].
  apply Rneqb_and_true in E.
  assert (Hp : 0 < norm v) by (pose proof (norm_nonneg v); lra).
  replace (dot u (vdiv v (norm v))) with (dot u v * / norm v)
    by (unfold dot, vdiv; simpl; field; lra).
  apply Rmult_le_pos; [exact H|]. left. now apply Rinv_0_lt_compat.
Qed.

Lemma continuity_correction_nth_reference dpa rough i0 :
  (i0 < length dpa)%nat ->
  nth i0 (continuity_correction dpa rough i0) vzero
  = normalize (orient rough (nth i0 dpa vzero)).
Proof.
  intros H. unfold continuity_correction. cbv zeta.
  assert (L : length (rev (walk (orient rough (nth i0 dpa vzero)) (rev (firstn i0 dpa))))
              = i0)
    by (rewrite length_rev, walk_length, length_rev, length_firstn; lia).
  rewrite app_nth2 by lia. rewrite L, Nat.sub_diag. reflexivity.
Qed.

Lemma reference_sample_oriented dpa rough i0 :
  (i0 < length dpa)%nat ->
  exists r, _LLDominantEigenvector dpa rough (Z.of_nat i0) = Ok r
            /\ 0 <= dot rough (nth i0 r vzero).
Proof.
  intros H. exists (continuity_correction dpa rough i0). split.
  - now apply _LLDominantEigenvector_refines.
  - rewrite continuity_correction_nth_reference by assumption.
    apply dot_normalize_nonneg, dot_orient_nonneg.
Qed.

Lemma walk_keeps_axes dpa rough i0 :
  (i0 < length dpa)%nat ->
  exists r, _LLDominantEigenvector dpa rough (Z.of_nat i0) = Ok r
            /\ length r = length dpa
            /\ forall i, (i < length dpa)%nat ->
                 exists b : bool,
                   nth i r vzero = normalize (flip_if b (nth i dpa vzero)).
Proof.
  intros H. exists (continuity_correction dpa rough i0). split; [|split].
  - now apply _LLDominantEigenvector_refines.
  - now apply continuity_correction_length.
  - intros i Hi.
    exact (Forall2_nth corrected_from _ _
             (continuity_correction_corrected dpa rough i0 H) i vzero vzero Hi).
Qed.

(** *** Candidates of norm 1 *)

Lemma normalize_unit v : norm v = 1 -> normalize v = v.
Proof. intros H. unfold normalize. apply normalize_by_unit_or_zero. now left. Qed.

Lemma squared_norm_unit v : norm v = 1 -> squared_norm v = 1.
Proof. intros H. rewrite <- norm_sqr, H. ring. Qed.

Lemma dot_correct_unit u v : norm u = 1 -> - / 2 < dot u (correct u v).
Proof.
  intros Hu. apply squared_norm_unit in Hu.
  unfold correct, flip_if, Rgtb.
  destruct (Rgt_dec (squared_difference v u) (squared_norm v)) as [H|H].
  - rewrite dot_flip.
    unfold squared_difference, squared_norm, dot in *. nra.
  - unfold squared_difference, squared_norm, dot in *. nra.
Qed.

Lemma walk_unit_linked l : forall u,
  norm u = 1 -> Forall (fun v => norm v = 1) l -> linked (u :: walk u l).
Proof.
  induction l as [|v l IH]; intros u Hu Hl; [exact I|].
  inversion Hl as [|v' l' Hv Hl']; subst.
  assert (Hc : norm (correct u v) = 1) by (now rewrite norm_correct).
  cbn [walk]. rewrite (normalize_unit _ Hc).
  split; [now apply dot_correct_unit | now apply IH].
Qed.

Lemma linked_around B : forall x T,
  linked (x :: B) -> linked (x :: T) -> linked (rev B ++ x :: T).
Proof.
  induction B as [|b B IH]; intros x T HB HT; [exact HT|].
  cbn [rev]. rewrite <- app_assoc. cbn [app].
  destruct HB as [Hxb HB].
  apply IH; [exact HB|]. split; [|exact HT]. now rewrite dot_sym.
Qed.

Lemma linked_nth l : linked l ->
  forall i, (S i < length l)%nat ->
    - / 2 < dot (nth i l vzero) (nth (S i) l vzero).
Proof.
  induction l as [|a l IH]; intros H i Hi; [simpl in Hi; lia|].
  destruct l as [|b l]; [simpl in Hi; lia|].
  destruct H as [Hab H]. destruct i as [|i]; [exact Hab|].
  apply (IH H i). simpl in *. lia.
Qed.

Lemma continuity_correction_unit_linked dpa rough i0 :
  (i0 < length dpa)%nat ->
  Forall (fun v => norm v = 1) dpa ->
  linked (continuity_correction dpa rough i0).
Proof.
  intros H0 Hall.
  destruct (split_at dpa i0 vzero H0) as [E _].
  rewrite E in Hall. apply Forall_app in Hall. destruct Hall as [Hpre Hrest].
  inversion Hrest as [|v0 post Hv0 Hpost]; subst.
  unfold continuity_correction. cbv zeta.
  set (o := orient rough (nth i0 dpa vzero)).
  assert (Ho : norm o = 1) by (unfold o, orient; now rewrite norm_flip_if).
  rewrite (normalize_unit o Ho).
  apply linked_around.
  - apply walk_unit_linked; [exact Ho | now apply Forall_rev].
  - apply walk_unit_linked; assumption.
Qed.

Lemma unit_candidates_linked dpa rough i0 :
  (i0 < length dpa)%nat ->
  (forall i, (i < length dpa)%nat -> norm (nth i dpa vzero) = 1) ->
  exists r, _LLDominantEigenvector dpa rough (Z.of_nat i0) = Ok r
            /\ forall i, (S i < length dpa)%nat ->
                 - / 2 < dot (nth i r vzero) (nth (S i) r vzero).
Proof.
  intros H0 Hall. exists (continuity_correction dpa rough i0). split.
  - now apply _LLDominantEigenvector_refines.
  - intros i Hi. apply linked_nth.
    + apply continuity_correction_unit_linked; [assumption|].
      apply Forall_nth. intros j d Hj.
      rewrite nth_indep with (d' := vzero) by assumption. now apply Hall.
    + now rewrite continuity_correction_length.
Qed.

(** ** The corotating frame *)

Lemma qmul_one_r q : qmul q quaternion_one = q.
Proof.
  destruct q as [w x y z]. unfold qmul, quaternion_one. cbn.
  apply quaternion_eq; cbn; ring.
Qed.

Lemma item_outside {A} (l : list A) (i : Z) :
  (i < - Z.of_nat (length l) \/ Z.of_nat (length l) <= i)%Z ->
  item l i = Raise IndexError.
Proof. intros H. unfold item. now rewrite position_outside. Qed.

Lemma empty_series_tensor W : n_times W = 0%nat -> LLMatrix W = [].
Proof. intros H. apply length_zero_iff_nil. now rewrite LLMatrix_length. Qed.

Lemma empty_series_vector W : n_times W = 0%nat -> LdtVector W = [].
Proof. intros H. apply length_zero_iff_nil. now rewrite LdtVector_length. Qed.

Lemma empty_series_angular_velocity W :
  n_times W = 0%nat -> angular_velocity W = Ok [].
Proof.
  intros H. unfold angular_velocity. cbv zeta.
  now rewrite empty_series_tensor, empty_series_vector.
Qed.

Section FrameOutcomes.
Variable eigh : mat3 R -> vec3 R * mat3 R.
Variable integrate_angular_velocity :
  list R * list (vec3 R) -> R -> R -> quaternion -> R -> list R * list quaternion.
Variable max_norm_time : WaveformModes -> R.
Variable sqrt_of_rotor : quaternion -> quaternion.

Lemma corotating_frame_raises W R0 tolerance region e :
  angular_velocity W = Raise e ->
  corotating_frame eigh integrate_angular_velocity max_norm_time sqrt_of_rotor
    W R0 tolerance region = Raise e.
Proof. intros H. unfold corotating_frame. now rewrite H. Qed.

Lemma corotating_frame_empty W R0 tolerance region :
  n_times W = 0%nat ->
  corotating_frame eigh integrate_angular_velocity max_norm_time sqrt_of_rotor
    W R0 tolerance region = Raise IndexError.
Proof.
  intros H. unfold corotating_frame.
  rewrite (empty_series_angular_velocity W H). cbn [bind].
  rewrite (item_outside (t W) 0); [reflexivity|].
  right. unfold n_times in H. rewrite H. simpl. lia.
Qed.

Lemma corotating_frame_plain W R0 tolerance omega :
  angular_velocity W = Ok omega -> (0 < n_times W)%nat ->
  corotating_frame eigh integrate_angular_velocity max_norm_time sqrt_of_rotor
    W R0 tolerance None
  = Ok (snd (integrate_angular_velocity (t W, omega)
               (nth 0 (t W) 0) (nth (n_times W - 1) (t W) 0) R0 tolerance)).
Proof.
  intros H Hn. unfold corotating_frame. rewrite H. cbn [bind].
  rewrite (item_at (t W) 0 0%nat 0)
    by (apply (position_of_nat (length (t W)) 0); exact Hn).
  cbn [bind].
  rewrite (item_at (t W) (-1) (n_times W - 1)%nat 0)
    by (apply position_last; unfold n_times in *; lia).
  cbn [bind].
  destruct (integrate_angular_velocity _ _ _ _ _) as [t_ frame].
  cbn [bind snd]. f_equal.
  rewrite <- (map_id frame) at 2. apply map_ext. apply qmul_one_r.
Qed.

Lemma corotating_frame_short W R0 tolerance region omega :
  length (data W) = n_times W ->
  (0 < n_times W <= 10)%nat ->
  angular_velocity W = Ok omega ->
  corotating_frame eigh integrate_angular_velocity max_norm_time sqrt_of_rotor
    W R0 tolerance (Some region) = Raise IndexError.
Proof.
  intros Hshape [Hn Hshort] H. unfold corotating_frame. rewrite H. cbn [bind].
  rewrite (item_at (t W) 0 0%nat 0)
    by (apply (position_of_nat (length (t W)) 0); exact Hn).
  cbn [bind].
  rewrite (item_at (t W) (-1) (n_times W - 1)%nat 0)
    by (apply position_last; unfold n_times in *; lia).
  cbn [bind].
  destruct (integrate_angular_velocity _ _ _ _ _) as [t_ frame].
  destruct (alignment_window_bounds max_norm_time W region Hn)
    as [i1 [i2 [E _]]].
  rewrite E. cbn [bind].
  rewrite (angular_velocity_getitem W _ _ omega Hshape H). cbn [bind].
  rewrite item_outside; [reflexivity|].
  right. rewrite slice_length_clipped.
  destruct (angular_velocity_sound W omega H) as [Hlen _]. lia.
Qed.
End FrameOutcomes.

(** ** A series multiplied by a constant *)

Lemma read2_Cscale c data i k :
  read2 (Cscale c data) i k = (c * read2 data i k)%C.
Proof.
  unfold read2, Cscale.
  change (@nil C) with (map (Cmul c) []) at 1. rewrite map_nth.
  unfold row_read. rewrite length_map.
  destruct (position (length (nth i data [])) k) as [p|] eqn:E.
  - apply position_bound in E.
    rewrite nth_indep with (d' := Cmul c C0) by (now rewrite length_map).
    apply map_nth.
  - symmetry. apply Cmul_R0_r.
Qed.

Ltac scaled_term :=
  intros; rewrite !read2_Cscale;
  try destruct (_ <=? _)%Z; try destruct (_ >=? _)%Z;
  apply C_eq; unfold Cnorm2; simpl; ring.

Section ScaledTerms.
Variable c : C.
Variables data1 data2 : list (list C).
Variables i k : nat.
Variables L M : Z.
Let s : C := RtoC (Cnorm2 c).
Let d1 := Cscale c data1.
Let d2 := Cscale c data2.

Lemma scaled_Lp : Lp d1 d2 i k L M = (s * Lp data1 data2 i k L M)%C.
Proof. unfold Lp, d1, d2, s. scaled_term. Qed.
Lemma scaled_Lm : Lm d1 d2 i k L M = (s * Lm data1 data2 i k L M)%C.
Proof. unfold Lm, d1, d2, s. scaled_term. Qed.
Lemma scaled_Lz : Lz d1 d2 i k M = (s * Lz data1 data2 i k M)%C.
Proof. unfold Lz, d1, d2, s. scaled_term. Qed.
Lemma scaled_LpLp : LpLp d1 d2 i k L M = (s * LpLp data1 data2 i k L M)%C.
Proof. unfold LpLp, d1, d2, s. scaled_term. Qed.
Lemma scaled_LpLm : LpLm d1 d2 i k L M = (s * LpLm data1 data2 i k L M)%C.
Proof. unfold LpLm, d1, d2, s. scaled_term. Qed.
Lemma scaled_LmLp : LmLp d1 d2 i k L M = (s * LmLp data1 data2 i k L M)%C.
Proof. unfold LmLp, d1, d2, s. scaled_term. Qed.
Lemma scaled_LmLm : LmLm d1 d2 i k L M = (s * LmLm data1 data2 i k L M)%C.
Proof. unfold LmLm, d1, d2, s. scaled_term. Qed.
Lemma scaled_LpLz : LpLz d1 d2 i k L M = (s * LpLz data1 data2 i k L M)%C.
Proof. unfold LpLz, d1, d2, s. scaled_term. Qed.
Lemma scaled_LzLp : LzLp d1 d2 i k L M = (s * LzLp data1 data2 i k L M)%C.
Proof. unfold LzLp, d1, d2, s. scaled_term. Qed.
Lemma scaled_LmLz : LmLz d1 d2 i k L M = (s * LmLz data1 data2 i k L M)%C.
Proof. unfold LmLz, d1, d2, s. scaled_term. Qed.
Lemma scaled_LzLm : LzLm d1 d2 i k L M = (s * LzLm data1 data2 i k L M)%C.
Proof. unfold LzLm, d1, d2, s. scaled_term. Qed.
Lemma scaled_LzLz : LzLz d1 d2 i k M = (s * LzLz data1 data2 i k M)%C.
Proof. unfold LzLz, d1, d2, s. scaled_term. Qed.
End ScaledTerms.

Lemma mat3_eq (A B : mat3 R) :
  (forall a b : idx3, mget A a b = mget B a b) -> A = B.
Proof.
  intros H.
  destruct A as [[a00 a01 a02] [a10 a11 a12] [a20 a21 a22]].
  destruct B as [[b00 b01 b02] [b10 b11 b12] [b20 b21 b22]].
  pose proof (H c0 c0). pose proof (H c0 c1). pose proof (H c0 c2).
  pose proof (H c1 c0). pose proof (H c1 c1). pose proof (H c1 c2).
  pose proof (H c2 c0). pose proof (H c2 c1). pose proof (H c2 c2).
  unfold mget in *. simpl in *. congruence.
Qed.

Lemma mscale_mzero s : mscale s mzero = mzero.
Proof. apply mat3_eq. intros [] []; unfold mget; simpl; ring. Qed.

Lemma vscale_vzero s : vscale s vzero = vzero.
Proof. apply vec3_eq; simpl; ring. Qed.

Lemma LL_step_scaled c data lm k i A :
  LL_step (Cscale c data) lm k i (mscale (Cnorm2 c) A)
  = mscale (Cnorm2 c) (LL_step data lm k i A).
Proof.
  unfold LL_step. cbv zeta.
  rewrite scaled_LpLp, scaled_LpLm, scaled_LmLp, scaled_LmLm, scaled_LpLz,
    scaled_LzLp, scaled_LmLz, scaled_LzLm, scaled_LzLz.
  generalize (LpLp data data i k (lm_L lm k) (lm_M lm k)).
  generalize (LpLm data data i k (lm_L lm k) (lm_M lm k)).
  generalize (LmLp data data i k (lm_L lm k) (lm_M lm k)).
  generalize (LmLm data data i k (lm_L lm k) (lm_M lm k)).
  generalize (LpLz data data i k (lm_L lm k) (lm_M lm k)).
  generalize (LzLp data data i k (lm_L lm k) (lm_M lm k)).
  generalize (LmLz data data i k (lm_L lm k) (lm_M lm k)).
  generalize (LzLm data data i k (lm_L lm k) (lm_M lm k)).
  generalize (LzLz data data i k (lm_M lm k)).
  generalize (Cnorm2 c).
  intros s zz zm mz zp pz mm mp pm pp.
  apply mat3_eq. intros [] []; unfold mget; simpl; decimals; field.
Qed.

Lemma Ldt_step_scaled c data datadot lm k i v :
  Ldt_step (Cscale c data) (Cscale c datadot) lm k i (vscale (Cnorm2 c) v)
  = vscale (Cnorm2 c) (Ldt_step data datadot lm k i v).
Proof.
  unfold Ldt_step. cbv zeta.
  rewrite scaled_Lp, scaled_Lm, scaled_Lz.
  generalize (Lp data datadot i k (lm_L lm k) (lm_M lm k)).
  generalize (Lm data datadot i k (lm_L lm k) (lm_M lm k)).
  generalize (Lz data datadot i k (lm_M lm k)).
  generalize (Cnorm2 c).
  intros s z m p.
  apply vec3_eq; simpl; decimals; field.
Qed.

Lemma LL_row_scaled c data lm i :
  LL_row (Cscale c data) lm i = mscale (Cnorm2 c) (LL_row data lm i).
Proof.
  unfold LL_row.
  apply (fold_left_rel (fun A B : mat3 R => A = mscale (Cnorm2 c) B)).
  - intros A B k ->. apply LL_step_scaled.
  - symmetry. apply mscale_mzero.
Qed.

Lemma Ldt_row_scaled c data datadot lm i :
  Ldt_row (Cscale c data) (Cscale c datadot) lm i
  = vscale (Cnorm2 c) (Ldt_row data datadot lm i).
Proof.
  unfold Ldt_row.
  apply (fold_left_rel (fun u v : vec3 R => u = vscale (Cnorm2 c) v)).
  - intros u v k ->. apply Ldt_step_scaled.
  - symmetry. apply vscale_vzero.
Qed.

Lemma Cscale_length c data : length (Cscale c data) = length data.
Proof. apply length_map. Qed.

Lemma LLMatrix_rescaled c W :
  length (data W) = n_times W ->
  LLMatrix (rescaled c W) = map (mscale (Cnorm2 c)) (LLMatrix W).
Proof.
  intros Hshape.
  apply nth_ext with (d := mzero) (d' := mscale (Cnorm2 c) mzero).
  - rewrite length_map, !LLMatrix_length. reflexivity.
  - intros j Hj. rewrite LLMatrix_length in Hj.
    change (n_times (rescaled c W)) with (n_times W) in Hj.
    rewrite map_nth.
    rewrite !LLMatrix_nth
      by (try assumption; cbn [rescaled data]; rewrite ?Cscale_length, Hshape;
          assumption).
    apply LL_row_scaled.
Qed.

Lemma LdtVector_rescaled c W :
  length (data W) = n_times W ->
  LdtVector (rescaled c W) = map (vscale (Cnorm2 c)) (LdtVector W).
Proof.
  intros Hshape.
  apply nth_ext with (d := vzero) (d' := vscale (Cnorm2 c) vzero).
  - rewrite length_map, !LdtVector_length. reflexivity.
  - intros j Hj. rewrite LdtVector_length in Hj.
    change (n_times (rescaled c W)) with (n_times W) in Hj.
    rewrite map_nth.
    rewrite !LdtVector_nth
      by (try assumption; cbn [rescaled data]; rewrite ?Cscale_length, Hshape;
          assumption).
    apply Ldt_row_scaled.
Qed.

Lemma det3_mscale s A : det3 (mscale s A) = s * s * s * det3 A.
Proof.
  destruct A as [[a00 a01 a02] [a10 a11 a12] [a20 a21 a22]].
  unfold det3, mscale, vscale, mget. simpl. ring.
Qed.

Lemma det3_replace_scaled s A c b :
  det3 (replace_column (mscale s A) c (vscale s b))
  = s * s * s * det3 (replace_column A c b).
Proof.
  destruct A as [[a00 a01 a02] [a10 a11 a12] [a20 a21 a22]].
  destruct b as [b0 b1 b2].
  destruct c; unfold det3, replace_column, mscale, vscale, mget; simpl; ring.
Qed.

Lemma solve3_scaled s A b :
  s <> 0 -> solve3 (mscale s A) (vscale s b) = solve3 A b.
Proof.
  intros Hs. unfold solve3. rewrite !det3_replace_scaled, det3_mscale.
  destruct (Req_dec_T (s * s * s * det3 A) 0) as [E|E];
    destruct (Req_dec_T (det3 A) 0) as [E'|E']; try reflexivity.
  - exfalso. apply E'.
    apply Rmult_integral in E. destruct E as [E|E]; [|exact E].
    apply Rmult_integral in E. destruct E as [E|E]; [|contradiction].
    apply Rmult_integral in E. destruct E; contradiction.
  - exfalso. apply E. rewrite E'. ring.
  - f_equal. apply vec3_eq; cbn [vx vy vz]; field; auto.
Qed.

Lemma solve_scaled s ll : forall l,
  s <> 0 -> solve (map (mscale s) ll) (map (vscale s) l) = solve ll l.
Proof.
  induction ll as [|A ll IH]; intros [|b l] Hs; try reflexivity.
  cbn [map solve]. rewrite solve3_scaled by assumption.
  now rewrite IH.
Qed.

Lemma Cnorm2_nonzero c : c <> C0 -> Cnorm2 c <> 0.
Proof.
  intros H E. apply H. unfold Cnorm2 in E.
  destruct c as [x y]. simpl in E.
  assert (x = 0) by nra. assert (y = 0) by nra. subst. reflexivity.
Qed.

Lemma angular_velocity_rescaled c W :
  c <> C0 -> length (data W) = n_times W ->
  angular_velocity (rescaled c W) = angular_velocity W.
Proof.
  intros Hc Hshape. unfold angular_velocity. cbv zeta.
  rewrite LLMatrix_rescaled, LdtVector_rescaled by assumption.
  rewrite solve_scaled by (now apply Cnorm2_nonzero). reflexivity.
Qed.

(** ** Facts about the sample series *)

Lemma LLComparisonMatrix_entry_12_rows W1 W2 i :
  mget (nth i (LLComparisonMatrix W1 W2) Cmzero) c1 c2 = C0.
Proof.
  destruct (Nat.lt_ge_cases i (length (data W1))) as [Hd|Hd].
  - destruct (Nat.lt_ge_cases i (n_times W1)) as [Hn|Hn].
    + rewrite LLComparisonMatrix_nth by assumption. apply LLcmp_row_entry_12.
    + now rewrite nth_overflow by (now rewrite LLComparisonMatrix_length).
  - now rewrite LLComparisonMatrix_nth_untouched by assumption.
Qed.

Lemma modes_in_range_lm1 : modes_in_range lm1.
Proof. apply complete_blocks_in_range, complete_blocks_lm1. Qed.

Lemma modes_in_range_lm12 : modes_in_range lm12.
Proof. apply complete_blocks_in_range, complete_blocks_lm12. Qed.

Lemma sample1_rotating i k :
  (i < n_times sample1)%nat -> (k < length (LM sample1))%nat ->
  read2 (data_dot sample1) i (Z.of_nat k)
  = (mkC 0 (- -1 * IZR (lm_M (LM sample1) k))
     * read2 (data sample1) i (Z.of_nat k))%C.
Proof.
  intros Hi Hk. unfold n_times, sample1 in Hi. simpl in Hi.
  assert (i = 0%nat) by lia. subst i.
  unfold sample1, LM, lm1 in Hk. simpl in Hk.
  destruct k as [|[|[|k]]]; try lia; apply C_eq; unfold lm_M, lm1; simpl; lra.
Qed.

Lemma angular_velocity_sample1 : angular_velocity sample1 = Ok [mkV 0 0 (-1)].
Proof.
  apply (angular_velocity_rigid_rotation sample1 (-1)).
  - exact complete_blocks_lm1.
  - reflexivity.
  - exact sample1_rotating.
  - exact det3_LLMatrix_sample1.
Qed.

Lemma sample_m0_only_m0 k :
  (k < length (LM sample_m0))%nat -> lm_M (LM sample_m0) k <> 0%Z ->
  read2 (data sample_m0) 0 (Z.of_nat k) = C0.
Proof.
  intros Hk. unfold sample_m0, LM, lm1 in Hk. simpl in Hk.
  destruct k as [|[|[|k]]]; try lia; intros H; try reflexivity.
  exfalso. now apply H.
Qed.

Lemma sample_m0_shape : (0 < n_times sample_m0)%nat.
Proof. unfold n_times, sample_m0. simpl. lia. Qed.

Lemma angular_velocity_sample_m0 : angular_velocity sample_m0 = Raise LinAlgError.
Proof.
  apply (angular_velocity_axisymmetric sample_m0 0).
  - exact complete_blocks_lm1.
  - exact sample_m0_shape.
  - exact sample_m0_only_m0.
Qed.

Lemma det3_LLMatrix_sample_m0 : det3 (nth 0 (LLMatrix sample_m0) mzero) = 0.
Proof.
  rewrite LLMatrix_nth by (unfold n_times, sample_m0; simpl; lia).
  apply axisymmetric_row_singular.
  - exact complete_blocks_lm1.
  - exact sample_m0_only_m0.
Qed.

Lemma dpa_unit_norms i :
  (i < length dpa_unit)%nat -> norm (nth i dpa_unit vzero) = 1.
Proof.
  intros H. unfold dpa_unit in *. simpl in H.
  destruct i as [|[|i]]; try lia; simpl.
  - apply norm_z. lra.
  - rewrite norm_z_neg by lra. lra.
Qed.

Lemma sample11_shape : length (data sample11) = n_times sample11.
Proof. reflexivity. Qed.

Lemma LLDominantEigenvector_empty eigh W rough i :
  n_times W = 0%nat -> LLDominantEigenvector eigh W rough i = Undef.
Proof.
  intros H. rewrite LLDominantEigenvector_walk.
  apply _LLDominantEigenvector_undefined.
  unfold inside. rewrite candidates_length, H. simpl. lia.
Qed.

(** ** The rough direction of the alignment *)


Section ElevenSamples.
Variable eigh : mat3 R -> vec3 R * mat3 R.
Variable integrate_angular_velocity :
  list R * list (vec3 R) -> R -> R -> quaternion -> R -> list R * list quaternion.
Variable max_norm_time : WaveformModes -> R.
Variable sqrt_of_rotor : quaternion -> quaternion.

End ElevenSamples.



(** * Lemmas for the dominant eigenvector and the alignment window *)

(** ** Norms after the walk, whatever the eigensolver *)

Lemma norm_zero_vector v : norm v = 0 -> v = mkV 0 0 0.
Proof.
  intros H. pose proof (norm_sqr v) as S. rewrite H in S.
  unfold squared_norm in S. destruct v as [x y z]. simpl in *.
  assert (x = 0) by nra. assert (y = 0) by nra. assert (z = 0) by nra.
  now subst.
Qed.

Lemma corrected_from_zero v r : corrected_from v r -> norm v = 0 -> r = v.
Proof.
  intros [b ->] H. rewrite (norm_zero_vector v H).
  assert (F : flip (mkV 0 0 0) = mkV 0 0 0) by (apply vec3_eq; simpl; ring).
  destruct b; cbn [flip_if]; rewrite ?F; apply normalize_zero.
Qed.

Lemma dominant_eigenvector_norms eigh W rough i0 :
  (i0 < n_times W)%nat ->
  exists r,
    LLDominantEigenvector eigh W rough (Z.of_nat i0) = Ok r
    /\ length r = n_times W
    /\ (forall i, (i < n_times W)%nat ->
          let v := column2 (snd (eigh (nth i (LLMatrix W) mzero))) in
          (norm v <> 0 -> norm (nth i r vzero) = 1)
          /\ (norm v = 0 -> nth i r vzero = v))
    /\ ((forall A, symmetric A -> A <> mzero -> norm (column2 (snd (eigh A))) <> 0) ->
        forall i, (i < n_times W)%nat ->
          nth i (LLMatrix W) mzero <> mzero -> norm (nth i r vzero) = 1).
Proof.
  intros H0.
  assert (H0' : (i0 < length (candidates eigh W))%nat)
    by (now rewrite candidates_length).
  exists (continuity_correction (candidates eigh W) rough i0).
  rewrite LLDominantEigenvector_walk.
  assert (U : forall i, (i < n_times W)%nat ->
            norm (column2 (snd (eigh (nth i (LLMatrix W) mzero)))) <> 0 ->
            norm (nth i (continuity_correction (candidates eigh W) rough i0) vzero) = 1).
  { intros i Hi Hv. apply continuity_correction_unit; rewrite ?candidates_length; auto.
    now rewrite candidates_nth. }
  split; [now apply _LLDominantEigenvector_refines|].
  split; [rewrite continuity_correction_length; auto; apply candidates_length|].
  split.
  - intros i Hi. cbv zeta. split; [now apply U|].
    intros Hv. rewrite <- candidates_nth in * by assumption.
    apply corrected_from_zero; [|exact Hv].
    apply (Forall2_nth corrected_from _ _
             (continuity_correction_corrected (candidates eigh W) rough i0 H0')).
    now rewrite candidates_length.
  - intros Hnz i Hi Ht. apply U; [assumption|].
    apply Hnz; [apply LLMatrix_nth_symmetric | assumption].
Qed.

Lemma norm_eigh_unnormalized A : norm (column2 (snd (eigh_unnormalized A))) = 2.
Proof.
  change (column2 (snd (eigh_unnormalized A))) with (mkV 0 0 2).
  apply norm_z. lra.
Qed.

(** ** The value that the alignment returns *)

Section WindowValue.
Variable eigh : mat3 R -> vec3 R * mat3 R.
Variable integrate_angular_velocity :
  list R * list (vec3 R) -> R -> R -> quaternion -> R -> list R * list quaternion.
Variable max_norm_time : WaveformModes -> R.
Variable sqrt_of_rotor : quaternion -> quaternion.

End WindowValue.

(** ** The rising series *)













Lemma window_rotor_one :
  window_rotor sqrt_of_one [quaternion_one] [zhat] = quaternion_one.
Proof. unfold window_rotor. cbv zeta. cbn [combine map]. apply correction_rotor_sample11. Qed.



(** * The claims *)

(** C1, as amended: for a series whose mode table holds complete [m]
    blocks, at every time sample the real part of [LLComparisonMatrix(W, W)]
    equals [LLMatrix(W)] at the entries (0,0), (0,1), (0,2), (1,0), (2,0),
    (2,1) and (2,2), and its imaginary part is zero at the diagonal entries
    (0,0) and (2,2).  (Off the diagonal the imaginary part is kept, see
    [LLComparisonMatrix_self_imaginary]; nothing is said of the entries (1,1)
    and (1,2).) *)
Theorem LLComparisonMatrix_self (W : WaveformModes) (i : nat) :
  complete_blocks (LM W) ->
  let cmp := nth i (LLComparisonMatrix W W) Cmzero in
  let ll := nth i (LLMatrix W) mzero in
  re (mget cmp c0 c0) = mget ll c0 c0
  /\ re (mget cmp c0 c1) = mget ll c0 c1
  /\ re (mget cmp c0 c2) = mget ll c0 c2
  /\ re (mget cmp c1 c0) = mget ll c1 c0
  /\ re (mget cmp c2 c0) = mget ll c2 c0
  /\ re (mget cmp c2 c1) = mget ll c2 c1
  /\ re (mget cmp c2 c2) = mget ll c2 c2
  /\ im (mget cmp c0 c0) = 0
  /\ im (mget cmp c2 c2) = 0.
Proof. apply LLComparisonMatrix_self_rows. Qed.

Lemma LLComparisonMatrix_self_witness :
  complete_blocks (LM sample12)
  /\ re (mget (nth 0 (LLComparisonMatrix sample12 sample12) Cmzero) c2 c1)
     = mget (nth 0 (LLMatrix sample12) mzero) c2 c1
  /\ im (mget (nth 0 (LLComparisonMatrix sample12 sample12) Cmzero) c0 c0) = 0.
Proof.
  split; [exact complete_blocks_lm12|].
  pose proof (LLComparisonMatrix_self sample12 0 complete_blocks_lm12) as H.
  cbv zeta in H. split; apply H.
Defined.

(** C1, the claim as stated fails: on the sample series [sample1] the entry
    (0,1) of [LLComparisonMatrix(sample1, sample1)] is [0.5j], of imaginary part 0.5,
    where [LLMatrix(sample1)] holds 0. *)
Lemma LLComparisonMatrix_self_imaginary :
  mget (nth 0 (LLComparisonMatrix sample1 sample1) Cmzero) c0 c1 = mkC 0 0.5
  /\ mget (nth 0 (LLMatrix sample1) mzero) c0 c1 = 0.
Proof.
  rewrite LLComparisonMatrix_nth, LLMatrix_nth by apply sample1_shape.
  rewrite LLcmp_row_sample1, LL_row_sample1. split; reflexivity.
Qed.

(** C2, as amended: at every time sample the tensor returned by [LLMatrix]
    is symmetric, entry [(a, b)] equals entry [(b, a)]: both entries of a
    transpose pair accumulate the same average of the two bilinear terms.
    ([LLComparisonMatrix] has no such step: see
    [LLComparisonMatrix_not_symmetric].) *)
Theorem LLMatrix_symmetric (W : WaveformModes) (i : nat) (a b : idx3) :
  mget (nth i (LLMatrix W) mzero) a b = mget (nth i (LLMatrix W) mzero) b a.
Proof. apply LLMatrix_nth_symmetric. Qed.

(** C2, the claim as stated fails for [LLComparisonMatrix]: on the sample
    series [sample1] its entry [(0, 1)] is [0.5j] and its entry [(1, 0)] is
    [-0.5j]. *)
Lemma LLComparisonMatrix_not_symmetric :
  mget (nth 0 (LLComparisonMatrix sample1 sample1) Cmzero) c0 c1 = mkC 0 0.5
  /\ mget (nth 0 (LLComparisonMatrix sample1 sample1) Cmzero) c1 c0 = mkC 0 (- 0.5).
Proof.
  rewrite LLComparisonMatrix_nth by apply sample1_shape.
  rewrite LLcmp_row_sample1. split; reflexivity.
Qed.




(** C4: for a reference index inside the array the walk returns the
    continuity correction as the spec words it: the candidate at [i0] is
    turned iff its dot product with the rough direction is negative; going
    outwards to either end each candidate is turned iff its squared
    difference from its corrected neighbour exceeds its own squared norm; and
    every sample ends up divided by its norm (a division the loops perform
    one step late, and after each loop for the sample at the end). *)
Theorem continuity_walk_refines (dpa : list (vec3 R)) (rough : vec3 R) (i0 : nat) :
  (i0 < length dpa)%nat ->
  _LLDominantEigenvector dpa rough (Z.of_nat i0)
  = Ok (continuity_correction dpa rough i0).
Proof. apply _LLDominantEigenvector_refines. Qed.

Lemma continuity_walk_refines_witness :
  (1 < length dpa3)%nat
  /\ _LLDominantEigenvector dpa3 zhat 1 = Ok [mkV 0 0 1; mkV 0 0 1; mkV 0 0 1].
Proof.
  assert (H : (1 < length dpa3)%nat) by (simpl; lia).
  split; [exact H|].
  rewrite <- continuity_correction_dpa3.
  exact (continuity_walk_refines dpa3 zhat 1 H).
Defined.

(** C5: whenever [angular_velocity] returns, its result [omega] has one
    vector per time sample and satisfies at each sample, on its own, the
    system [<Ldt> = - <LL> . omega] built from the same series; and it does
    return when the tensor is non-singular at every sample. *)
Theorem angular_velocity_solves (W : WaveformModes) :
  (forall omega, angular_velocity W = Ok omega ->
     length omega = n_times W
     /\ forall i, (i < n_times W)%nat ->
          nth i (LdtVector W) vzero
          = vopp (mat_vec (nth i (LLMatrix W) mzero) (nth i omega vzero)))
  /\ ((forall i, (i < n_times W)%nat -> det3 (nth i (LLMatrix W) mzero) <> 0) ->
      exists omega, angular_velocity W = Ok omega).
Proof.
  split.
  - apply angular_velocity_sound.
  - apply angular_velocity_total.
Qed.

Lemma angular_velocity_solves_witness :
  exists omega,
    angular_velocity sample1 = Ok omega
    /\ length omega = 1%nat
    /\ mkV 0 0 1
       = vopp (mat_vec (mkV (mkV 0.5 0 0) (mkV 0 0.5 0) (mkV 0 0 1))
                 (nth 0 omega vzero)).
Proof.
  destruct (angular_velocity_solves sample1) as [Hsound Htotal].
  destruct (Htotal det3_LLMatrix_sample1) as [omega E].
  exists omega. split; [exact E|].
  destruct (Hsound omega E) as [Hlen Heq]. split; [exact Hlen|].
  specialize (Heq 0%nat (proj1 sample1_shape)).
  rewrite LdtVector_sample1, LLMatrix_sample1 in Heq. exact Heq.
Defined.

(** C6: for a reference index inside the series, [LLDominantEigenvector]
    returns one vector per time sample, and the walk itself gives the norms,
    whatever the eigensolver hands to it: a sample whose candidate (the last
    column of [eigenvecs]) is not the zero vector has Euclidean norm 1,
    because the walk divides it by its norm; and a candidate of norm zero is
    left as it is, its normalization skipped.  So the field has norm 1 at
    every sample whose tensor is not exactly zero as soon as the eigensolver
    returns a non-zero eigenvector for every symmetric tensor that is not
    zero. *)
Theorem dominant_eigenvector_unit (eigh : mat3 R -> vec3 R * mat3 R)
    (W : WaveformModes) (rough : vec3 R) (i0 : nat) :
  (i0 < n_times W)%nat ->
  exists r,
    LLDominantEigenvector eigh W rough (Z.of_nat i0) = Ok r
    /\ length r = n_times W
    /\ (forall i, (i < n_times W)%nat ->
          let v := column2 (snd (eigh (nth i (LLMatrix W) mzero))) in
          (norm v <> 0 -> norm (nth i r vzero) = 1)
          /\ (norm v = 0 -> nth i r vzero = v))
    /\ ((forall A, symmetric A -> A <> mzero -> norm (column2 (snd (eigh A))) <> 0) ->
        forall i, (i < n_times W)%nat ->
          nth i (LLMatrix W) mzero <> mzero -> norm (nth i r vzero) = 1).
Proof. apply dominant_eigenvector_norms. Qed.

Lemma dominant_eigenvector_unit_witness :
  (0 < n_times sample11)%nat
  /\ norm (column2 (snd (eigh_unnormalized (nth 5 (LLMatrix sample11) mzero)))) = 2
  /\ exists r,
       LLDominantEigenvector eigh_unnormalized sample11 zhat (Z.of_nat 0) = Ok r
       /\ length r = n_times sample11
       /\ norm (nth 5 r vzero) = 1.
Proof.
  assert (Hn : (0 < n_times sample11)%nat) by (unfold n_times, sample11; simpl; lia).
  assert (H5 : (5 < n_times sample11)%nat) by (unfold n_times, sample11; simpl; lia).
  split; [exact Hn|]. split; [apply norm_eigh_unnormalized|].
  destruct (dominant_eigenvector_unit eigh_unnormalized sample11 zhat 0 Hn)
    as [r (E & L & U & _)].
  exists r. split; [exact E|]. split; [exact L|].
  apply (proj1 (U 5%nat H5)). rewrite norm_eigh_unnormalized. lra.
Defined.

Section AlignmentWindow.
Variable eigh : mat3 R -> vec3 R * mat3 R.
Variable integrate_angular_velocity :
  list R * list (vec3 R) -> R -> R -> quaternion -> R -> list R * list quaternion.
Variable max_norm_time : WaveformModes -> R.
Variable sqrt_of_rotor : quaternion -> quaternion.

End AlignmentWindow.



(** C8, as amended: [LLDominantEigenvector] makes no check of the
    reference index and raises nothing.  For an index in
    [[-n_times, n_times)] it returns a result, a negative index counting
    from the end of the series; for any other index its first read lies
    outside the array, and the run has no defined outcome. *)
Theorem reference_index_unchecked (eigh : mat3 R -> vec3 R * mat3 R)
    (W : WaveformModes) (rough : vec3 R) (i : Z) :
  never_raises (LLDominantEigenvector eigh W rough i)
  /\ ((- Z.of_nat (n_times W) <= i < Z.of_nat (n_times W))%Z ->
      exists r, LLDominantEigenvector eigh W rough i = Ok r
                /\ length r = n_times W)
  /\ (~ (- Z.of_nat (n_times W) <= i < Z.of_nat (n_times W))%Z ->
      LLDominantEigenvector eigh W rough i = Undef).
Proof.
  change (LLDominantEigenvector eigh W rough i)
    with (_LLDominantEigenvector (candidates eigh W) rough i).
  split; [|split].
  - apply never_raises__LLDominantEigenvector.
  - intros Hi.
    destruct (_LLDominantEigenvector_defined (candidates eigh W) rough i) as [r [E L]].
    + unfold inside. now rewrite (candidates_length eigh).
    + exists r. split; [exact E|]. now rewrite L, (candidates_length eigh).
  - intros Hi. apply _LLDominantEigenvector_undefined.
    unfold inside. now rewrite (candidates_length eigh).
Qed.

Lemma reference_index_unchecked_witness :
  (- Z.of_nat (n_times sample1) <= -1 < Z.of_nat (n_times sample1))%Z
  /\ exists r, LLDominantEigenvector eigh_diagonal sample1 zhat (-1) = Ok r
               /\ length r = n_times sample1.
Proof.
  assert (H : (- Z.of_nat (n_times sample1) <= -1 < Z.of_nat (n_times sample1))%Z)
    by (unfold n_times, sample1; simpl; lia).
  split; [exact H|].
  exact (proj1 (proj2 (reference_index_unchecked eigh_diagonal sample1 zhat (-1))) H).
Defined.

(** C8, the claim as stated fails: with the reference index [-1], outside
    [[0, n_times)], the call on the one-sample series [sample1] returns the
    corrected field. *)
Lemma reference_index_minus_one_returns :
  LLDominantEigenvector eigh_diagonal sample1 zhat (-1) = Ok [zhat].
Proof.
  unfold LLDominantEigenvector. cbv zeta.
  change (_LLMatrix (data sample1) (LM sample1) (zeros3 0 (n_times sample1))) with (LLMatrix sample1).
  rewrite LLMatrix_sample1. cbn [map snd eigh_diagonal].
  change (column2 identity) with zhat.
  apply _LLDominantEigenvector_last.
Qed.

(** C9: no run of the walk divides by zero, whatever the array (samples of
    norm zero included) and whatever the reference index: each division by a
    stored norm sits under the test that the norm differs from 0 and from 1,
    and a division by zero would raise [ZeroDivisionError]. *)
Theorem walk_never_divides_by_zero (dpa : list (vec3 R)) (dpa_i : vec3 R)
    (i_index : Z) :
  zero_division (_LLDominantEigenvector dpa dpa_i i_index) = false
  /\ (forall i c p, position (length dpa) i = Some p ->
        zero_division (idiv2 dpa i c 0) = true)
  /\ (forall i LastNorm,
        LastNorm = 0 \/ LastNorm = 1 ->
        (if Rneqb LastNorm 0 && Rneqb LastNorm 1
         then divide_row dpa i LastNorm else Ok dpa) = Ok dpa).
Proof.
  split; [|split].
  - pose proof (never_raises__LLDominantEigenvector dpa dpa_i i_index) as H.
    destruct (_LLDominantEigenvector dpa dpa_i i_index) as [r|e|]; try reflexivity.
    exfalso. now apply (H e).
  - intros i c p Hp. now rewrite (idiv2_by_zero _ _ _ _ Hp).
  - intros i LastNorm [-> | ->]; rewrite Rneqb_refl; simpl; auto.
    now rewrite andb_false_r.
Qed.

Lemma walk_never_divides_by_zero_witness :
  _LLDominantEigenvector dpa_zero zhat 0 = Ok [mkV 0 0 1; mkV 0 0 0]
  /\ zero_division (_LLDominantEigenvector dpa_zero zhat 0) = false.
Proof.
  split.
  - rewrite <- continuity_correction_dpa_zero.
    apply (_LLDominantEigenvector_refines dpa_zero zhat 0). simpl. lia.
  - exact (proj1 (walk_never_divides_by_zero dpa_zero zhat 0)).
Defined.

(** C10: for a series whose [data] has one row per time, [LdtVector] returns
    [n_times] rows of three reals; row [i] holds the sums over the modes of
    [0.5 * (Im L+ + Im L-)], [-0.5 * (Re L+ - Re L-)] and [Im Lz], and each
    component is the imaginary part of the same component of the complex
    contraction that [_LVector] computes from [data] and [data_dot]. *)
Theorem LdtVector_real_accumulation (W : WaveformModes) :
  length (data W) = n_times W ->
  length (LdtVector W) = n_times W
  /\ forall i, (i < n_times W)%nat ->
       nth i (LdtVector W) vzero
       = mkV (Rsum (fun k =>
                0.5 * (im (Lp (data W) (data_dot W) i k (lm_L (LM W) k) (lm_M (LM W) k))
                       + im (Lm (data W) (data_dot W) i k (lm_L (LM W) k) (lm_M (LM W) k))))
                (length (LM W)))
             (Rsum (fun k =>
                - 0.5 * (re (Lp (data W) (data_dot W) i k (lm_L (LM W) k) (lm_M (LM W) k))
                         - re (Lm (data W) (data_dot W) i k (lm_L (LM W) k) (lm_M (LM W) k))))
                (length (LM W)))
             (Rsum (fun k => im (Lz (data W) (data_dot W) i k (lm_M (LM W) k)))
                (length (LM W)))
       /\ forall c : idx3,
            vget (nth i (LdtVector W) vzero) c
            = im (vget (nth i (_LVector (data W) (data_dot W) (LM W)
                                 (zeros2 C0 (n_times W))) Cvzero) c).
Proof.
  intros Hshape. split; [apply LdtVector_length|].
  intros i Hi.
  rewrite LdtVector_nth by (rewrite ?Hshape; assumption).
  split.
  - apply Ldt_row_sums.
  - intros c. rewrite _LVector_nth by (rewrite ?Hshape; assumption).
    apply Ldt_row_imaginary.
Qed.

Lemma LdtVector_real_accumulation_witness :
  length (data sample1) = n_times sample1
  /\ length (LdtVector sample1) = n_times sample1
  /\ vget (nth 0 (LdtVector sample1) vzero) c2
     = im (vget (nth 0 (_LVector (data sample1) (data_dot sample1) (LM sample1)
                          (zeros2 C0 (n_times sample1))) Cvzero) c2).
Proof.
  split; [reflexivity|].
  destruct (LdtVector_real_accumulation sample1 eq_refl) as [Hlen Hrows].
  split; [exact Hlen|].
  destruct (Hrows 0%nat (proj1 sample1_shape)) as [_ Him]. apply Him.
Defined.

(** * Further properties of the module *)

(** X1: for a series whose mode table holds complete [m] blocks, the
    contraction [LVector(W, W)] of the series with itself is real: at every
    time sample the imaginary part of each of its three components is zero
    (the operators [Lx], [Ly], [Lz] are Hermitian). *)
Theorem LVector_self_real (W : WaveformModes) (i : nat) (c : idx3) :
  complete_blocks (LM W) ->
  im (vget (nth i (LVector W W) Cvzero) c) = 0.
Proof. apply LVector_self_rows_real. Qed.

Lemma LVector_self_real_witness :
  complete_blocks (LM sample12)
  /\ im (vget (nth 0 (LVector sample12 sample12) Cvzero) c0) = 0.
Proof.
  split; [exact complete_blocks_lm12|].
  exact (LVector_self_real sample12 0 c0 complete_blocks_lm12).
Defined.

(** X2: [LLComparisonMatrix] never writes the entry (1,2): whatever the two
    series, that entry of the result is zero at every time sample (the
    [LyLz] term is added to the entry (1,1) instead). *)
Theorem LLComparisonMatrix_entry_12_unwritten (W1 W2 : WaveformModes) (i : nat) :
  mget (nth i (LLComparisonMatrix W1 W2) Cmzero) c1 c2 = C0.
Proof. apply LLComparisonMatrix_entry_12_rows. Qed.

(** X3: for a series whose mode table holds complete [m] blocks, the
    entries (0,1) and (0,2) of [LLComparisonMatrix(W, W)] are the complex
    conjugates of their transposes (1,0) and (2,0), at every time sample. *)
Theorem LLComparisonMatrix_self_hermitian (W : WaveformModes) (i : nat) :
  complete_blocks (LM W) ->
  let cmp := nth i (LLComparisonMatrix W W) Cmzero in
  mget cmp c0 c1 = conjugate (mget cmp c1 c0)
  /\ mget cmp c0 c2 = conjugate (mget cmp c2 c0).
Proof. apply LLComparisonMatrix_self_hermitian_rows. Qed.

Lemma LLComparisonMatrix_self_hermitian_witness :
  complete_blocks (LM sample12)
  /\ mget (nth 0 (LLComparisonMatrix sample12 sample12) Cmzero) c0 c2
     = conjugate (mget (nth 0 (LLComparisonMatrix sample12 sample12) Cmzero) c2 c0).
Proof.
  split; [exact complete_blocks_lm12|].
  exact (proj2 (LLComparisonMatrix_self_hermitian sample12 0 complete_blocks_lm12)).
Defined.

(** X4: when every mode of the table of [W1] lies in its range
    [-ell <= m <= ell], the entries (0,1) and (1,0) of
    [LLComparisonMatrix(W1, W2)] differ by [1j] times the z component of
    [LVector(W1, W2)], at every time sample: the commutation relation
    [Lx Ly - Ly Lx = i Lz]. *)
Theorem LLComparisonMatrix_commutator (W1 W2 : WaveformModes) (i : nat) :
  modes_in_range (LM W1) ->
  (mget (nth i (LLComparisonMatrix W1 W2) Cmzero) c0 c1
   - mget (nth i (LLComparisonMatrix W1 W2) Cmzero) c1 c0)%C
  = (mkC 0 1 * vget (nth i (LVector W1 W2) Cvzero) c2)%C.
Proof. apply LLComparisonMatrix_commutator_rows. Qed.

Lemma LLComparisonMatrix_commutator_witness :
  modes_in_range (LM sample12)
  /\ (mget (nth 0 (LLComparisonMatrix sample12 sample1) Cmzero) c0 c1
      - mget (nth 0 (LLComparisonMatrix sample12 sample1) Cmzero) c1 c0)%C
     = (mkC 0 1 * vget (nth 0 (LVector sample12 sample1) Cvzero) c2)%C.
Proof.
  split; [exact modes_in_range_lm12|].
  exact (LLComparisonMatrix_commutator sample12 sample1 0 modes_in_range_lm12).
Defined.

(** X5: when every mode of the table lies in its range and [data] has one
    row per time, the trace of the tensor of [LLMatrix] at a time sample is
    the sum over the modes of [ell (ell + 1) |f|^2], the expectation value of
    the total angular momentum squared; so the trace is never negative. *)
Theorem LLMatrix_trace (W : WaveformModes) (i : nat) :
  modes_in_range (LM W) -> length (data W) = n_times W -> (i < n_times W)%nat ->
  let A := nth i (LLMatrix W) mzero in
  mget A c0 c0 + mget A c1 c1 + mget A c2 c2
  = Rsum (fun k => IZR (lm_L (LM W) k) * (IZR (lm_L (LM W) k) + 1)
                   * Cnorm2 (read2 (data W) i (Z.of_nat k))) (length (LM W))
  /\ 0 <= mget A c0 c0 + mget A c1 c1 + mget A c2 c2.
Proof.
  intros H Hshape Hi. cbv zeta. split.
  - apply LLMatrix_trace_rows; rewrite ?Hshape; assumption.
  - now apply LLMatrix_trace_nonneg.
Qed.

Lemma LLMatrix_trace_witness :
  modes_in_range (LM sample1)
  /\ length (data sample1) = n_times sample1
  /\ (0 < n_times sample1)%nat
  /\ mget (nth 0 (LLMatrix sample1) mzero) c0 c0
     + mget (nth 0 (LLMatrix sample1) mzero) c1 c1
     + mget (nth 0 (LLMatrix sample1) mzero) c2 c2
     = Rsum (fun k => IZR (lm_L (LM sample1) k) * (IZR (lm_L (LM sample1) k) + 1)
                      * Cnorm2 (read2 (data sample1) 0 (Z.of_nat k)))
         (length (LM sample1)).
Proof.
  split; [exact modes_in_range_lm1|]. split; [reflexivity|].
  split; [exact (proj1 sample1_shape)|].
  exact (proj1 (LLMatrix_trace sample1 0 modes_in_range_lm1 eq_refl
                  (proj1 sample1_shape))).
Defined.

(** X6: [angular_velocity] raises [LinAlgError] as soon as the tensor of
    [LLMatrix] is singular at some time sample of the series. *)
Theorem angular_velocity_singular (W : WaveformModes) (i : nat) :
  (i < n_times W)%nat -> det3 (nth i (LLMatrix W) mzero) = 0 ->
  angular_velocity W = Raise LinAlgError.
Proof. apply angular_velocity_singular_at. Qed.

Lemma angular_velocity_singular_witness :
  (0 < n_times sample_m0)%nat
  /\ det3 (nth 0 (LLMatrix sample_m0) mzero) = 0
  /\ angular_velocity sample_m0 = Raise LinAlgError.
Proof.
  split; [exact sample_m0_shape|]. split; [exact det3_LLMatrix_sample_m0|].
  exact (angular_velocity_singular sample_m0 0 sample_m0_shape
           det3_LLMatrix_sample_m0).
Defined.

(** X7: a series whose mode table holds complete [m] blocks and in which,
    at some time sample, only modes with [m = 0] are non-zero (an
    axisymmetric sample) has a singular tensor there, and [angular_velocity]
    raises [LinAlgError] on it. *)
Theorem axisymmetric_sample_singular (W : WaveformModes) (i : nat) :
  complete_blocks (LM W) -> (i < n_times W)%nat ->
  (forall k, (k < length (LM W))%nat -> lm_M (LM W) k <> 0%Z ->
     read2 (data W) i (Z.of_nat k) = C0) ->
  angular_velocity W = Raise LinAlgError.
Proof. apply angular_velocity_axisymmetric. Qed.

Lemma axisymmetric_sample_singular_witness :
  complete_blocks (LM sample_m0)
  /\ (0 < n_times sample_m0)%nat
  /\ (forall k, (k < length (LM sample_m0))%nat -> lm_M (LM sample_m0) k <> 0%Z ->
        read2 (data sample_m0) 0 (Z.of_nat k) = C0)
  /\ angular_velocity sample_m0 = Raise LinAlgError.
Proof.
  split; [exact complete_blocks_lm1|]. split; [exact sample_m0_shape|].
  split; [exact sample_m0_only_m0|].
  exact (axisymmetric_sample_singular sample_m0 0 complete_blocks_lm1
           sample_m0_shape sample_m0_only_m0).
Defined.

(** X8: for a series that rotates rigidly about the z axis at the rate
    [omega], that is, whose time derivative of the mode [(ell, m)] is
    [-1j * m * omega] times the mode, over a mode table of complete [m]
    blocks, with one row of [data] per time and a non-singular tensor at
    every sample, [angular_velocity] returns the vector [(0, 0, omega)] at
    every time sample. *)
Theorem rigid_rotation_angular_velocity (W : WaveformModes) (omega : R) :
  complete_blocks (LM W) -> length (data W) = n_times W ->
  (forall i k, (i < n_times W)%nat -> (k < length (LM W))%nat ->
     read2 (data_dot W) i (Z.of_nat k)
     = (mkC 0 (- omega * IZR (lm_M (LM W) k)) * read2 (data W) i (Z.of_nat k))%C) ->
  (forall i, (i < n_times W)%nat -> det3 (nth i (LLMatrix W) mzero) <> 0) ->
  angular_velocity W = Ok (repeat (mkV 0 0 omega) (n_times W)).
Proof. apply angular_velocity_rigid_rotation. Qed.

Lemma rigid_rotation_angular_velocity_witness :
  complete_blocks (LM sample1)
  /\ length (data sample1) = n_times sample1
  /\ (forall i k, (i < n_times sample1)%nat -> (k < length (LM sample1))%nat ->
        read2 (data_dot sample1) i (Z.of_nat k)
        = (mkC 0 (- -1 * IZR (lm_M (LM sample1) k))
           * read2 (data sample1) i (Z.of_nat k))%C)
  /\ (forall i, (i < n_times sample1)%nat ->
        det3 (nth i (LLMatrix sample1) mzero) <> 0)
  /\ angular_velocity sample1 = Ok (repeat (mkV 0 0 (-1)) (n_times sample1)).
Proof.
  split; [exact complete_blocks_lm1|]. split; [reflexivity|].
  split; [exact sample1_rotating|]. split; [exact det3_LLMatrix_sample1|].
  exact (rigid_rotation_angular_velocity sample1 (-1) complete_blocks_lm1 eq_refl
           sample1_rotating det3_LLMatrix_sample1).
Defined.

(** X9: restricting a series to the time samples [[a, b)] commutes with
    the moments: for a series with one row of [data] per time and bounds
    that are not negative, [LLMatrix] and [LdtVector] of [W[a:b]] are the
    slices [[a:b]] of those of [W], and whenever [angular_velocity(W)]
    returns, [angular_velocity(W[a:b])] returns its slice [[a:b]]. *)
Theorem restriction_commutes (W : WaveformModes) (a b : Z) :
  length (data W) = n_times W -> (0 <= a)%Z -> (0 <= b)%Z ->
  LLMatrix (getitem W a b) = slice (LLMatrix W) a b
  /\ LdtVector (getitem W a b) = slice (LdtVector W) a b
  /\ forall omega, angular_velocity W = Ok omega ->
       angular_velocity (getitem W a b) = Ok (slice omega a b).
Proof.
  intros Hshape _ _. split; [|split].
  - now apply LLMatrix_getitem.
  - now apply LdtVector_getitem.
  - intros omega. now apply angular_velocity_getitem.
Qed.

Lemma restriction_commutes_witness :
  length (data sample11) = n_times sample11 /\ (0 <= 2)%Z /\ (0 <= 5)%Z
  /\ LLMatrix (getitem sample11 2 5) = slice (LLMatrix sample11) 2 5.
Proof.
  assert (Ha : (0 <= 2)%Z) by lia. assert (Hb : (0 <= 5)%Z) by lia.
  split; [exact sample11_shape|]. split; [exact Ha|]. split; [exact Hb|].
  exact (proj1 (restriction_commutes sample11 2 5 sample11_shape Ha Hb)).
Defined.

(** X10: multiplying every mode coefficient of a series, and so every time
    derivative, by the same complex constant [c] multiplies [LLMatrix] and
    [LdtVector] by [|c|^2]; and when [c] is not zero it changes nothing in
    the outcome of [angular_velocity], returned value or [LinAlgError]. *)
Theorem rescaling_invariance (c : C) (W : WaveformModes) :
  length (data W) = n_times W ->
  LLMatrix (rescaled c W) = map (mscale (Cnorm2 c)) (LLMatrix W)
  /\ LdtVector (rescaled c W) = map (vscale (Cnorm2 c)) (LdtVector W)
  /\ (c <> C0 -> angular_velocity (rescaled c W) = angular_velocity W).
Proof.
  intros Hshape. split; [|split].
  - now apply LLMatrix_rescaled.
  - now apply LdtVector_rescaled.
  - intros Hc. now apply angular_velocity_rescaled.
Qed.

Lemma rescaling_invariance_witness :
  length (data sample1) = n_times sample1
  /\ mkC 0 2 <> C0
  /\ angular_velocity (rescaled (mkC 0 2) sample1) = angular_velocity sample1.
Proof.
  assert (Hc : mkC 0 2 <> C0).
  { intros E. apply (f_equal im) in E. simpl in E. lra. }
  split; [reflexivity|]. split; [exact Hc|].
  exact (proj2 (proj2 (rescaling_invariance (mkC 0 2) sample1 eq_refl)) Hc).
Defined.

(** X11: for a reference index inside the array, the corrected candidate
    at the reference index never points against the rough direction: its dot
    product with [dpa_i] is not negative. *)
Theorem reference_candidate_oriented (dpa : list (vec3 R)) (rough : vec3 R)
    (i0 : nat) :
  (i0 < length dpa)%nat ->
  exists r, _LLDominantEigenvector dpa rough (Z.of_nat i0) = Ok r
            /\ 0 <= dot rough (nth i0 r vzero).
Proof. apply reference_sample_oriented. Qed.

Lemma reference_candidate_oriented_witness :
  (0 < length dpa3)%nat
  /\ exists r, _LLDominantEigenvector dpa3 zhat (Z.of_nat 0) = Ok r
               /\ 0 <= dot zhat (nth 0 r vzero).
Proof.
  assert (H : (0 < length dpa3)%nat) by (simpl; lia).
  split; [exact H|].
  exact (reference_candidate_oriented dpa3 zhat 0 H).
Defined.

(** X12: for a reference index inside the array, the walk changes only the
    sign and the length of each candidate: every sample of the result is the
    candidate at that sample, turned or not, divided by its norm (or left as
    it is when its norm is 0 or 1); the number of samples is unchanged. *)
Theorem walk_preserves_axes (dpa : list (vec3 R)) (rough : vec3 R) (i0 : nat) :
  (i0 < length dpa)%nat ->
  exists r, _LLDominantEigenvector dpa rough (Z.of_nat i0) = Ok r
            /\ length r = length dpa
            /\ forall i, (i < length dpa)%nat ->
                 exists b : bool,
                   nth i r vzero = normalize (flip_if b (nth i dpa vzero)).
Proof. apply walk_keeps_axes. Qed.

Lemma walk_preserves_axes_witness :
  (1 < length dpa3)%nat
  /\ exists r, _LLDominantEigenvector dpa3 zhat (Z.of_nat 1) = Ok r
               /\ length r = length dpa3
               /\ forall i, (i < length dpa3)%nat ->
                    exists b : bool,
                      nth i r vzero = normalize (flip_if b (nth i dpa3 vzero)).
Proof.
  assert (H : (1 < length dpa3)%nat) by (simpl; lia).
  split; [exact H|].
  exact (walk_preserves_axes dpa3 zhat 1 H).
Defined.

(** X13: when every candidate has norm 1 (as the eigenvectors of [eigh]
    have) and the reference index lies inside the array, any two consecutive
    samples of the result have a dot product greater than [-1/2]: the walk
    leaves no jump of 120 degrees or more between neighbours.  (A candidate is
    turned when its dot product with its corrected neighbour is below [1/2],
    not only when it is negative.) *)
Theorem unit_candidates_within_120_degrees (dpa : list (vec3 R)) (rough : vec3 R)
    (i0 : nat) :
  (i0 < length dpa)%nat ->
  (forall i, (i < length dpa)%nat -> norm (nth i dpa vzero) = 1) ->
  exists r, _LLDominantEigenvector dpa rough (Z.of_nat i0) = Ok r
            /\ forall i, (S i < length dpa)%nat ->
                 - / 2 < dot (nth i r vzero) (nth (S i) r vzero).
Proof. apply unit_candidates_linked. Qed.

Lemma unit_candidates_within_120_degrees_witness :
  (0 < length dpa_unit)%nat
  /\ (forall i, (i < length dpa_unit)%nat -> norm (nth i dpa_unit vzero) = 1)
  /\ exists r, _LLDominantEigenvector dpa_unit zhat (Z.of_nat 0) = Ok r
               /\ forall i, (S i < length dpa_unit)%nat ->
                    - / 2 < dot (nth i r vzero) (nth (S i) r vzero).
Proof.
  assert (H : (0 < length dpa_unit)%nat) by (simpl; lia).
  split; [exact H|]. split; [exact dpa_unit_norms|].
  exact (unit_candidates_within_120_degrees dpa_unit zhat 0 H dpa_unit_norms).
Defined.

(** X14: the walk uses the rough direction only through the sign of one dot
    product: multiplying [dpa_i] by any positive factor changes nothing in
    the outcome, whatever the array and the reference index. *)
Theorem rough_direction_scale_free (dpa : list (vec3 R)) (rough : vec3 R)
    (i : Z) (s : R) :
  0 < s ->
  _LLDominantEigenvector dpa (mkV (s * vx rough) (s * vy rough) (s * vz rough)) i
  = _LLDominantEigenvector dpa rough i.
Proof. apply _LLDominantEigenvector_rough_scale. Qed.

Lemma rough_direction_scale_free_witness :
  0 < 2
  /\ _LLDominantEigenvector dpa3 (mkV (2 * vx zhat) (2 * vy zhat) (2 * vz zhat)) 1
     = _LLDominantEigenvector dpa3 zhat 1.
Proof.
  assert (H : 0 < 2) by lra.
  split; [exact H|].
  exact (rough_direction_scale_free dpa3 zhat 1 2 H).
Defined.

(** X15: with no alignment region, for a series of at least one time
    sample whose angular velocity is computed, [corotating_frame] returns
    the frame of the integrator unchanged: the integration of the angular
    velocity from the first time to the last, started at [R0]. *)
Theorem corotating_frame_without_alignment
    (eigh : mat3 R -> vec3 R * mat3 R)
    (integrate_angular_velocity :
       list R * list (vec3 R) -> R -> R -> quaternion -> R
       -> list R * list quaternion)
    (max_norm_time : WaveformModes -> R)
    (sqrt_of_rotor : quaternion -> quaternion)
    (W : WaveformModes) (R0 : quaternion) (tolerance : R)
    (omega : list (vec3 R)) :
  angular_velocity W = Ok omega -> (0 < n_times W)%nat ->
  corotating_frame eigh integrate_angular_velocity max_norm_time sqrt_of_rotor
    W R0 tolerance None
  = Ok (snd (integrate_angular_velocity (t W, omega)
               (nth 0 (t W) 0) (nth (n_times W - 1) (t W) 0) R0 tolerance)).
Proof. apply corotating_frame_plain. Qed.

Lemma corotating_frame_without_alignment_witness :
  angular_velocity sample1 = Ok [mkV 0 0 (-1)]
  /\ (0 < n_times sample1)%nat
  /\ corotating_frame eigh_diagonal integrate_constant last_time sqrt_of_one
       sample1 quaternion_one 1e-12 None
     = Ok (snd (integrate_constant (t sample1, [mkV 0 0 (-1)])
                  (nth 0 (t sample1) 0) (nth (n_times sample1 - 1) (t sample1) 0)
                  quaternion_one 1e-12)).
Proof.
  split; [exact angular_velocity_sample1|]. split; [exact (proj1 sample1_shape)|].
  exact (corotating_frame_without_alignment eigh_diagonal integrate_constant
           last_time sqrt_of_one sample1 quaternion_one 1e-12 [mkV 0 0 (-1)]
           angular_velocity_sample1 (proj1 sample1_shape)).
Defined.

(** X16: [corotating_frame] computes the angular velocity first: when
    [angular_velocity] raises an exception ([LinAlgError] for a singular
    tensor), [corotating_frame] raises the same exception, with or without an
    alignment region. *)
Theorem corotating_frame_propagates
    (eigh : mat3 R -> vec3 R * mat3 R)
    (integrate_angular_velocity :
       list R * list (vec3 R) -> R -> R -> quaternion -> R
       -> list R * list quaternion)
    (max_norm_time : WaveformModes -> R)
    (sqrt_of_rotor : quaternion -> quaternion)
    (W : WaveformModes) (R0 : quaternion) (tolerance : R)
    (region : option (R * R)) (e : exn) :
  angular_velocity W = Raise e ->
  corotating_frame eigh integrate_angular_velocity max_norm_time sqrt_of_rotor
    W R0 tolerance region = Raise e.
Proof. apply corotating_frame_raises. Qed.

Lemma corotating_frame_propagates_witness :
  angular_velocity sample_m0 = Raise LinAlgError
  /\ corotating_frame eigh_diagonal integrate_constant last_time sqrt_of_one
       sample_m0 quaternion_one 1e-12 (Some (0, 0.1)) = Raise LinAlgError.
Proof.
  split; [exact angular_velocity_sample_m0|].
  exact (corotating_frame_propagates eigh_diagonal integrate_constant last_time
           sqrt_of_one sample_m0 quaternion_one 1e-12 (Some (0, 0.1)) LinAlgError
           angular_velocity_sample_m0).
Defined.

(** X17: the alignment needs eleven time samples: for a series of one to
    ten samples, with one row of [data] per time, whose angular velocity is
    computed, [corotating_frame] with an alignment region raises
    [IndexError], whatever the region: it takes the element of index 10 of
    the angular velocity of at most ten samples. *)
Theorem corotating_frame_short_series
    (eigh : mat3 R -> vec3 R * mat3 R)
    (integrate_angular_velocity :
       list R * list (vec3 R) -> R -> R -> quaternion -> R
       -> list R * list quaternion)
    (max_norm_time : WaveformModes -> R)
    (sqrt_of_rotor : quaternion -> quaternion)
    (W : WaveformModes) (R0 : quaternion) (tolerance : R)
    (region : R * R) (omega : list (vec3 R)) :
  length (data W) = n_times W ->
  (0 < n_times W <= 10)%nat ->
  angular_velocity W = Ok omega ->
  corotating_frame eigh integrate_angular_velocity max_norm_time sqrt_of_rotor
    W R0 tolerance (Some region) = Raise IndexError.
Proof. apply corotating_frame_short. Qed.

Lemma corotating_frame_short_series_witness :
  length (data sample1) = n_times sample1
  /\ (0 < n_times sample1 <= 10)%nat
  /\ angular_velocity sample1 = Ok [mkV 0 0 (-1)]
  /\ corotating_frame eigh_diagonal integrate_constant last_time sqrt_of_one
       sample1 quaternion_one 1e-12 (Some (0, 0.1)) = Raise IndexError.
Proof.
  assert (Hn : (0 < n_times sample1 <= 10)%nat)
    by (unfold n_times, sample1; simpl; lia).
  split; [reflexivity|]. split; [exact Hn|].
  split; [exact angular_velocity_sample1|].
  exact (corotating_frame_short_series eigh_diagonal integrate_constant last_time
           sqrt_of_one sample1 quaternion_one 1e-12 (0, 0.1) [mkV 0 0 (-1)]
           eq_refl Hn angular_velocity_sample1).
Defined.

(** X18: on a series with no time sample [LLMatrix] and [LdtVector] return
    empty arrays and [angular_velocity] returns the empty array;
    [LLDominantEigenvector] reads outside its empty array for every
    reference index, the default 0 included, with no exception; and
    [corotating_frame] raises [IndexError] at its read of the first time. *)
Theorem empty_series
    (eigh : mat3 R -> vec3 R * mat3 R)
    (integrate_angular_velocity :
       list R * list (vec3 R) -> R -> R -> quaternion -> R
       -> list R * list quaternion)
    (max_norm_time : WaveformModes -> R)
    (sqrt_of_rotor : quaternion -> quaternion)
    (W : WaveformModes) :
  n_times W = 0%nat ->
  LLMatrix W = [] /\ LdtVector W = [] /\ angular_velocity W = Ok []
  /\ (forall rough i, LLDominantEigenvector eigh W rough i = Undef)
  /\ (forall R0 tolerance region,
        corotating_frame eigh integrate_angular_velocity max_norm_time
          sqrt_of_rotor W R0 tolerance region = Raise IndexError).
Proof.
  intros H. split; [|split; [|split; [|split]]].
  - now apply empty_series_tensor.
  - now apply empty_series_vector.
  - now apply empty_series_angular_velocity.
  - intros rough i. now apply LLDominantEigenvector_empty.
  - intros R0 tolerance region. now apply corotating_frame_empty.
Qed.

Lemma empty_series_witness :
  n_times sample0 = 0%nat
  /\ angular_velocity sample0 = Ok []
  /\ LLDominantEigenvector eigh_diagonal sample0 zhat 0 = Undef
  /\ corotating_frame eigh_diagonal integrate_constant last_time sqrt_of_one
       sample0 quaternion_one 1e-12 None = Raise IndexError.
Proof.
  pose proof (empty_series eigh_diagonal integrate_constant last_time sqrt_of_one
                sample0 eq_refl) as (_ & _ & Hv & Hd & Hf).
  split; [reflexivity|]. split; [exact Hv|]. split; [exact (Hd zhat 0%Z)|].
  exact (Hf quaternion_one 1e-12 None).
Defined.


